(** * liveai-service: verification of the core against its specification

  A shallow embedding of the parts of the Gemini Multimodal Live proxy
  (python/liveai-service) that its specification makes claims about:

  - [core/websocket_handler.py]: text normalisation
    ([detect_language_ratio], [smart_clean_spaces],
    [clean_unbalanced_or_extra_quotes]), the outbound parts of
    [process_server_content], the reconnection step of
    [handle_gemini_responses], [handle_messages], the dispatch of
    [handle_client_messages] and the outer loop of [handle_client];
  - [core/RobustWebSocketServerProtocol.py]: [PortScanProtector];
  - [core/warmup_pool.py]: [GeminiWarmupPool];
  - [server.py] and [core/session_future.py]: the handshake bridge and
    [wait_for_session];
  - [core/session_manager.py]: [SessionManager].

  Python values are modelled as follows.  A [str] is the list of its code
  points (integers), a [bytes] object a list of [byte]; a dict is a [gmap];
  wall-clock readings ([time.time()]) and the language ratios are exact
  rationals; coroutines are cut at their suspension points into atomic
  steps of a transition system. *)

From Stdlib Require Import ZArith QArith Lia Lqa List Bool String Ascii.
From Stdlib.Strings Require Import Byte.
From stdpp Require Import gmap strings.
Import ListNotations.

Local Open Scope Z_scope.
Local Set Warnings "-register-all".

(** ** Numbers *)

(** [a >= b] and [a < b] on exact rationals. *)
Definition Qge_bool (a b : Q) : bool := Qle_bool b a.
Definition Qlt_bool (a b : Q) : bool := negb (Qle_bool b a).

(** ** Python strings *)

Module PyStr.

(** A code point; a [str] is a sequence of code points. *)
Definition char : Type := Z.
Definition str : Type := list char.

Definition in_range (lo hi c : Z) : bool := (lo <=? c) && (c <=? hi).

(** [Py_UNICODE_ISSPACE]: the characters that [str.strip()] removes and that
    [\s] matches in a [str] pattern. *)
Definition isspace (c : char) : bool :=
  in_range 0x09 0x0D c || in_range 0x1C 0x20 c
  || (c =? 0x85) || (c =? 0xA0) || (c =? 0x1680)
  || in_range 0x2000 0x200A c
  || (c =? 0x2028) || (c =? 0x2029) || (c =? 0x202F) || (c =? 0x205F)
  || (c =? 0x3000).

Fixpoint lstrip (s : str) : str :=
  match s with
  | c :: s' => if isspace c then lstrip s' else s
  | [] => []
  end.

Fixpoint rstrip (s : str) : str :=
  match s with
  | [] => []
  | c :: s' =>
      match rstrip s' with
      | [] => if isspace c then [] else [c]
      | r => c :: r
      end
  end.

(** [s.strip()] *)
Definition strip (s : str) : str := rstrip (lstrip s).

Fixpoint starts_with (p s : str) : bool :=
  match p, s with
  | [], _ => true
  | a :: p', b :: s' => (a =? b) && starts_with p' s'
  | _ :: _, [] => false
  end.

(** [s.replace(old, new)] for a non-empty [old]: the occurrences are found
    from the left and do not overlap.  [skip] counts the characters of the
    current occurrence that are still to be dropped. *)
Fixpoint replace_go (old new : str) (skip : nat) (s : str) : str :=
  match s with
  | [] => []
  | c :: s' =>
      match skip with
      | S k => replace_go old new k s'
      | O =>
          if starts_with old s
          then new ++ replace_go old new (Nat.pred (List.length old)) s'
          else c :: replace_go old new 0 s'
      end
  end.

Definition replace (old new s : str) : str := replace_go old new 0 s.

(** Source literals: a Rocq string holds the UTF-8 bytes of the text, and
    [py] decodes them to code points. *)
Fixpoint utf8_go (pending : nat) (acc : Z) (bs : list Z) : str :=
  match bs with
  | [] => []
  | b :: bs' =>
      match pending with
      | O =>
          if b <? 0x80 then b :: utf8_go 0 0 bs'
          else if b <? 0xE0 then utf8_go 1 (Z.land b 0x1F) bs'
          else if b <? 0xF0 then utf8_go 2 (Z.land b 0x0F) bs'
          else utf8_go 3 (Z.land b 0x07) bs'
      | S k =>
          let acc' := acc * 64 + Z.land b 0x3F in
          match k with
          | O => acc' :: utf8_go 0 0 bs'
          | S _ => utf8_go k acc' bs'
          end
      end
  end.

Definition py (s : string) : str :=
  utf8_go 0 0 (List.map (fun a => Z.of_N (N_of_ascii a)) (list_ascii_of_string s)).

End PyStr.

Import PyStr.

(** ** The fragment of [re] that the handler uses *)

Module Re.

(** Every pattern of the handler is a sequence of these items. *)
Inductive atom : Type :=
| Cls (p : char -> bool)             (* [...] or a literal: one character *)
| Grp (p : char -> bool)             (* ([...]): group 1 around one character *)
| Rep (lo : nat) (p : char -> bool)  (* greedy repetition: * is 0, + is 1, {2,} is 2 *)
| Behind (p : char -> bool)          (* (?<=[...]) *)
| Ahead (p : char -> bool).          (* (?=[...]) *)

Definition regex : Type := list atom.

(** A match at the current position: how many characters it spans and what
    group 1 captured. *)
Record hit : Type := Hit { consumed : nat; group1 : str }.

(** Greedy repetition with backtracking: take one more character of the
    class when possible, and fall back to the continuation [k] when the
    longer attempt fails and at least [lo] characters were taken. *)
Fixpoint rep (k : option char -> nat -> str -> option hit)
    (p : char -> bool) (lo : nat) (prev : option char) (n : nat) (s : str)
    {struct s} : option hit :=
  let stop := match lo with O => k prev n s | S _ => None end in
  match s with
  | c :: s' =>
      if p c then
        match rep k p (Nat.pred lo) (Some c) (S n) s' with
        | Some h => Some h
        | None => stop
        end
      else stop
  | [] => stop
  end.

(** [exec r adv prev n g s]: match [r] against the text [s], where [prev] is
    the character before the current position, [n] characters have been
    consumed since the start of the match and [g] is group 1 so far.  With
    [adv] an empty match is rejected (sre's [must_advance]). *)
Fixpoint exec (r : regex) (adv : bool) (prev : option char) (n : nat)
    (g : str) (s : str) {struct r} : option hit :=
  match r with
  | [] => if adv && Nat.eqb n 0 then None else Some (Hit n g)
  | Cls p :: r' =>
      match s with
      | c :: s' => if p c then exec r' adv (Some c) (S n) g s' else None
      | [] => None
      end
  | Grp p :: r' =>
      match s with
      | c :: s' => if p c then exec r' adv (Some c) (S n) [c] s' else None
      | [] => None
      end
  | Rep lo p :: r' =>
      rep (fun prev' n' s' => exec r' adv prev' n' g s') p lo prev n s
  | Behind p :: r' =>
      match prev with
      | Some c => if p c then exec r' adv prev n g s else None
      | None => None
      end
  | Ahead p :: r' =>
      match s with
      | c :: _ => if p c then exec r' adv prev n g s else None
      | [] => None
      end
  end.

(** Replacement templates: literal characters and [\1]. *)
Inductive piece : Type :=
| Lit (c : char)
| Group1.

Definition expand (repl : list piece) (h : hit) : str :=
  List.concat (List.map (fun x => match x with Lit c => [c] | Group1 => group1 h end) repl).

(** [re.sub(r, repl, s)]: scan from the left; where the pattern matches,
    emit the replacement and resume after the match; elsewhere copy the
    character.  After an empty match the same position is tried once more
    for a non-empty one before the character is copied. [skip] counts the
    characters of the current match still to be passed over. *)
Fixpoint sub_go (r : regex) (repl : list piece) (prev : option char)
    (skip : nat) (s : str) {struct s} : str :=
  match s with
  | [] =>
      match skip with
      | O =>
          match exec r false prev 0 [] [] with
          | Some h => expand repl h
          | None => []
          end
      | S _ => []
      end
  | c :: s' =>
      match skip with
      | S k => sub_go r repl (Some c) k s'
      | O =>
          match exec r false prev 0 [] s with
          | Some h =>
              expand repl h ++
              match consumed h with
              | S k => sub_go r repl (Some c) k s'
              | O =>
                  match exec r true prev 0 [] s with
                  | Some h' =>
                      expand repl h' ++
                      sub_go r repl (Some c) (Nat.pred (consumed h')) s'
                  | None => c :: sub_go r repl (Some c) 0 s'
                  end
              end
          | None => c :: sub_go r repl (Some c) 0 s'
          end
      end
  end.

Definition sub (r : regex) (repl : list piece) (s : str) : str :=
  sub_go r repl None 0 s.

(** [len(re.findall(r, s))] for a pattern that is one character class. *)
Definition count_class (p : char -> bool) (s : str) : Z :=
  Z.of_nat (List.length (List.filter p s)).

End Re.

(** ** Text normalisation ([core/websocket_handler.py]) *)

Module Normalize.
Import Re.

Definition is_cjk (c : char) : bool := in_range 0x4e00 0x9fff c.
Definition is_letter (c : char) : bool := in_range 65 90 c || in_range 97 122 c.
Definition is_digit (c : char) : bool := in_range 48 57 c.
(** The class "，。！？、；：" *)
Definition is_cjk_punct (c : char) : bool :=
  (c =? 0xFF0C) || (c =? 0x3002) || (c =? 0xFF01) || (c =? 0xFF1F)
  || (c =? 0x3001) || (c =? 0xFF1B) || (c =? 0xFF1A).
Definition is_quote (c : char) : bool := c =? 34.

Definition space : char := 32.

(** [detect_language_ratio]: the shares of CJK characters and of ASCII
    letters in the text.  The source divides two ints into a float and
    compares the float with 0.6 and 0.2; for every text shorter than 2^50
    characters these comparisons agree with the comparisons of the exact
    quotients, which is what the model computes. *)
Definition detect_language_ratio (text : str) : Q * Q :=
  let total := Z.of_nat (List.length text) in
  if total =? 0 then (0%Q, 0%Q)
  else
    let chinese_count := count_class is_cjk text in
    let english_count := count_class is_letter text in
    (Qmake chinese_count (Z.to_pos total), Qmake english_count (Z.to_pos total)).

Definition blank (text : str) : bool :=
  match strip text with [] => true | _ :: _ => false end.

Definition english_dominant (text : str) : bool :=
  let '(ch_ratio, en_ratio) := detect_language_ratio text in
  Qge_bool en_ratio (6 # 10) && Qlt_bool ch_ratio (2 # 10).

Definition cjk_dominant (text : str) : bool :=
  let '(ch_ratio, _) := detect_language_ratio text in
  Qge_bool ch_ratio (6 # 10).

(** The substitutions of [smart_clean_spaces], in source order. *)
Definition collapse_spaces : str -> str :=
  sub [Rep 1 isspace] [Lit space].
Definition drop_between (l r : char -> bool) : str -> str :=
  sub [Behind l; Rep 1 isspace; Ahead r] [].
Definition one_between (l r : char -> bool) : str -> str :=
  sub [Behind l; Rep 0 isspace; Ahead r] [Lit space].
Definition tighten_punct : str -> str :=
  sub [Rep 0 isspace; Grp is_cjk_punct; Rep 0 isspace] [Group1].

Definition smart_clean_spaces (text : str) : str :=
  if blank text then text
  else
    let '(ch_ratio, en_ratio) := detect_language_ratio text in
    if Qge_bool en_ratio (6 # 10) && Qlt_bool ch_ratio (2 # 10) then text
    else
      let result := collapse_spaces text in
      let result := drop_between is_cjk is_cjk result in
      let result := drop_between is_digit is_cjk result in
      let result := drop_between is_cjk is_digit result in
      let result :=
        if Qge_bool ch_ratio (6 # 10) then
          let result := drop_between is_cjk is_letter result in
          drop_between is_letter is_cjk result
        else
          let result := one_between is_cjk is_letter result in
          one_between is_letter is_cjk result in
      let result := tighten_punct result in
      strip result.

(** [clean_unbalanced_or_extra_quotes] on a [str] argument. *)
Definition clean_unbalanced_or_extra_quotes (data : str) : str :=
  let cleaned := replace [92; 34] [] data in
  let cleaned := sub [Cls is_quote] [] cleaned in
  strip (sub [Rep 2 isspace] [Lit space] cleaned).

(** [base64.b64encode]: the standard alphabet, three bytes to four
    characters, padded with [=]. *)
Definition b64_digit (i : Z) : char :=
  if i <? 26 then 65 + i
  else if i <? 52 then 97 + (i - 26)
  else if i <? 62 then 48 + (i - 52)
  else if i =? 62 then 43
  else 47.

Definition b64_pad : char := 61.

Definition byte_val (b : byte) : Z := Z.of_N (Byte.to_N b).

Definition sextet (n : Z) (k : Z) : char :=
  b64_digit (Z.land (Z.shiftr n (6 * k)) 63).

Fixpoint b64encode (data : list byte) : str :=
  match data with
  | [] => []
  | [a] =>
      let n := Z.shiftl (byte_val a) 16 in
      [sextet n 3; sextet n 2; b64_pad; b64_pad]
  | [a; b] =>
      let n := Z.lor (Z.shiftl (byte_val a) 16) (Z.shiftl (byte_val b) 8) in
      [sextet n 3; sextet n 2; sextet n 1; b64_pad]
  | a :: b :: c :: rest =>
      let n := Z.lor (Z.lor (Z.shiftl (byte_val a) 16) (Z.shiftl (byte_val b) 8))
                     (byte_val c) in
      sextet n 3 :: sextet n 2 :: sextet n 1 :: sextet n 0 :: b64encode rest
  end.

Definition plain (c : char) : Prop := is_quote c = false /\ isspace c = false.

End Normalize.

(** ** Whitespace between characters

    The substitutions of [smart_clean_spaces] act on the whitespace between
    two characters only; this section describes a text by its characters and
    the spaces between them, to reason about what the substitutions do. *)

Module Gaps.
Import Re Normalize.

(** A text without runs of whitespace is its characters that are not
    whitespace, each with the mark of a space before it, and the mark of a
    space at the end. *)
Definition token : Type := (bool * char)%type.

Fixpoint render (T : list token) (tr : bool) : str :=
  match T with
  | [] => if tr then [space] else []
  | (g, c) :: T' => (if g then [space] else []) ++ c :: render T' tr
  end.

(** The tokens of a text once every run of whitespace counts as one space;
    [g] tells whether whitespace precedes the text. *)
Fixpoint parse (g : bool) (s : str) : list token * bool :=
  match s with
  | [] => ([], g)
  | c :: s' =>
      if isspace c then parse true s'
      else let '(T, tr) := parse false s' in ((g, c) :: T, tr)
  end.

(** A lookbehind for one character of a class. *)
Definition behind (l : char -> bool) (p : option char) : bool :=
  match p with
  | Some c => l c
  | None => false
  end.

(** Delete the space between a character of [l] and one of [r]. *)
Fixpoint close_gaps (l r : char -> bool) (p : option char) (T : list token)
    : list token :=
  match T with
  | [] => []
  | (g, c) :: T' => (g && negb (behind l p && r c), c) :: close_gaps l r (Some c) T'
  end.

(** Put a space between a character of [l] and one of [r]. *)
Fixpoint open_gaps (l r : char -> bool) (p : option char) (T : list token)
    : list token :=
  match T with
  | [] => []
  | (g, c) :: T' => (g || (behind l p && r c), c) :: open_gaps l r (Some c) T'
  end.

(** Delete the space before and after a CJK punctuation mark. *)
Fixpoint tighten_gaps (after : bool) (T : list token) : list token :=
  match T with
  | [] => []
  | (g, c) :: T' =>
      (g && negb after && negb (is_cjk_punct c), c) :: tighten_gaps (is_cjk_punct c) T'
  end.

Fixpoint last_punct (after : bool) (T : list token) : bool :=
  match T with
  | [] => after
  | (_, c) :: T' => last_punct (is_cjk_punct c) T'
  end.

(** Whether the rendered text starts with a space, and the tokens without
    that space. *)
Definition lead (T : list token) (tr : bool) : bool :=
  match T with
  | [] => tr
  | (g, _) :: _ => g
  end.

Definition unlead (T : list token) (tr : bool) : list token * bool :=
  match T with
  | [] => ([], false)
  | (_, c) :: T' => ((false, c) :: T', tr)
  end.

(** What the substitutions do to the space before a character [c] that
    follows [p], in source order. *)
Definition gap_after_cleaning (cjk : bool) (g : bool) (p : option char) (c : char)
    : bool :=
  let g := g && negb (behind is_cjk p && is_cjk c) in
  let g := g && negb (behind is_digit p && is_cjk c) in
  let g := g && negb (behind is_cjk p && is_digit c) in
  let g :=
    if cjk then
      (g && negb (behind is_cjk p && is_letter c))
      && negb (behind is_letter p && is_cjk c)
    else (g || (behind is_cjk p && is_letter c)) || (behind is_letter p && is_cjk c) in
  g && negb (behind is_cjk_punct p) && negb (is_cjk_punct c).

Fixpoint clean_gaps (cjk : bool) (p : option char) (T : list token) : list token :=
  match T with
  | [] => []
  | (g, c) :: T' => (gap_after_cleaning cjk g p c, c) :: clean_gaps cjk (Some c) T'
  end.

(** The substitutions and the final [strip] of [smart_clean_spaces]. *)
Definition clean (cjk : bool) (text : str) : str :=
  let result := collapse_spaces text in
  let result := drop_between is_cjk is_cjk result in
  let result := drop_between is_digit is_cjk result in
  let result := drop_between is_cjk is_digit result in
  let result :=
    if cjk then drop_between is_letter is_cjk (drop_between is_cjk is_letter result)
    else one_between is_letter is_cjk (one_between is_cjk is_letter result) in
  strip (tighten_punct result).

(** (?<=[l])\s{lo,}(?=[r]) *)
Definition between (lo : nat) (l r : char -> bool) : regex :=
  [Behind l; Rep lo isspace; Ahead r].

(** No token holds a whitespace character. *)
Definition solid (T : list token) : Prop :=
  Forall (fun t : token => isspace (snd t) = false) T.

(** The length of the run of whitespace that starts the text. *)
Fixpoint ws_prefix (s : str) : nat :=
  match s with
  | c :: s' => if isspace c then S (ws_prefix s') else O
  | [] => O
  end.

(** \s*([，。！？、；：])\s* *)
Definition tighten : regex := [Rep 0 isspace; Grp is_cjk_punct; Rep 0 isspace].

(** The substitutions of [clean] on tokens, one after the other. *)
Definition gaps (cjk : bool) (p : option char) (T : list token) : list token :=
  let T := close_gaps is_cjk is_cjk p T in
  let T := close_gaps is_digit is_cjk p T in
  let T := close_gaps is_cjk is_digit p T in
  let T :=
    if cjk then close_gaps is_letter is_cjk p (close_gaps is_cjk is_letter p T)
    else open_gaps is_letter is_cjk p (open_gaps is_cjk is_letter p T) in
  tighten_gaps (behind is_cjk_punct p) T.

Definition cjk_tokens (T : list token) : Z :=
  count_class is_cjk (List.map snd T).

Definition spaces (T : list token) : nat :=
  List.length (List.filter fst T).

End Gaps.

(** ** The abuse-control gate ([core/RobustWebSocketServerProtocol.py]) *)

Module Gate.

(** [websocket.remote_address]: a [(host, port)] tuple, or the host alone. *)
Inductive address : Type :=
| HostPort (host : string) (port : Z)
| HostOnly (host : string).

Definition ip_of (remote_address : address) : string :=
  match remote_address with
  | HostPort host _ => host
  | HostOnly host => host
  end.

(** Timestamps are the readings of [time.time()], in seconds. *)
Record PortScanProtector : Type := {
  connection_attempts : gmap string (list Q);
  banned_ips : gmap string Q;
  scan_threshold : nat;
  ban_duration : Q
}.

(** [PortScanProtector()] *)
Definition new : PortScanProtector :=
  {| connection_attempts := ∅;
     banned_ips := ∅;
     scan_threshold := 10;
     ban_duration := 1800%Q |}.

(** The attempts of [ip] that the clean-up at time [now] retains. *)
Definition in_window (now t : Q) : bool := Qlt_bool (now - t) 300.

Definition attempts_of (self : PortScanProtector) (ip : string) : list Q :=
  default [] (connection_attempts self !! ip).

(** Lines 34-49: record the attempt, drop the old ones, check the count. *)
Definition record_attempt (self : PortScanProtector) (ip : string) (now : Q)
    : bool * PortScanProtector :=
  let appended := attempts_of self ip ++ [now] in
  let kept := List.filter (in_window now) appended in
  let attempts' := <[ip := kept]> (connection_attempts self) in
  if (scan_threshold self <? List.length kept)%nat then
    (false,
     {| connection_attempts := attempts';
        banned_ips := <[ip := (now + ban_duration self)%Q]> (banned_ips self);
        scan_threshold := scan_threshold self;
        ban_duration := ban_duration self |})
  else
    (true,
     {| connection_attempts := attempts';
        banned_ips := banned_ips self;
        scan_threshold := scan_threshold self;
        ban_duration := ban_duration self |}).

(** [should_accept(remote_address)] called when the clock reads [now]. *)
Definition should_accept (self : PortScanProtector) (remote_address : address)
    (now : Q) : bool * PortScanProtector :=
  let ip := ip_of remote_address in
  match banned_ips self !! ip with
  | Some until =>
      if Qlt_bool now until then (false, self)
      else
        record_attempt
          {| connection_attempts := connection_attempts self;
             banned_ips := delete ip (banned_ips self);
             scan_threshold := scan_threshold self;
             ban_duration := ban_duration self |} ip now
  | None => record_attempt self ip now
  end.

(** Whether [ip] is under a ban that has not expired at [now]. *)
Definition banned_now (self : PortScanProtector) (ip : string) (now : Q) : bool :=
  match banned_ips self !! ip with
  | Some until => Qlt_bool now until
  | None => false
  end.

(** How many recorded attempts of [ip] are inside the retention window at
    [now], before the attempt at [now] is recorded. *)
Definition recent (self : PortScanProtector) (ip : string) (now : Q) : nat :=
  List.length (List.filter (in_window now) (attempts_of self ip)).

(** Successive attempts from one address, at the given clock readings. *)
Fixpoint attempts (self : PortScanProtector) (remote_address : address)
    (times : list Q) : list bool * PortScanProtector :=
  match times with
  | [] => ([], self)
  | now :: times' =>
      let '(ok, self') := should_accept self remote_address now in
      let '(oks, self'') := attempts self' remote_address times' in
      (ok :: oks, self'')
  end.

(** Ten attempts, one per second, from a new address. *)
Definition after_ten : PortScanProtector :=
  snd (attempts new (HostPort "203.0.113.7" 40000)
         [1; 2; 3; 4; 5; 6; 7; 8; 9; 10]%Q).

End Gate.

(** ** The warm-up pool ([core/warmup_pool.py]) *)

Module Pool.

(** A [genai.Client], known by its identity. *)
Definition client : Type := nat.

Inductive exn : Type :=
| TypeError          (* raised by the interpreter *)
| RuntimeError       (* "Pool is shutting down" *)
| CreationError.     (* whatever the blocking client initialisation raised *)

(** The values that reach an [await] in this module. *)
Inductive pyval : Type :=
| VInt (n : Z)
| VAwaitable (result : pyval).

(** [await v]: an awaitable yields its result; any other object has no
    [__await__] and the interpreter raises [TypeError]. *)
Definition await (v : pyval) : exn + pyval :=
  match v with
  | VAwaitable result => inr result
  | VInt _ => inl TypeError
  end.

(** [asyncio.Queue.qsize()] is a plain method returning an int. *)
Definition qsize (q : list client) : pyval := VInt (Z.of_nat (List.length q)).

(** A coroutine of the pool, cut at its suspension points.  Each
    constructor is a point at which the coroutine waits to be resumed (or
    has ended). *)
Inductive task : Type :=
(* _create_and_put_safe(index) *)
| CreateStart (index : Z)       (* scheduled, line 94 not yet reached *)
| CreateWaitSem (index : Z)     (* blocked in [async with self._sem] *)
| CreateInThread (index : Z)    (* holds a permit, awaits _create_client_in_thread *)
| CreateDone
(* ensure_pool_capacity() *)
| EnsureStart
| EnsureWaitLock                (* blocked in [async with self._lock] *)
| EnsureGather (ids : list nat) (* holds the lock, awaits asyncio.gather *)
| EnsureDone
(* get_session() *)
| GetStart
| GetInThread                   (* awaits _create_client_in_thread, line 168 *)
| GetReturned (c : client)
| GetRaised (e : exn)
(* return_session(client) *)
| ReturnStart (c : client)
| ReturnDone
(* warmup_sessions() *)
| WarmupLoop (created : Z)      (* at the loop test, line 81 *)
| WarmupGather (ids : list nat) (* awaits asyncio.gather, line 86 *)
| WarmupSleep (created : Z)     (* awaits asyncio.sleep(0.5), line 89 *)
| WarmupDone
| WarmupRaised (e : exn).

(** The pool object together with the coroutines the event loop knows. A
    task is named by its position in [tasks]. *)
Record config : Type := {
  pool_size : Z;
  batch_size : Z;
  queue : list client;          (* self._queue, an unbounded asyncio.Queue *)
  locked : bool;                (* self._lock *)
  sem : nat;                    (* free permits of self._sem *)
  is_shutting_down : bool;
  background_tasks : list nat;  (* self._background_tasks *)
  tasks : list task;
  next_client : client;         (* identity of the next client created *)
  closed : list client          (* clients passed to _close_client_safe *)
}.

(** [GeminiWarmupPool(pool_size, _, creation_concurrency, batch_size)] *)
Definition init (pool_size : Z) (creation_concurrency : nat) (batch_size : Z)
    : config :=
  {| pool_size := pool_size; batch_size := batch_size; queue := [];
     locked := false; sem := creation_concurrency; is_shutting_down := false;
     background_tasks := []; tasks := []; next_client := 0%nat; closed := [] |}.

Definition with_tasks (ts : list task) (cfg : config) : config :=
  {| pool_size := pool_size cfg; batch_size := batch_size cfg;
     queue := queue cfg; locked := locked cfg; sem := sem cfg;
     is_shutting_down := is_shutting_down cfg;
     background_tasks := background_tasks cfg; tasks := ts;
     next_client := next_client cfg; closed := closed cfg |}.

Definition with_queue (q : list client) (cfg : config) : config :=
  {| pool_size := pool_size cfg; batch_size := batch_size cfg;
     queue := q; locked := locked cfg; sem := sem cfg;
     is_shutting_down := is_shutting_down cfg;
     background_tasks := background_tasks cfg; tasks := tasks cfg;
     next_client := next_client cfg; closed := closed cfg |}.

Definition with_locked (b : bool) (cfg : config) : config :=
  {| pool_size := pool_size cfg; batch_size := batch_size cfg;
     queue := queue cfg; locked := b; sem := sem cfg;
     is_shutting_down := is_shutting_down cfg;
     background_tasks := background_tasks cfg; tasks := tasks cfg;
     next_client := next_client cfg; closed := closed cfg |}.

Definition with_sem (n : nat) (cfg : config) : config :=
  {| pool_size := pool_size cfg; batch_size := batch_size cfg;
     queue := queue cfg; locked := locked cfg; sem := n;
     is_shutting_down := is_shutting_down cfg;
     background_tasks := background_tasks cfg; tasks := tasks cfg;
     next_client := next_client cfg; closed := closed cfg |}.

Definition with_background (bg : list nat) (cfg : config) : config :=
  {| pool_size := pool_size cfg; batch_size := batch_size cfg;
     queue := queue cfg; locked := locked cfg; sem := sem cfg;
     is_shutting_down := is_shutting_down cfg;
     background_tasks := bg; tasks := tasks cfg;
     next_client := next_client cfg; closed := closed cfg |}.

Definition with_next_client (c : client) (cfg : config) : config :=
  {| pool_size := pool_size cfg; batch_size := batch_size cfg;
     queue := queue cfg; locked := locked cfg; sem := sem cfg;
     is_shutting_down := is_shutting_down cfg;
     background_tasks := background_tasks cfg; tasks := tasks cfg;
     next_client := c; closed := closed cfg |}.

Definition with_closed (cs : list client) (cfg : config) : config :=
  {| pool_size := pool_size cfg; batch_size := batch_size cfg;
     queue := queue cfg; locked := locked cfg; sem := sem cfg;
     is_shutting_down := is_shutting_down cfg;
     background_tasks := background_tasks cfg; tasks := tasks cfg;
     next_client := next_client cfg; closed := cs |}.

(** Task [i] moves to the point [t]. *)
Definition goto (i : nat) (t : task) (cfg : config) : config :=
  with_tasks (<[i := t]> (tasks cfg)) cfg.

(** [asyncio.create_task] for each element of [ts]; the new tasks take the
    next free positions. *)
Definition spawn (ts : list task) (cfg : config) : config :=
  with_tasks (tasks cfg ++ ts) cfg.

(** [t.done()] for a task created from [_create_and_put_safe] or
    [ensure_pool_capacity]. *)
Definition done (cfg : config) (i : nat) : bool :=
  match tasks cfg !! i with
  | Some CreateDone | Some EnsureDone => true
  | _ => false
  end.

(** [[f(i + base) for i in range(n)]] *)
Definition creators (base : Z) (n : Z) : list task :=
  List.map (fun i => CreateStart (Z.of_nat i + base)) (seq 0 (Z.to_nat n)).

(** Lines 97-100 once the permit is taken. *)
Definition create_in_thread (i : nat) (index : Z) (cfg : config) : config :=
  goto i (CreateInThread index) (with_sem (Nat.pred (sem cfg)) cfg).

(** Lines 183-193 once the lock is taken. *)
Definition ensure_locked (i : nat) (cfg : config) : config :=
  let current := Z.of_nat (List.length (queue cfg)) in
  let threshold := Z.max 1 (pool_size cfg / 2) in
  if current >=? threshold then goto i EnsureDone cfg
  else
    let needed := pool_size cfg - current in
    let ids := seq (List.length (tasks cfg)) (Z.to_nat needed) in
    with_locked true (goto i (EnsureGather ids) (spawn (creators 0 needed) cfg)).

(** The event loop resumes task [i], which is at point [t].  [ok] tells
    whether the blocking client initialisation the task may be waiting for
    has succeeded.  [None]: the task cannot be resumed (it is blocked, or
    has ended). *)
Definition resume (i : nat) (t : task) (ok : bool) (cfg : config)
    : option config :=
  match t with
  (* _create_and_put_safe, lines 92-103 *)
  | CreateStart index =>
      if is_shutting_down cfg then Some (goto i CreateDone cfg)
      else if (0 <? sem cfg)%nat then Some (create_in_thread i index cfg)
      else Some (goto i (CreateWaitSem index) cfg)
  | CreateWaitSem index =>
      if (0 <? sem cfg)%nat then Some (create_in_thread i index cfg) else None
  | CreateInThread index =>
      let cfg := with_sem (S (sem cfg)) cfg in
      if ok then
        Some (goto i CreateDone
                (with_next_client (S (next_client cfg))
                   (with_queue (queue cfg ++ [next_client cfg]) cfg)))
      else Some (goto i CreateDone cfg)
  | CreateDone => None
  (* ensure_pool_capacity, lines 175-194 *)
  | EnsureStart =>
      if is_shutting_down cfg then Some (goto i EnsureDone cfg)
      else if locked cfg then Some (goto i EnsureWaitLock cfg)
      else Some (ensure_locked i cfg)
  | EnsureWaitLock =>
      if locked cfg then None else Some (ensure_locked i cfg)
  | EnsureGather ids =>
      if forallb (done cfg) ids
      then Some (goto i EnsureDone (with_locked false cfg))
      else None
  | EnsureDone => None
  (* get_session, lines 147-169 *)
  | GetStart =>
      if is_shutting_down cfg then Some (goto i (GetRaised RuntimeError) cfg)
      else
        match queue cfg with
        | c :: q =>
            let ensure_id := List.length (tasks cfg) in
            let cfg := spawn [EnsureStart] (with_queue q cfg) in
            let cfg := with_background (background_tasks cfg ++ [ensure_id]) cfg in
            let cfg :=
              with_background
                (List.filter (fun t => negb (done cfg t)) (background_tasks cfg)) cfg in
            Some (goto i (GetReturned c) cfg)
        | [] => Some (goto i GetInThread cfg)
        end
  | GetInThread =>
      if ok then
        Some (goto i (GetReturned (next_client cfg))
                (with_next_client (S (next_client cfg)) cfg))
      else Some (goto i (GetRaised CreationError) cfg)
  | GetReturned _ => None
  | GetRaised _ => None
  (* return_session, lines 196-211 *)
  | ReturnStart c =>
      if is_shutting_down cfg
      then Some (goto i ReturnDone (with_closed (closed cfg ++ [c]) cfg))
      else Some (goto i ReturnDone (with_queue (queue cfg ++ [c]) cfg))
  | ReturnDone => None
  (* warmup_sessions, lines 74-90 *)
  | WarmupLoop created =>
      if (created <? pool_size cfg) && negb (is_shutting_down cfg) then
        let to_create := Z.min (batch_size cfg) (pool_size cfg - created) in
        let ids := seq (List.length (tasks cfg)) (Z.to_nat to_create) in
        Some (goto i (WarmupGather ids) (spawn (creators created to_create) cfg))
      else Some (goto i WarmupDone cfg)
  | WarmupGather ids =>
      if forallb (done cfg) ids then
        match await (qsize (queue cfg)) with
        | inl e => Some (goto i (WarmupRaised e) cfg)
        | inr (VInt created) => Some (goto i (WarmupSleep created) cfg)
        | inr (VAwaitable _) => Some (goto i (WarmupRaised TypeError) cfg)
        end
      else None
  | WarmupSleep created => Some (goto i (WarmupLoop created) cfg)
  | WarmupDone => None
  | WarmupRaised _ => None
  end.

(** What can happen next: a caller invokes an operation of the pool (its
    coroutine is created and waits to be run), or the event loop resumes a
    task.  [shutdown] and [keep_alive] are not among the operations: the
    flag [is_shutting_down] is read by the coroutines and keeps the value
    the pool starts with. *)
Inductive label : Type :=
| CallGetSession
| CallReturnSession (c : client)
| CallEnsurePoolCapacity
| CallWarmupSessions
| Run (i : nat) (ok : bool).

Definition step (l : label) (cfg : config) : option config :=
  match l with
  | CallGetSession => Some (spawn [GetStart] cfg)
  | CallReturnSession c => Some (spawn [ReturnStart c] cfg)
  | CallEnsurePoolCapacity => Some (spawn [EnsureStart] cfg)
  | CallWarmupSessions => Some (spawn [WarmupLoop 0] cfg)
  | Run i ok =>
      match tasks cfg !! i with
      | Some t => resume i t ok cfg
      | None => None
      end
  end.

Fixpoint run (ls : list label) (cfg : config) : option config :=
  match ls with
  | [] => Some cfg
  | l :: ls' =>
      match step l cfg with
      | Some cfg' => run ls' cfg'
      | None => None
      end
  end.

(** The number of blocking client initialisations in flight: tasks waiting
    in [_create_client_in_thread]. *)
Definition in_thread (t : task) : bool :=
  match t with
  | CreateInThread _ | GetInThread => true
  | _ => false
  end.

Definition creations_in_flight (cfg : config) : nat :=
  List.length (List.filter in_thread (tasks cfg)).

(** A creation task that has not ended: it may still put a client. *)
Definition is_pending (t : task) : bool :=
  match t with
  | CreateStart _ | CreateWaitSem _ | CreateInThread _ => true
  | _ => false
  end.

Definition is_gather (t : task) : bool :=
  match t with
  | EnsureGather _ => true
  | _ => false
  end.

(** The coroutines of acquire and replenish: [get_session],
    [ensure_pool_capacity] and the creation tasks. *)
Definition replenish_task (t : task) : bool :=
  match t with
  | ReturnStart _ | ReturnDone
  | WarmupLoop _ | WarmupGather _ | WarmupSleep _ | WarmupDone | WarmupRaised _ => false
  | _ => true
  end.

(** The steps of acquire and replenish: no call of [return_session], none
    of [warmup_sessions]. *)
Definition acquire_or_replenish (l : label) : bool :=
  match l with
  | CallReturnSession _ | CallWarmupSessions => false
  | _ => true
  end.

Definition count (f : task -> bool) (ts : list task) : nat :=
  List.length (List.filter f ts).

(** A pool at rest: no coroutine, the lock free, not shutting down, the
    queue within the capacity. *)
Definition at_rest (cfg : config) : Prop :=
  tasks cfg = [] /\ locked cfg = false /\ is_shutting_down cfg = false
  /\ Z.of_nat (List.length (queue cfg)) <= pool_size cfg.

(** What acquire and replenish maintain: the sessions in the queue and the
    creations still to come fit the capacity; creations are pending only
    under the lock, and all of them belong to the one replenish wave that
    holds it. *)
Definition replenish_inv (P : Z) (q : list client) (lk sh : bool)
    (ts : list task) : Prop :=
  sh = false
  /\ Z.of_nat (List.length q) + Z.of_nat (count is_pending ts) <= P
  /\ (lk = false -> count is_pending ts = 0%nat)
  /\ (forall j ids, ts !! j = Some (EnsureGather ids) ->
       forall i t, ts !! i = Some t -> is_pending t = true -> In i ids)
  /\ (forall i t, ts !! i = Some t -> replenish_task t = true)
  /\ count is_gather ts = (if lk then 1%nat else 0%nat).

Definition Inv (cfg : config) : Prop :=
  replenish_inv (pool_size cfg) (queue cfg) (locked cfg) (is_shutting_down cfg)
    (tasks cfg).

(** A pool of capacity 2: one replenish wave fills it, both sessions are
    acquired, and the wave that the second acquisition triggers fills the
    pool again. *)
Definition replenish_schedule : list label :=
  [CallEnsurePoolCapacity; Run 0 true;
   Run 1 true; Run 2 true; Run 1 true; Run 2 true; Run 0 true;
   CallGetSession; Run 3 true; Run 4 true;
   CallGetSession; Run 5 true; Run 6 true;
   Run 7 true; Run 8 true; Run 7 true; Run 8 true; Run 6 true].

(** The constructor's defaults, every client initialisation succeeding:
    the first batch of three is created, and the coroutine then raises. *)
Definition warmup_schedule : list label :=
  [Run 0 true; Run 1 true; Run 2 true; Run 3 true;
   Run 1 true; Run 2 true; Run 3 true; Run 0 true].

End Pool.

(** ** JSON values sent on a socket *)

Module Json.

Inductive value : Type :=
| Str (s : str)
| Bool (b : bool)
| Obj (members : list (string * value)).

(** [{"type": t, "data": d}] *)
Definition typed (t : string) (d : value) : value :=
  Obj [("type"%string, Str (py t)); ("data"%string, d)].

End Json.

(** ** [core/base_info.py] *)

Module base_info.

Record BaseInfo : Type := {
  userId : option str;
  token : option str;
  longitude : option Q;
  latitude : option Q;
  voice : option str;
  location : option str;
  date : option str
}.

End base_info.

(** ** The session record *)

Module session.

(** An upstream stream handle, a message producer and a running tool task,
    each known by its identity. *)
Definition upstream : Type := nat.
Definition producer : Type := nat.
Definition tool_task : Type := nat.

(** Modelled from the spec: [core/session.py] ([SessionState],
    [create_session], [remove_session]) is not among the sources.  The
    fields are those of the specification's Session (section 3) under the
    names the handler uses for them; a new session has no upstream, no
    context, no producer and both flags off, and the module keeps the
    table of active sessions by id. *)
Record SessionState : Type := {
  genai_session : option upstream;
  BaseInfo : option base_info.BaseInfo;
  RocketMQ : option producer;
  current_tool_execution : option tool_task;
  is_receiving_response : bool;
  received_model_response : bool
}.

Definition new_session : SessionState :=
  {| genai_session := None; BaseInfo := None; RocketMQ := None;
     current_tool_execution := None; is_receiving_response := false;
     received_model_response := false |}.

Definition set_genai_session (u : option upstream) (s : SessionState) : SessionState :=
  {| genai_session := u; BaseInfo := BaseInfo s; RocketMQ := RocketMQ s;
     current_tool_execution := current_tool_execution s;
     is_receiving_response := is_receiving_response s;
     received_model_response := received_model_response s |}.

Definition set_BaseInfo (b : option base_info.BaseInfo) (s : SessionState) : SessionState :=
  {| genai_session := genai_session s; BaseInfo := b; RocketMQ := RocketMQ s;
     current_tool_execution := current_tool_execution s;
     is_receiving_response := is_receiving_response s;
     received_model_response := received_model_response s |}.

Definition set_RocketMQ (p : option producer) (s : SessionState) : SessionState :=
  {| genai_session := genai_session s; BaseInfo := BaseInfo s; RocketMQ := p;
     current_tool_execution := current_tool_execution s;
     is_receiving_response := is_receiving_response s;
     received_model_response := received_model_response s |}.

Definition set_flags (receiving received : bool) (s : SessionState) : SessionState :=
  {| genai_session := genai_session s; BaseInfo := BaseInfo s;
     RocketMQ := RocketMQ s;
     current_tool_execution := current_tool_execution s;
     is_receiving_response := receiving;
     received_model_response := received |}.

End session.

(** ** The message pump ([core/websocket_handler.py]) *)

Module Handler.
Import Normalize session.

(** *** Exceptions *)

Inductive exn : Type :=
| ReconnectionCompleted
| ConnectionClosedOK (message : string)
| ConnectionClosedError (message : string)
| TimeoutError
| Error (message : string)             (* any other [Exception], with its [str()] *)
| ExceptionGroup (excs : list exn).    (* what a failed task group raises *)

Fixpoint contains (needle hay : string) : bool :=
  String.prefix needle hay
  || match hay with
     | EmptyString => false
     | String _ hay' => contains needle hay'
     end.

Definition lower_ascii (a : ascii) : ascii :=
  let n := nat_of_ascii a in
  if (65 <=? n)%nat && (n <=? 90)%nat then ascii_of_nat (n + 32) else a.

Fixpoint lower (s : string) : string :=
  match s with
  | EmptyString => EmptyString
  | String a s' => String (lower_ascii a) (lower s')
  end.

(** [str(exc)] for the exceptions the handler inspects (for a group, up to
    the count of sub-exceptions that follows the message). *)
Definition message_of (e : exn) : string :=
  match e with
  | ReconnectionCompleted => "Gemini session reconnected. Triggering task restart."
  | ConnectionClosedOK message => message
  | ConnectionClosedError message => message
  | TimeoutError => ""
  | Error message => message
  | ExceptionGroup _ => "unhandled errors in a TaskGroup"
  end.

(** *** The state the coroutines of one connection share *)

Inductive mq_event : Type :=
| SendSync (p : producer) (role : string) (content : str)
| Shutdown (p : producer).

Record world : Type := {
  heap : gmap nat SessionState;        (* session objects, by identity *)
  active_sessions : gmap string nat;   (* core/session.py: id -> session *)
  sent : list Json.value;              (* frames sent to the client, oldest first *)
  closed_upstreams : list upstream;    (* upstream handles that were exited *)
  next_upstream : upstream;            (* identity of the next handle created *)
  mq : list mq_event;                  (* calls on message producers *)
  next_producer : producer;
  socket_closed : bool
}.

Definition with_heap (h : gmap nat SessionState) (w : world) : world :=
  {| heap := h; active_sessions := active_sessions w; sent := sent w;
     closed_upstreams := closed_upstreams w; next_upstream := next_upstream w;
     mq := mq w; next_producer := next_producer w;
     socket_closed := socket_closed w |}.

Definition with_active (a : gmap string nat) (w : world) : world :=
  {| heap := heap w; active_sessions := a; sent := sent w;
     closed_upstreams := closed_upstreams w; next_upstream := next_upstream w;
     mq := mq w; next_producer := next_producer w;
     socket_closed := socket_closed w |}.

(** [await websocket.send(json.dumps(v))] *)
Definition send (v : Json.value) (w : world) : world :=
  {| heap := heap w; active_sessions := active_sessions w; sent := sent w ++ [v];
     closed_upstreams := closed_upstreams w; next_upstream := next_upstream w;
     mq := mq w; next_producer := next_producer w;
     socket_closed := socket_closed w |}.

Definition mq_call (e : mq_event) (w : world) : world :=
  {| heap := heap w; active_sessions := active_sessions w; sent := sent w;
     closed_upstreams := closed_upstreams w; next_upstream := next_upstream w;
     mq := mq w ++ [e]; next_producer := next_producer w;
     socket_closed := socket_closed w |}.

(** [await session.genai_session.__aexit__(None, None, None)] *)
Definition exit_upstream (ref : nat) (w : world) : world :=
  match heap w !! ref with
  | Some s =>
      match genai_session s with
      | Some u =>
          {| heap := heap w; active_sessions := active_sessions w; sent := sent w;
             closed_upstreams := closed_upstreams w ++ [u];
             next_upstream := next_upstream w; mq := mq w;
             next_producer := next_producer w;
             socket_closed := socket_closed w |}
      | None => w
      end
  | None => w
  end.

(** An assignment to a field of the session object [ref]. *)
Definition update (ref : nat) (f : SessionState -> SessionState) (w : world) : world :=
  with_heap (alter f ref (heap w)) w.

(** [create_gsession(base_info)] followed by [__aenter__()]: a new handle. *)
Definition open_upstream (w : world) : upstream * world :=
  (next_upstream w,
   {| heap := heap w; active_sessions := active_sessions w; sent := sent w;
      closed_upstreams := closed_upstreams w;
      next_upstream := S (next_upstream w); mq := mq w;
      next_producer := next_producer w; socket_closed := socket_closed w |}).

(** *** [process_server_content] *)

Record part : Type := {
  inline_data : option (list byte);
  text : option str
}.

Record server_content : Type := {
  interrupted : bool;
  model_turn : option (list part);
  turn_complete : bool;
  input_transcription : option (option str);
  output_transcription : option (option str)
}.

(** Truth value of an optional [str]. *)
Definition nonempty (t : option str) : option str :=
  match t with
  | Some (c :: s) => Some (c :: s)
  | _ => None
  end.

(** Lines 480-494: the frame for one part of a model turn, if any. *)
Definition part_frames (p : part) : list Json.value :=
  match inline_data p with
  | Some data =>
      let audio_base64 := b64encode data in
      let clear_audio_quotes := clean_unbalanced_or_extra_quotes audio_base64 in
      [Json.typed "audio" (Json.Str clear_audio_quotes)]
  | None =>
      match nonempty (text p) with
      | Some t =>
          let clear_text := smart_clean_spaces t in
          let clear_text_quotes := clean_unbalanced_or_extra_quotes clear_text in
          [Json.typed "text" (Json.Str clear_text_quotes)]
      | None => []
      end
  end.

(** The two transcript buffers of the current turn. *)
Record buffers : Type := {
  input_transcriptions : list str;
  output_transcriptions : list str
}.

Definition publish (ref : nat) (role : string) (content : str) (w : world) : world :=
  match content with
  | [] => w
  | _ :: _ =>
      match heap w !! ref with
      | Some s =>
          match RocketMQ s with
          | Some p => mq_call (SendSync p role content) w
          | None => w
          end
      | None => w
      end
  end.

Definition process_server_content (ref : nat) (content : option server_content)
    (b : buffers) (w : world) : buffers * world :=
  match content with
  | None => (b, w)
  | Some sc =>
      if interrupted sc then
        let w :=
          send (Json.typed "interrupted"
                  (Json.Obj [("message"%string,
                              Json.Str (py "Response interrupted by user input"))])) w in
        (b, update ref (fun s => set_flags false (received_model_response s) s) w)
      else
        let w :=
          match model_turn sc with
          | Some parts =>
              let w := update ref (set_flags true true) w in
              fold_left (fun w p => fold_left (fun w f => send f w) (part_frames p) w)
                        parts w
          | None => w
          end in
        let w :=
          if turn_complete sc then
            let w := send (Json.Obj [("type"%string, Json.Str (py "turn_complete"))]) w in
            let w := update ref (set_flags false false) w in
            let w := publish ref "user" (List.concat (input_transcriptions b)) w in
            publish ref "assistant" (List.concat (output_transcriptions b)) w
          else w in
        let b :=
          match input_transcription sc with
          | Some t =>
              {| input_transcriptions :=
                   input_transcriptions b ++
                   [match nonempty t with
                    | Some t => smart_clean_spaces t
                    | None => []
                    end];
                 output_transcriptions := output_transcriptions b |}
          | None => b
          end in
        match output_transcription sc with
        | Some t =>
            match nonempty t with
            | Some t =>
                let clear_text := smart_clean_spaces t in
                ({| input_transcriptions := input_transcriptions b;
                    output_transcriptions := output_transcriptions b ++ [clear_text] |},
                 send (Json.typed "text" (Json.Str clear_text)) w)
            | None =>
                ({| input_transcriptions := input_transcriptions b;
                    output_transcriptions := output_transcriptions b ++ [[]] |}, w)
            end
        | None => (b, w)
        end
  end.

(** *** Reconnection in [handle_gemini_responses] *)

Inductive outcome : Type :=
| Returned
| Raised (e : exn).

(** [go_away.time_left] is true when present and not zero. *)
Definition truthy (time_left : option Z) : bool :=
  match time_left with
  | Some t => negb (t =? 0)
  | None => false
  end.

(** Lines 295-302 and 317-323: open a new upstream for the same context,
    store it in the session, tell the client, raise the signal.  [ok] tells
    whether [create_gsession] succeeded. *)
Definition reconnect (ref : nat) (ok : bool) (w : world) : outcome * world :=
  if ok then
    let '(new_gemini_session, w) := open_upstream w in
    let w := update ref (set_genai_session (Some new_gemini_session)) w in
    let w :=
      send (Json.Obj [("reconnect"%string, Json.Bool true);
                      ("data"%string, Json.Str (py "reconnected successfully"))]) w in
    (Raised ReconnectionCompleted, w)
  else (Raised (Error "create_gsession failed"), w).




(** *** [handle_messages]: what leaves the task group *)

Definition error_frame (message action error_type : string) : Json.value :=
  Json.typed "error"
    (Json.Obj [("message"%string, Json.Str (py message));
               ("action"%string, Json.Str (py action));
               ("error_type"%string, Json.Str (py error_type))]).

(** The [for exc in eg.exceptions] loop of lines 120-146.  The result tells
    how the loop ended: by [raise exc] (with [is_reconnecting] set), or
    with the value of [handled]. *)
Inductive scan_result : Type :=
| RaisedInLoop (e : exn)
| Handled (handled : bool).

Fixpoint scan (excs : list exn) (w : world) : scan_result * world :=
  match excs with
  | [] => (Handled false, w)
  | exc :: excs' =>
      match exc with
      | ReconnectionCompleted => (RaisedInLoop exc, w)
      | _ =>
          if contains "Quota exceeded" (message_of exc) then
            let w :=
              send (error_frame "Quota exceeded."
                      "Please wait a moment and try again in a few minutes."
                      "quota_exceeded") w in
            let w :=
              send (Json.typed "text"
                      (Json.Str (py "⚠️ Quota exceeded. Please wait a moment and try again in a few minutes."))) w in
            (Handled true, w)
          else if contains "connection closed" (lower (message_of exc)) then
            (Handled true, w)
          else scan excs' w
      end
  end.

(** [handle_messages] after the task group has ended with the exceptions
    [raised] of its two tasks (none: both returned).  The [finally] clause
    executes [return] when [is_reconnecting] is set, and a [return] in a
    [finally] clause discards the exception that is being raised. *)
Definition handle_messages_exit (raised : list exn) (w : world) : outcome * world :=
  match raised with
  | [] => (Returned, w)
  | _ :: _ =>
      match scan raised w with
      | (RaisedInLoop _, w) => (Returned, w)
      | (Handled true, w) => (Returned, w)
      | (Handled false, w) => (Raised (ExceptionGroup raised), w)
      end
  end.

(** *** [cleanup_session] and [handle_client]

    The registry of [core/session_manager.py] and the cancellation of a
    running tool task take no part in what follows and are left out. *)

Definition cleanup_session (ref : nat) (session_id : string) (w : world) : world :=
  let w := exit_upstream ref w in
  let w :=
    match heap w !! ref with
    | Some s =>
        match RocketMQ s with
        | Some p => mq_call (Shutdown p) w
        | None => w
        end
    | None => w
    end in
  with_active (delete session_id (active_sessions w)) w.

Definition close_socket (w : world) : world :=
  {| heap := heap w; active_sessions := active_sessions w; sent := sent w;
     closed_upstreams := closed_upstreams w; next_upstream := next_upstream w;
     mq := mq w; next_producer := next_producer w; socket_closed := true |}.

(** Modelled from the spec: [create_session(session_id)] of the missing
    [core/session.py] creates the Session of a socket on admission: a new
    session object, entered in the table of active sessions under its id
    ([remove_session], in [cleanup_session] above, takes it out). *)
Definition create_session (session_id : string) (w : world) : nat * world :=
  let ref := fresh (dom (heap w)) in
  (ref,
   with_active (<[session_id := ref]> (active_sessions w))
     (with_heap (<[ref := new_session]> (heap w)) w)).

Definition create_rocketmq_producer (w : world) : producer * world :=
  (next_producer w,
   {| heap := heap w; active_sessions := active_sessions w; sent := sent w;
      closed_upstreams := closed_upstreams w; next_upstream := next_upstream w;
      mq := mq w; next_producer := S (next_producer w);
      socket_closed := socket_closed w |}).

(** One entry into the pump: which session object it was given, and what
    that object held at that moment. *)
Definition entry : Type := (nat * option SessionState)%type.

Section HandleClient.

(** [handle_messages(websocket, session)], run to its end. *)
Variable handle_messages : nat -> world -> outcome * world.

(** How the [while True] loop of lines 577-601 is left. *)
Inductive loop_exit : Type :=
| Break
| Propagate (e : exn).

Fixpoint pump_loop (fuel : nat) (ref : nat) (reconnecting : bool)
    (entries : list entry) (w : world)
    : option (loop_exit * bool * list entry * world) :=
  match fuel with
  | O => None
  | S fuel' =>
      let entries := entries ++ [(ref, heap w !! ref)] in
      match handle_messages ref w with
      | (Returned, w) => Some (Break, reconnecting, entries, w)
      | (Raised ReconnectionCompleted, w) => pump_loop fuel' ref true entries w
      | (Raised e, w) =>
          if contains "code = 1006" (message_of e)
             || contains "connection closed abnormally" (lower (message_of e))
          then
            Some (Break, false, entries,
                  send (error_frame "Connection closed unexpectedly"
                          "Reconnecting..." "connection_closed") w)
          else Some (Propagate e, false, entries, w)
      end
  end.

(** [handle_client(websocket, gemini_session, base_info, session_id)].
    The result lists the entries into the pump. *)
Definition handle_client (fuel : nat) (gemini_session : upstream)
    (info : base_info.BaseInfo) (session_id : string) (w : world)
    : option (list entry * world) :=
  let '(ref, w) := create_session session_id w in
  let w := update ref (set_genai_session (Some gemini_session)) w in
  let w := update ref (set_BaseInfo (Some info)) w in
  let '(p, w) := create_rocketmq_producer w in
  let w := update ref (set_RocketMQ (Some p)) w in
  match pump_loop fuel ref false [] w with
  | None => None
  | Some (exit, reconnecting, entries, w) =>
      let '(reconnecting, w) :=
        match exit with
        | Break => (reconnecting, w)
        | Propagate (ConnectionClosedOK _) => (reconnecting, w)
        | Propagate (ConnectionClosedError _) => (reconnecting, w)
        | Propagate TimeoutError =>
            (reconnecting,
             send (error_frame "Session timed out due to inactivity."
                     "You can start a new conversation." "timeout") w)
        | Propagate e =>
            (false,
             if contains "connection closed" (lower (message_of e))
                || contains "websocket" (lower (message_of e))
             then w
             else send (error_frame "An unexpected error occurred."
                          "Please try again." "general") w)
        end in
      if reconnecting then Some (entries, w)
      else Some (entries, close_socket (cleanup_session ref session_id w))
  end.

End HandleClient.


Definition some_info : base_info.BaseInfo :=
  {| base_info.userId := Some (py "42"); base_info.token := None;
     base_info.longitude := None; base_info.latitude := None;
     base_info.voice := Some (py "Aoede"); base_info.location := Some (py "Tokyo");
     base_info.date := None |}.


End Handler.

(** ** The handshake bridge ([core/session_future.py], [server.py]) *)

Module Handshake.
Import session.

(** What the background preparation hands over: [(session, success, base_info)]. *)
Record prepared : Type := {
  prepared_session : option upstream;
  success : bool;
  prepared_base_info : base_info.BaseInfo
}.

Inductive future : Type :=
| Pending
| Result (r : prepared)
| Cancelled.

(** The [asyncio.Future] objects by identity, and the module-level dict
    [session_futures] from session id to future. *)
Record server : Type := {
  futures : gmap nat future;
  session_futures : gmap string nat
}.

Definition is_done (f : future) : bool :=
  match f with
  | Pending => false
  | _ => true
  end.

Definition create_session_future (session_id : string) (sv : server) : server :=
  let fut := fresh (dom (futures sv)) in
  {| futures := <[fut := Pending]> (futures sv);
     session_futures := <[session_id := fut]> (session_futures sv) |}.

Definition get_session_future (session_id : string) (sv : server) : option nat :=
  session_futures sv !! session_id.

Definition set_unless_done (fut : nat) (f : future) (sv : server) : server :=
  match futures sv !! fut with
  | Some Pending =>
      {| futures := <[fut := f]> (futures sv);
         session_futures := session_futures sv |}
  | _ => sv
  end.

Definition pop (session_id : string) (sv : server) : server :=
  {| futures := futures sv;
     session_futures := delete session_id (session_futures sv) |}.

Definition complete_session_future (session_id : string) (r : prepared)
    (sv : server) : server :=
  match session_futures sv !! session_id with
  | Some fut => pop session_id (set_unless_done fut (Result r) sv)
  | None => pop session_id sv
  end.

Definition cancel_session_future (session_id : string) (sv : server) : server :=
  match session_futures sv !! session_id with
  | Some fut => set_unless_done fut Cancelled (pop session_id sv)
  | None => pop session_id sv
  end.

(** What [pre_operation_background] does while the handler waits: it calls
    [complete_session_future] with [r] after [t] seconds, or not at all. *)
Inductive background : Type :=
| CompletesAfter (t : Q) (r : prepared)
| Silent.

Inductive exn : Type :=
| RuntimeError (message : string)
| TimeoutError
| CancelledError.

(** [await asyncio.wait_for(fut, timeout)]: the result of the future when it
    is set before [timeout] seconds have passed; otherwise the future is
    cancelled and [TimeoutError] is raised. *)
Definition wait_for (fut : nat) (timeout : Q) (session_id : string)
    (bg : background) (sv : server) : (exn + prepared) * server :=
  match futures sv !! fut with
  | Some (Result r) => (inr r, sv)
  | Some Cancelled | None => (inl CancelledError, sv)
  | Some Pending =>
      match bg with
      | CompletesAfter t r =>
          if Qlt_bool t timeout
          then (inr r, complete_session_future session_id r sv)
          else (inl TimeoutError, set_unless_done fut Cancelled sv)
      | Silent => (inl TimeoutError, set_unless_done fut Cancelled sv)
      end
  end.

(** What the handler does on its connection. *)
Inductive event : Type :=
| Send (frame : Json.value)
| SendClose (code : Z) (reason : string)
| HandleClient (g_session : upstream) (info : base_info.BaseInfo) (session_id : string).

(** How [safe_ws_handler] ends: every [Exception] is caught and logged by
    one of its [except] clauses; [CancelledError] is not an [Exception]. *)
Inductive ending : Type :=
| Normal
| Logged (e : exn)
| Escaped (e : exn).

Definition ready_frame (session_id : string) : Json.value :=
  Json.Obj [("ready"%string, Json.Bool true);
            ("session_id"%string, Json.Str (py session_id))].

(** [safe_ws_handler(conn)] for the connection whose [str(id(conn))] is
    [session_id], lines 226-263. *)
Definition safe_ws_handler (session_id : string) (bg : background) (sv : server)
    : list event * ending * server :=
  let ready := Send (ready_frame session_id) in
  let '(events, ending, sv) :=
    match get_session_future session_id sv with
    | None => ([ready], Logged (RuntimeError "Session future not found"), sv)
    | Some fut =>
        match wait_for fut 5 session_id bg sv with
        | (inl CancelledError, sv) => ([ready], Escaped CancelledError, sv)
        | (inl e, sv) => ([ready], Logged e, sv)
        | (inr r, sv) =>
            match success r, prepared_session r with
            | true, Some g_session =>
                ([ready; HandleClient g_session (prepared_base_info r) session_id],
                 Normal, sv)
            | _, _ =>
                ([ready; SendClose 1008 "Gemini initialization failed"], Normal, sv)
            end
        end
    end in
  (events, ending, cancel_session_future session_id sv).

Definition is_close (e : event) : bool :=
  match e with
  | SendClose _ _ => true
  | _ => false
  end.

End Handshake.

(** ** What a cleaned text looks like *)

Module Tidy.
Import Normalize.

Definition nonspace (c : char) : bool := negb (isspace c).

(** [spaced b s]: every whitespace character of [s] is U+0020, stands
    between two characters that are not whitespace, or, when [b] is false,
    at the start before such a character. *)
Fixpoint spaced (b : bool) (s : str) : bool :=
  match s with
  | [] => true
  | c :: s' =>
      if isspace c then
        (c =? space) && negb b
        && match s' with [] => false | _ :: _ => true end
        && spaced true s'
      else spaced false s'
  end.

(** The characters that the quote clean-up never touches: all but the
    straight double quote, the backslash and whitespace. *)
Definition kept (c : char) : bool :=
  negb (is_quote c) && negb (c =? 92) && negb (isspace c).

(** No two whitespace characters in a row. *)
Fixpoint apart (s : str) : Prop :=
  match s with
  | c :: s' =>
      match s' with
      | d :: _ => (isspace c = true -> isspace d = false) /\ apart s'
      | [] => True
      end
  | [] => True
  end.

Definition starts_solid (s : str) : Prop :=
  match s with
  | c :: _ => isspace c = false
  | [] => True
  end.

End Tidy.

(** ** Reading Base64 text back *)

Module Base64.
Import Normalize.

(** The place of a character in the Base64 alphabet. *)
Definition b64_index (c : char) : Z :=
  if in_range 65 90 c then c - 65
  else if in_range 97 122 c then c - 97 + 26
  else if in_range 48 57 c then c - 48 + 52
  else if c =? 43 then 62
  else 63.

Definition to_byte (n : Z) : byte :=
  match Byte.of_N (Z.to_N n) with
  | Some b => b
  | None => x00
  end.

(** The bytes that a padded Base64 text stands for: four characters give
    three bytes, or two or one before padding. *)
Fixpoint unpack (s : str) : list byte :=
  match s with
  | c3 :: c2 :: c1 :: c0 :: rest =>
      let n := b64_index c3 * 262144 + b64_index c2 * 4096
               + b64_index c1 * 64 + b64_index c0 in
      (if c1 =? b64_pad then [to_byte (n / 65536)]
       else if c0 =? b64_pad then [to_byte (n / 65536); to_byte (n / 256 mod 256)]
       else [to_byte (n / 65536); to_byte (n / 256 mod 256); to_byte (n mod 256)])
      ++ unpack rest
  | _ => []
  end.

End Base64.

(** [not l] for a list or a [str]. *)
Definition is_nil {A : Type} (l : list A) : bool :=
  match l with
  | [] => true
  | _ :: _ => false
  end.

(** ** [handle_messages] as the pump of [handle_client] *)

Module Pump.
Import session Handler.

(** [handle_messages(websocket, session)], lines 105-171: the task group
    runs [handle_client_messages] and [handle_gemini_responses] until both
    have ended; [group] tells which exceptions they ended with and what they
    did in between. *)
Definition handle_messages (group : nat -> world -> list exn * world)
    (ref : nat) (w : world) : outcome * world :=
  let '(raised, w) := group ref w in
  handle_messages_exit raised w.

(** The exceptions that end the [for] loop of lines 120-146: the restart
    signal, and the ones whose text mentions the quota or a closed
    connection. *)
Definition quota (exc : exn) : bool :=
  match exc with
  | ReconnectionCompleted => false
  | _ => contains "Quota exceeded" (message_of exc)
  end.

Definition recognised (exc : exn) : bool :=
  match exc with
  | ReconnectionCompleted => true
  | _ =>
      contains "Quota exceeded" (message_of exc)
      || contains "connection closed" (lower (message_of exc))
  end.







End Pump.

(** ** Messages from the client ([handle_client_messages]) *)

Module ClientMessages.

(** What [json.loads] returns.  An object keeps its members in the order
    of the text; numbers are exact (NaN and the infinities, which
    [json.loads] accepts, are left out). *)
Inductive json : Type :=
| JNull
| JBool (b : bool)
| JNum (q : Q)
| JStr (s : str)
| JArr (items : list json)
| JObj (members : list (str * json)).

Fixpoint str_eqb (a b : str) : bool :=
  match a, b with
  | [], [] => true
  | x :: a', y :: b' => (x =? y) && str_eqb a' b'
  | _, _ => false
  end.

(** [d.get(k)] on the dict of an object: of two members with the same name
    the later one counts. *)
Fixpoint get (k : str) (members : list (str * json)) : option json :=
  match members with
  | [] => None
  | (k', v) :: rest =>
      match get k rest with
      | Some v' => Some v'
      | None => if str_eqb k' k then Some v else None
      end
  end.

(** The truth value of a Python object. *)
Definition truthy (v : option json) : bool :=
  match v with
  | None | Some JNull => false
  | Some (JBool b) => b
  | Some (JNum q) => negb (Qeq_bool q 0)
  | Some (JStr s) => negb (is_nil s)
  | Some (JArr items) => negb (is_nil items)
  | Some (JObj members) => negb (is_nil members)
  end.

(** [v == text] for a [str] literal. *)
Definition is_str (text : string) (v : option json) : bool :=
  match v with
  | Some (JStr s) => str_eqb s (py text)
  | _ => false
  end.

Fixpoint substring (needle hay : str) : bool :=
  starts_with needle hay
  || match hay with
     | [] => false
     | _ :: hay' => substring needle hay'
     end.

Inductive exn : Type :=
| JSONDecodeError      (* the message is not JSON *)
| TypeError.           (* raised by the interpreter *)

(** What the handler does: a call of [session.genai_session.send], a frame
    to the client, or leaving the upstream session ([__aexit__]). *)
Inductive input : Type :=
| Media (data : option json) (mime_type : string)   (* {"data": .., "mime_type": ..} *)
| Raw (data : option json).

Inductive action : Type :=
| ToUpstream (i : input) (end_of_turn : bool)
| ToClient (frame : Json.value)
| ExitUpstream.

(** How the handling of one message ends: the loop goes on to the next
    message; [break] with [running] still set, so that the [while] loop
    starts the iteration over the socket again; the coroutine returns; an
    exception leaves it. *)
Inductive next : Type :=
| Continue
| Restart
| Return
| Raise (e : exn).

Definition data_is_null : Json.value :=
  Json.typed "text" (Json.Str (py "data is null")).

(** Lines 196-242, for a dict [data] that has the key "type". *)
Definition dispatch (members : list (str * json)) : list action * next :=
  let type := get (py "type") members in
  let data := get (py "data") members in
  if negb (truthy data) then ([ToClient data_is_null], Return)
  else if is_str "audio" type then ([ToUpstream (Media data "audio/pcm") true], Continue)
  else if is_str "image" type then ([ToUpstream (Media data "image/jpeg") false], Continue)
  else if is_str "text" type then ([ToUpstream (Raw data) true], Continue)
  else if is_str "end" type then ([], Continue)
  else if is_str "state" type then
    if is_str "stop" data then ([ExitUpstream], Return)
    else if is_str "reconnect" data then ([ExitUpstream], Restart)
    else ([], Continue)
  else ([], Continue).

(** Lines 180-242: one message.  ["type" in data] is a key test on a dict, a
    substring test on a [str], a membership test on a list and a
    [TypeError] on anything else; [data["type"]] is a [TypeError] on a
    [str] and on a list. *)
Definition on_message (message : option json) : list action * next :=
  match message with
  | None => ([], Raise JSONDecodeError)
  | Some (JObj members) =>
      match get (py "type") members with
      | Some _ => dispatch members
      | None => ([], Continue)
      end
  | Some (JStr s) =>
      if substring (py "type") s then ([], Raise TypeError) else ([], Continue)
  | Some (JArr items) =>
      if existsb (fun v => is_str "type" (Some v)) items
      then ([], Raise TypeError) else ([], Continue)
  | Some _ => ([], Raise TypeError)
  end.

Inductive status : Type :=
| Waiting              (* in [async for], waiting for the next message *)
| Returned
| Raised (e : exn).

(** [handle_client_messages(websocket, session)] on the messages the
    client has sent so far, every send succeeding. *)
Fixpoint handle_client_messages (messages : list (option json))
    : list action * status :=
  match messages with
  | [] => ([], Waiting)
  | message :: rest =>
      match on_message message with
      | (acts, Continue) | (acts, Restart) =>
          let '(acts', st) := handle_client_messages rest in
          (acts ++ acts', st)
      | (acts, Return) => (acts, Returned)
      | (acts, Raise e) => (acts, Raised e)
      end
  end.

(** The messages the handler passes on: an object whose type is "audio",
    "image" or "text" and whose data is true. *)
Definition forwarded (message : option json) : option action :=
  match message with
  | Some (JObj members) =>
      let type := get (py "type") members in
      let data := get (py "data") members in
      if negb (truthy data) then None
      else if is_str "audio" type then Some (ToUpstream (Media data "audio/pcm") true)
      else if is_str "image" type then Some (ToUpstream (Media data "image/jpeg") false)
      else if is_str "text" type then Some (ToUpstream (Raw data) true)
      else None
  | _ => None
  end.

Definition to_upstream (a : action) : bool :=
  match a with
  | ToUpstream _ _ => true
  | _ => false
  end.

(** [[f(m) for m in messages if f(m) is not None]] *)
Fixpoint collect {A B : Type} (f : A -> option B) (l : list A) : list B :=
  match l with
  | [] => []
  | x :: l' =>
      match f x with
      | Some y => y :: collect f l'
      | None => collect f l'
      end
  end.

Definition audio_message (data : string) : option json :=
  Some (JObj [(py "type", JStr (py "audio")); (py "data", JStr (py data))]).

End ClientMessages.

(** ** The gate over a sequence of connections *)

Module GateRuns.
Import Gate.

(** Successive calls of [should_accept], each with the address of the
    connection and the reading of the clock. *)
Fixpoint serve (self : PortScanProtector) (calls : list (address * Q))
    : PortScanProtector :=
  match calls with
  | [] => self
  | (remote_address, now) :: calls' =>
      serve (snd (should_accept self remote_address now)) calls'
  end.

(** The clock does not go back: every reading is at least [last] and at
    least the one before it. *)
Fixpoint ascending (last : Q) (calls : list (address * Q)) : Prop :=
  match calls with
  | [] => True
  | (_, now) :: calls' => (last <= now)%Q /\ ascending now calls'
  end.

Definition last_reading (last : Q) (calls : list (address * Q)) : Q :=
  List.fold_left (fun _ call => snd call) calls last.

(** What the protector keeps true from one call to the next, [last] being
    the latest reading of the clock: no attempt is recorded in the future;
    an address with more than [scan_threshold] attempts on record is
    banned; a ban ends [ban_duration] or more after every attempt on
    record. *)
Definition gate_inv (last : Q) (self : PortScanProtector) : Prop :=
  scan_threshold self = 10%nat
  /\ ban_duration self = 1800%Q
  /\ forall ip,
       Forall (fun t => (t <= last)%Q) (attempts_of self ip)
       /\ (List.length (attempts_of self ip) <= 11)%nat
       /\ ((10 < List.length (attempts_of self ip))%nat ->
           exists until, banned_ips self !! ip = Some until)
       /\ (forall until, banned_ips self !! ip = Some until ->
           Forall (fun t => (t + 1800 <= until)%Q) (attempts_of self ip)).

(** Eleven connections from one address, one per second, then one from
    another address, then the first address again after the ban. *)
Definition scan_then_return : list (address * Q) :=
  List.map (fun t => (HostPort "203.0.113.7" 40000, inject_Z (Z.of_nat t))) (seq 1 11)
  ++ [(HostPort "198.51.100.2" 40001, 20%Q)].

End GateRuns.

(** ** Accounting of the pool's semaphore and lock *)

Module PoolAccounts.
Import Pool.

(** A creation task that holds a permit of [self._sem]. *)
Definition holds_permit (t : task) : bool :=
  match t with
  | CreateInThread _ => true
  | _ => false
  end.

(** The permits are either free or held by a creation task, and the lock
    is held exactly while one replenish wave waits for its creations. *)
Definition accounts (creation_concurrency : nat) (cfg : config) : Prop :=
  (sem cfg + count holds_permit (tasks cfg))%nat = creation_concurrency
  /\ count is_gather (tasks cfg) = Nat.b2n (locked cfg).

End PoolAccounts.

(** ** Waiting on the session queue ([server.py]) *)

Module SessionQueue.
Import session.

(** An entry of [session_queue]: [(conn_id, session, success, base_info)]. *)
Record entry : Type := {
  conn_id : string;
  entry_session : option upstream;
  entry_success : bool;
  entry_base_info : base_info.BaseInfo
}.

(** How a call of [wait_for_session] stands: it has returned an entry
    (leaving the queue as given), or it is suspended in [get()] on the
    empty queue. *)
Inductive waited : Type :=
| Returned (e : entry) (session_queue : list entry)
| Suspended.

(** [wait_for_session(connection_id)], lines 105-114, for at most [fuel]
    turns of its loop, no other coroutine touching the queue.  [get()] on
    a queue that is not empty and [put()] on an unbounded queue complete
    without suspending.  [None]: the loop is still turning. *)
Fixpoint wait_for_session (fuel : nat) (connection_id : string)
    (session_queue : list entry) : option waited :=
  match fuel with
  | O => None
  | S fuel' =>
      match session_queue with
      | [] => Some Suspended
      | e :: rest =>
          if String.eqb (conn_id e) connection_id then Some (Returned e rest)
          else wait_for_session fuel' connection_id (rest ++ [e])
      end
  end.

Definition entry_for (connection_id : string) : entry :=
  {| conn_id := connection_id; entry_session := Some 1%nat; entry_success := true;
     entry_base_info := Handler.some_info |}.

End SessionQueue.

(** ** The registry of sessions ([core/session_manager.py]) *)

Module session_manager.

(** Sessions and sockets are known by their identity.  The bodies of
    [add] and [remove] run under [self._lock] and do not suspend. *)
Record SessionManager : Type := {
  _sessions : gmap string nat;
  _connections : gset nat
}.

(** [SessionManager()] *)
Definition new : SessionManager :=
  {| _sessions := ∅; _connections := ∅ |}.

Definition add (websocket : nat) (session_id : string) (session : nat)
    (self : SessionManager) : SessionManager :=
  {| _sessions := <[session_id := session]> (_sessions self);
     _connections := {[websocket]} ∪ _connections self |}.

Definition remove (websocket : nat) (session_id : string) (self : SessionManager)
    : SessionManager :=
  {| _sessions := delete session_id (_sessions self);
     _connections := _connections self ∖ {[websocket]} |}.

Definition active_sessions (self : SessionManager) : nat := size (_sessions self).

Definition active_connections (self : SessionManager) : nat :=
  size (_connections self).

End session_manager.

(** * Properties *)

(** ** Strings and substitutions *)

Section StringFacts.
Import Re Normalize.

Lemma lstrip_id (s : str) :
  match s with c :: _ => isspace c = false | [] => True end -> lstrip s = s.
Proof.
  destruct s as [|c s]; simpl; [reflexivity | intros ->; reflexivity].
Qed.

Lemma rstrip_id (s : str) :
  Forall (fun c => isspace c = false) s -> rstrip s = s.
Proof.
  induction 1 as [|c s Hc _ IH]; simpl; [reflexivity|].
  rewrite IH, Hc. destruct s; reflexivity.
Qed.

Lemma strip_id (s : str) :
  Forall (fun c => isspace c = false) s -> strip s = s.
Proof.
  intros H. unfold strip. rewrite lstrip_id.
  - apply rstrip_id, H.
  - destruct H; auto.
Qed.

(** A one-character pattern that no character of the text satisfies
    matches nowhere. *)
Lemma sub_class_absent (p : char -> bool) (repl : list piece) (s : str) :
  Forall (fun c => p c = false) s ->
  forall prev, sub_go [Cls p] repl prev 0 s = s.
Proof.
  induction 1 as [|c s Hc _ IH]; intros prev; simpl; [reflexivity|].
  rewrite Hc. f_equal. apply IH.
Qed.

(** A run of at least two characters of a class needs one of them. *)
Lemma sub_run_absent (p : char -> bool) (lo : nat) (repl : list piece) (s : str) :
  Forall (fun c => p c = false) s ->
  forall prev, sub_go [Rep (S lo) p] repl prev 0 s = s.
Proof.
  induction 1 as [|c s Hc _ IH]; intros prev; simpl; [reflexivity|].
  rewrite Hc. f_equal. apply IH.
Qed.

Lemma replace_escaped_quote_absent (s : str) :
  Forall (fun c => is_quote c = false) s ->
  replace [92; 34] [] s = s.
Proof.
  unfold replace. induction 1 as [|c s Hc Hs IH]; [reflexivity|].
  cbn [replace_go].
  assert (Hno : starts_with [92; 34] (c :: s) = false).
  { cbn [starts_with]. destruct Hs as [|d s Hd Hs].
    - apply andb_false_r.
    - unfold is_quote in Hd. rewrite (Z.eqb_sym 34 d), Hd.
      apply andb_false_r. }
  rewrite Hno. f_equal. exact IH.
Qed.

(** The quote clean-up leaves alone any text without a straight double
    quote and without whitespace. *)
Lemma clean_quotes_plain (s : str) :
  Forall (fun c => is_quote c = false) s ->
  Forall (fun c => isspace c = false) s ->
  clean_unbalanced_or_extra_quotes s = s.
Proof.
  intros Hq Hs. unfold clean_unbalanced_or_extra_quotes, sub.
  rewrite replace_escaped_quote_absent by exact Hq.
  rewrite sub_class_absent by exact Hq.
  rewrite sub_run_absent by exact Hs.
  apply strip_id, Hs.
Qed.

(** Printable ASCII other than the space is not whitespace. *)
Lemma printable_not_space (c : char) : 33 <= c <= 126 -> isspace c = false.
Proof.
  intros H. unfold isspace, in_range.
  repeat match goal with
         | |- context [?a <=? ?b] => destruct (Z.leb_spec a b); try lia
         | |- context [?a =? ?b] => destruct (Z.eqb_spec a b); try lia
         end; reflexivity.
Qed.

Lemma b64_digit_range (i : Z) :
  0 <= i < 64 -> 33 <= b64_digit i <= 126 /\ b64_digit i <> 34.
Proof.
  intros H. unfold b64_digit.
  repeat match goal with
         | |- context [?a <? ?b] => destruct (Z.ltb_spec a b)
         | |- context [?a =? ?b] => destruct (Z.eqb_spec a b)
         end; lia.
Qed.


Lemma sextet_plain (n k : Z) : plain (sextet n k).
Proof.
  unfold sextet.
  assert (H : 0 <= Z.land (Z.shiftr n (6 * k)) 63 < 64).
  { change 63 with (Z.ones 6). rewrite Z.land_ones by lia.
    apply Z.mod_pos_bound. reflexivity. }
  destruct (b64_digit_range _ H) as [Hr Hq]. split.
  - unfold is_quote. apply Z.eqb_neq, Hq.
  - apply printable_not_space, Hr.
Qed.

Lemma pad_plain : plain b64_pad.
Proof. split; reflexivity. Qed.

Lemma b64encode_plain (data : list byte) : Forall plain (b64encode data).
Proof.
  assert (H : forall n (d : list byte), (List.length d <= n)%nat -> Forall plain (b64encode d)).
  { induction n as [|n IH]; intros d Hd.
    - destruct d; [constructor | simpl in Hd; lia].
    - destruct d as [|a [|b [|c rest]]]; cbn [b64encode].
      + constructor.
      + repeat (constructor; [first [apply sextet_plain | apply pad_plain]|]).
        constructor.
      + repeat (constructor; [first [apply sextet_plain | apply pad_plain]|]).
        constructor.
      + do 4 (constructor; [apply sextet_plain|]).
        apply IH. simpl in Hd. lia. }
  apply (H (List.length data)). lia.
Qed.

(** The models agree with the documented behaviour of the library
    functions: [re.sub('x*', '-', 'abxd')] is ['-a-b--d-'], and the Base64
    texts of "M", "Ma" and "Man" are "TQ==", "TWE=" and "TWFu". *)
Example sub_empty_matches :
  sub [Rep 0 (fun c => c =? 120)] [Lit 45] (py "abxd") = py "-a-b--d-".
Proof. reflexivity. Qed.

Example b64encode_man :
  b64encode [x4d] = py "TQ=="
  /\ b64encode [x4d; x61] = py "TWE="
  /\ b64encode [x4d; x61; x6e] = py "TWFu".
Proof. repeat split; reflexivity. Qed.

Example b64_alphabet :
  List.map (fun i => b64_digit (Z.of_nat i)) (seq 0 64)
  = py "ABCDEFGHIJKLMNOPQRSTUVWXYZabcdefghijklmnopqrstuvwxyz0123456789+/".
Proof. reflexivity. Qed.

End StringFacts.

(** ** Text normalisation *)

Section NormalizeFacts.
Import Re Normalize Handler.

Lemma count_class_absent (p : char -> bool) (s : str) :
  Forall (fun c => p c = false) s -> count_class p s = 0.
Proof.
  unfold count_class. induction 1 as [|c s Hc _ IH]; simpl; [reflexivity|].
  rewrite Hc. exact IH.
Qed.

(** C1 (as stated, refuted).  A text of ASCII letters and spaces only, in
    which the letters are less than 60% of the characters, is changed: the
    two spaces of "a  b" are collapsed to one. *)
Lemma pure_english_text_is_changed :
  Forall (fun c => is_cjk c = false) (py "a  b")
  /\ smart_clean_spaces (py "a  b") = py "a b"
  /\ smart_clean_spaces (py "a  b") <> py "a  b".
Proof.
  split; [|split].
  - repeat constructor.
  - vm_compute. reflexivity.
  - vm_compute. discriminate.
Qed.

(** C3 (as stated, refuted).  The text part "你好 ，  世界 hello" does not
    reach the client as "你好，世界hello". *)
Lemma cjk_example_not_as_stated :
  part_frames {| inline_data := None; text := Some (py "你好 ，  世界 hello") |}
  <> [Json.typed "text" (Json.Str (py "你好，世界hello"))].
Proof. vm_compute. discriminate. Qed.

(** C3 (amended).  Four of the fourteen characters of "你好 ，  世界 hello"
    are CJK, so the text is not CJK-dominant; the mixed rule keeps one space
    between 界 and hello, and the client receives "你好，世界 hello". *)
Theorem cjk_example_keeps_one_space :
  detect_language_ratio (py "你好 ，  世界 hello") = (4 # 14, 5 # 14)%Q
  /\ cjk_dominant (py "你好 ，  世界 hello") = false
  /\ part_frames {| inline_data := None; text := Some (py "你好 ，  世界 hello") |}
     = [Json.typed "text" (Json.Str (py "你好，世界 hello"))].
Proof. repeat split; vm_compute; reflexivity. Qed.

(** C10.  The audio frame carries the Base64 text of the bytes as it is:
    the quote clean-up changes no Base64 string. *)
Theorem audio_frame_is_base64 (data : list byte) (t : option str) :
  clean_unbalanced_or_extra_quotes (b64encode data) = b64encode data
  /\ part_frames {| inline_data := Some data; text := t |}
     = [Json.typed "audio" (Json.Str (b64encode data))].
Proof.
  assert (H : clean_unbalanced_or_extra_quotes (b64encode data) = b64encode data).
  { pose proof (b64encode_plain data) as Hp.
    apply clean_quotes_plain; eapply Forall_impl; try exact Hp;
      intros c [Hq Hs]; assumption. }
  split; [exact H|]. unfold part_frames. simpl. rewrite H. reflexivity.
Qed.

End NormalizeFacts.

(** ** Idempotence of the normalisation *)

Section IdempotenceFacts.
Import Re Normalize Gaps.

Section Shapes.
Local Arguments isspace : simpl never.

Lemma isspace_space : isspace space = true.
Proof. reflexivity. Qed.

Lemma sub_go_nil (r : regex) (repl : list piece) (prev : option char) :
  sub_go r repl prev 0 []
  = match exec r false prev 0 [] [] with
    | Some h => expand repl h
    | None => []
    end.
Proof. reflexivity. Qed.

Lemma sub_go_cons (r : regex) (repl : list piece) (prev : option char)
    (c : char) (s : str) :
  sub_go r repl prev 0 (c :: s)
  = match exec r false prev 0 [] (c :: s) with
    | Some h =>
        expand repl h ++
        match consumed h with
        | S k => sub_go r repl (Some c) k s
        | O =>
            match exec r true prev 0 [] (c :: s) with
            | Some h' =>
                expand repl h' ++ sub_go r repl (Some c) (Nat.pred (consumed h')) s
            | None => c :: sub_go r repl (Some c) 0 s
            end
        end
    | None => c :: sub_go r repl (Some c) 0 s
    end.
Proof. reflexivity. Qed.

Lemma sub_go_skip (r : regex) (repl : list piece) (prev : option char)
    (k : nat) (c : char) (s : str) :
  sub_go r repl prev (S k) (c :: s) = sub_go r repl (Some c) k s.
Proof. reflexivity. Qed.

(** A greedy run of whitespace that ends the pattern takes the whole run. *)
Lemma rep_run (k : option char -> nat -> str -> option hit) (g : str) :
  (forall prev n s, k prev n s = Some (Hit n g)) ->
  forall (s : str) (lo : nat) (prev : option char) (n : nat),
    rep k isspace lo prev n s
    = if (lo <=? ws_prefix s)%nat then Some (Hit (n + ws_prefix s) g) else None.
Proof.
  intros Hk. induction s as [|c s IH]; intros lo prev n; cbn [rep ws_prefix].
  - destruct lo; cbn [Nat.leb]; [rewrite Hk, Nat.add_0_r|]; reflexivity.
  - destruct (isspace c) eqn:Hc.
    + rewrite IH. destruct lo as [|lo]; cbn [Nat.pred Nat.leb].
      * rewrite Nat.add_succ_r. reflexivity.
      * destruct (lo <=? ws_prefix s)%nat; [rewrite Nat.add_succ_r|]; reflexivity.
    + destruct lo; cbn [Nat.leb]; [rewrite Hk, Nat.add_0_r|]; reflexivity.
Qed.

Lemma exec_collapse (prev : option char) (s : str) :
  exec [Rep 1 isspace] false prev 0 [] s
  = if (1 <=? ws_prefix s)%nat then Some (Hit (ws_prefix s) []) else None.
Proof.
  cbn [exec]. rewrite (rep_run _ []); [reflexivity|]. intros; reflexivity.
Qed.

Lemma collapse_parse_both (s : str) :
  (forall prev, sub_go [Rep 1 isspace] [Lit space] prev 0 s
                = render (fst (parse false s)) (snd (parse false s)))
  /\ (forall prev, space :: sub_go [Rep 1 isspace] [Lit space] prev (ws_prefix s) s
                   = render (fst (parse true s)) (snd (parse true s))).
Proof.
  induction s as [|c s [IHa IHb]].
  - split; intros prev; reflexivity.
  - assert (Ha : forall prev,
               sub_go [Rep 1 isspace] [Lit space] prev 0 (c :: s)
               = if isspace c then render (fst (parse true s)) (snd (parse true s))
                 else c :: render (fst (parse false s)) (snd (parse false s))).
    { intros prev. rewrite sub_go_cons, exec_collapse. cbn [ws_prefix].
      destruct (isspace c) eqn:Hc.
      - cbn [Nat.leb consumed expand List.map List.concat app].
        rewrite <- (IHb (Some c)). reflexivity.
      - cbn [Nat.leb]. rewrite IHa. reflexivity. }
    split; intros prev.
    + rewrite Ha. cbn [parse]. destruct (isspace c); [reflexivity|].
      destruct (parse false s) as [T tr]. reflexivity.
    + cbn [ws_prefix parse]. destruct (isspace c) eqn:Hc.
      * rewrite sub_go_skip. apply IHb.
      * rewrite Ha. destruct (parse false s) as [T tr]. reflexivity.
Qed.

(** *** Patterns of the form (?<=[l])\s{lo,}(?=[r]) on a rendered text *)

Section Between.
Variables (l r : char -> bool).
Hypothesis r_space : r space = false.

Lemma exec_between_solid (lo : nat) (adv : bool) (prev : option char)
    (c : char) (rest : str) :
  isspace c = false ->
  exec (between lo l r) adv prev 0 [] (c :: rest)
  = if Nat.eqb lo 0 && behind l prev && r c && negb adv
    then Some (Hit 0 []) else None.
Proof.
  intros Hc. unfold between. cbn [exec].
  destruct prev as [p|]; cbn [behind]; [|rewrite andb_false_r; reflexivity].
  destruct (l p); [|rewrite andb_false_r; reflexivity].
  cbn [rep]. rewrite Hc.
  destruct lo; cbn [Nat.eqb andb]; [|reflexivity].
  destruct (r c); [|reflexivity]. destruct adv; reflexivity.
Qed.

Lemma exec_between_gap (lo : nat) (adv : bool) (prev : option char)
    (c : char) (rest : str) :
  (lo <= 1)%nat ->
  isspace c = false ->
  exec (between lo l r) adv prev 0 [] (space :: c :: rest)
  = if behind l prev && r c then Some (Hit 1 []) else None.
Proof.
  intros Hlo Hc. unfold between. cbn [exec].
  destruct prev as [p|]; cbn [behind]; [|reflexivity].
  destruct (l p); [|reflexivity].
  cbn [rep andb]. rewrite isspace_space, Hc.
  assert (Hp : Nat.pred lo = 0%nat) by lia. rewrite Hp.
  destruct (r c).
  - rewrite andb_false_r. reflexivity.
  - rewrite r_space. destruct lo; reflexivity.
Qed.

Lemma exec_between_trail (lo : nat) (adv : bool) (prev : option char) :
  exec (between lo l r) adv prev 0 [] [space] = None.
Proof.
  unfold between. cbn [exec].
  destruct prev as [p|]; [|reflexivity]. destruct (l p); [|reflexivity].
  cbn [rep]. rewrite isspace_space, r_space.
  destruct lo as [|[|lo]]; reflexivity.
Qed.

Lemma exec_between_nil (lo : nat) (adv : bool) (prev : option char) :
  exec (between lo l r) adv prev 0 [] [] = None.
Proof.
  unfold between. cbn [exec].
  destruct prev as [p|]; [|reflexivity]. destruct (l p); [|reflexivity].
  cbn [rep]. destruct lo; reflexivity.
Qed.

(** (?<=[l])\s+(?=[r]) replaced by nothing. *)
Lemma drop_render (T : list token) (tr : bool) :
  solid T ->
  forall prev,
    sub_go (between 1 l r) [] prev 0 (render T tr)
    = render (close_gaps l r prev T) tr.
Proof.
  induction 1 as [|[g c] T Hc _ IH]; intros prev; cbn [render close_gaps].
  - destruct tr; [|rewrite sub_go_nil, exec_between_nil; reflexivity].
    rewrite sub_go_cons, exec_between_trail, sub_go_nil, exec_between_nil.
    reflexivity.
  - cbn [snd] in Hc.
    assert (Hat : forall prev',
               sub_go (between 1 l r) [] prev' 0 (c :: render T tr)
               = c :: render (close_gaps l r (Some c) T) tr).
    { intros prev'. rewrite sub_go_cons, exec_between_solid by exact Hc.
      cbn [Nat.eqb andb]. rewrite IH. reflexivity. }
    destruct g; cbn [app andb].
    + rewrite sub_go_cons, exec_between_gap by (lia || exact Hc).
      destruct (behind l prev && r c);
        cbn [negb expand List.map List.concat consumed app]; rewrite Hat; reflexivity.
    + apply Hat.
Qed.

Hypothesis l_space : l space = false.

(** (?<=[l])\s*(?=[r]) replaced by one space. *)
Lemma one_render (T : list token) (tr : bool) :
  solid T ->
  forall prev,
    sub_go (between 0 l r) [Lit space] prev 0 (render T tr)
    = render (open_gaps l r prev T) tr.
Proof.
  induction 1 as [|[g c] T Hc _ IH]; intros prev; cbn [render open_gaps].
  - destruct tr; [|rewrite sub_go_nil, exec_between_nil; reflexivity].
    rewrite sub_go_cons, exec_between_trail, sub_go_nil, exec_between_nil.
    reflexivity.
  - cbn [snd] in Hc. destruct g; cbn [app orb].
    + assert (Hat : sub_go (between 0 l r) [Lit space] (Some space) 0 (c :: render T tr)
                    = c :: render (open_gaps l r (Some c) T) tr).
      { rewrite sub_go_cons, exec_between_solid by exact Hc.
        cbn [behind]. rewrite l_space. cbn [Nat.eqb andb]. rewrite IH. reflexivity. }
      rewrite sub_go_cons, exec_between_gap by (lia || exact Hc).
      destruct (behind l prev && r c);
        cbn [expand List.map List.concat consumed app]; rewrite Hat; reflexivity.
    + rewrite sub_go_cons, !exec_between_solid by exact Hc.
      cbn [Nat.eqb negb andb]. rewrite andb_true_r, andb_false_r.
      destruct (behind l prev && r c);
        cbn [expand List.map List.concat consumed app]; rewrite IH; reflexivity.
Qed.

End Between.

(** *** \s*([，。！？、；：])\s* on a rendered text *)

Local Arguments is_cjk_punct : simpl never.

Lemma punct_space : is_cjk_punct space = false.
Proof. reflexivity. Qed.

Lemma rep_run_from (m : nat) (k : option char -> nat -> str -> option hit) (g : str) :
  (forall prev n s, (m <= n)%nat -> k prev n s = Some (Hit n g)) ->
  forall (s : str) (lo : nat) (prev : option char) (n : nat),
    (m <= n)%nat ->
    rep k isspace lo prev n s
    = if (lo <=? ws_prefix s)%nat then Some (Hit (n + ws_prefix s) g) else None.
Proof.
  intros Hk. induction s as [|c s IH]; intros lo prev n Hn; cbn [rep ws_prefix].
  - destruct lo; cbn [Nat.leb]; [rewrite Hk, Nat.add_0_r by exact Hn|]; reflexivity.
  - destruct (isspace c) eqn:Hc.
    + rewrite IH by lia. destruct lo as [|lo]; cbn [Nat.pred Nat.leb].
      * rewrite Nat.add_succ_r. reflexivity.
      * destruct (lo <=? ws_prefix s)%nat; [rewrite Nat.add_succ_r|]; reflexivity.
    + destruct lo; cbn [Nat.leb]; [rewrite Hk, Nat.add_0_r by exact Hn|]; reflexivity.
Qed.

(** The part of the pattern after the optional leading whitespace. *)
Lemma exec_punct_tail (adv : bool) (prev : option char) (n : nat) (c : char)
    (rest : str) :
  exec [Grp is_cjk_punct; Rep 0 isspace] adv prev n [] (c :: rest)
  = if is_cjk_punct c then Some (Hit (S n + ws_prefix rest) [c]) else None.
Proof.
  cbn [exec]. destruct (is_cjk_punct c); [|reflexivity].
  rewrite (rep_run_from 1 _ [c]); [reflexivity| |lia].
  intros prev' n' s' Hn'. destruct n'; [lia|]. rewrite andb_false_r. reflexivity.
Qed.

Lemma exec_tighten_solid (adv : bool) (prev : option char) (c : char) (rest : str) :
  isspace c = false ->
  exec tighten adv prev 0 [] (c :: rest)
  = if is_cjk_punct c then Some (Hit (1 + ws_prefix rest) [c]) else None.
Proof.
  intros Hc. unfold tighten.
  change (exec (Rep 0 isspace :: [Grp is_cjk_punct; Rep 0 isspace]) adv prev 0 [] (c :: rest))
    with (rep (fun prev' n' s' =>
                 exec [Grp is_cjk_punct; Rep 0 isspace] adv prev' n' [] s')
              isspace 0 prev 0 (c :: rest)).
  cbn [rep]. rewrite Hc. apply exec_punct_tail.
Qed.

Lemma exec_tighten_gap (adv : bool) (prev : option char) (c : char) (rest : str) :
  isspace c = false ->
  exec tighten adv prev 0 [] (space :: c :: rest)
  = if is_cjk_punct c then Some (Hit (2 + ws_prefix rest) [c]) else None.
Proof.
  intros Hc. unfold tighten.
  change (exec (Rep 0 isspace :: [Grp is_cjk_punct; Rep 0 isspace]) adv prev 0 []
            (space :: c :: rest))
    with (rep (fun prev' n' s' =>
                 exec [Grp is_cjk_punct; Rep 0 isspace] adv prev' n' [] s')
              isspace 0 prev 0 (space :: c :: rest)).
  cbn [rep Nat.pred]. rewrite isspace_space, Hc, !exec_punct_tail, punct_space.
  destruct (is_cjk_punct c); reflexivity.
Qed.

Lemma exec_tighten_trail (adv : bool) (prev : option char) :
  exec tighten adv prev 0 [] [space] = None.
Proof.
  unfold tighten.
  change (exec (Rep 0 isspace :: [Grp is_cjk_punct; Rep 0 isspace]) adv prev 0 [] [space])
    with (rep (fun prev' n' s' =>
                 exec [Grp is_cjk_punct; Rep 0 isspace] adv prev' n' [] s')
              isspace 0 prev 0 [space]).
  cbn [rep Nat.pred]. rewrite isspace_space, exec_punct_tail, punct_space.
  reflexivity.
Qed.

Lemma exec_tighten_nil (adv : bool) (prev : option char) :
  exec tighten adv prev 0 [] [] = None.
Proof. reflexivity. Qed.

Lemma ws_prefix_render (T : list token) (tr : bool) :
  solid T -> ws_prefix (render T tr) = if lead T tr then 1%nat else 0%nat.
Proof.
  intros HT. destruct HT as [|[g c] T Hc HT]; cbn [render lead].
  - destruct tr; reflexivity.
  - cbn [snd] in Hc. destruct g; cbn [app ws_prefix]; rewrite ?isspace_space, Hc;
      reflexivity.
Qed.

Lemma render_unlead (T : list token) (tr : bool) :
  render T tr
  = (if lead T tr then [space] else []) ++ render (fst (unlead T tr)) (snd (unlead T tr)).
Proof.
  destruct T as [|[g c] T]; cbn [render lead unlead fst snd].
  - destruct tr; reflexivity.
  - destruct g; reflexivity.
Qed.

Lemma solid_unlead (T : list token) (tr : bool) :
  solid T -> solid (fst (unlead T tr)).
Proof.
  intros HT. destruct HT as [|[g c] T Hc HT]; cbn [unlead fst]; constructor; auto.
Qed.

Lemma tighten_after (T : list token) (tr : bool) :
  tighten_gaps true T = tighten_gaps false (fst (unlead T tr))
  /\ (tr && negb (last_punct true T)
      = snd (unlead T tr) && negb (last_punct false (fst (unlead T tr)))).
Proof.
  destruct T as [|[g c] T]; cbn [tighten_gaps unlead fst snd last_punct].
  - rewrite andb_false_r. split; reflexivity.
  - rewrite andb_false_r. split; reflexivity.
Qed.

Lemma tighten_render_bounded (n : nat) :
  forall (T : list token),
    (List.length T <= n)%nat -> solid T ->
    forall tr prev,
      sub_go tighten [Group1] prev 0 (render T tr)
      = render (tighten_gaps false T) (tr && negb (last_punct false T)).
Proof.
  assert (Hnil : forall tr prev,
             sub_go tighten [Group1] prev 0 (render [] tr) = render [] (tr && true)).
  { intros tr prev. destruct tr; cbn [render andb].
    - rewrite sub_go_cons, exec_tighten_trail, sub_go_nil, exec_tighten_nil.
      reflexivity.
    - rewrite sub_go_nil, exec_tighten_nil. reflexivity. }
  induction n as [|n IH]; intros T Hn HT tr prev.
  - destruct T; [apply Hnil|simpl in Hn; lia].
  - destruct HT as [|[g c] T Hc HT]; [apply Hnil|].
    cbn [snd] in Hc. cbn [List.length] in Hn.
    cbn [render tighten_gaps last_punct].
    destruct (is_cjk_punct c) eqn:Hp.
    + assert (Hrest : forall prev',
                 sub_go tighten [Group1] prev' (ws_prefix (render T tr)) (render T tr)
                 = render (tighten_gaps true T) (tr && negb (last_punct true T))).
      { intros prev'. destruct (tighten_after T tr) as [-> ->].
        rewrite ws_prefix_render by exact HT.
        rewrite (render_unlead T tr) at 1.
        destruct (lead T tr); cbn [app]; [rewrite sub_go_skip|];
          (apply IH; [|apply solid_unlead; exact HT]);
          destruct T as [|[g' c'] T]; cbn [unlead fst List.length] in *; lia. }
      rewrite andb_false_r.
      destruct g; cbn [app].
      * rewrite sub_go_cons, exec_tighten_gap, Hp by exact Hc.
        cbn [expand List.map List.concat consumed group1 app Nat.add].
        rewrite sub_go_skip, Hrest. reflexivity.
      * rewrite sub_go_cons, exec_tighten_solid, Hp by exact Hc.
        cbn [expand List.map List.concat consumed group1 app Nat.add].
        rewrite Hrest. reflexivity.
    + assert (Hat : forall prev',
                 sub_go tighten [Group1] prev' 0 (c :: render T tr)
                 = c :: render (tighten_gaps false T)
                          (tr && negb (last_punct false T))).
      { intros prev'. rewrite sub_go_cons, exec_tighten_solid, Hp by exact Hc.
        rewrite IH by (lia || exact HT). reflexivity. }
      destruct g; cbn [app andb negb].
      * rewrite sub_go_cons, exec_tighten_gap, Hp by exact Hc.
        rewrite Hat. reflexivity.
      * apply Hat.
Qed.

Lemma tighten_render (T : list token) (tr : bool) :
  solid T ->
  forall prev,
    sub_go tighten [Group1] prev 0 (render T tr)
    = render (tighten_gaps false T) (tr && negb (last_punct false T)).
Proof.
  intros HT prev. apply (tighten_render_bounded (List.length T)); auto.
Qed.

(** *** [strip] and [parse] on a rendered text *)

Lemma rstrip_cons (a : char) (s : str) :
  rstrip (a :: s)
  = match rstrip s with
    | [] => if isspace a then [] else [a]
    | r => a :: r
    end.
Proof. reflexivity. Qed.

Lemma rstrip_render (T : list token) (tr : bool) :
  solid T -> rstrip (render T tr) = render T false.
Proof.
  induction 1 as [|[g c] T Hc _ IH]; cbn [render].
  - destruct tr; reflexivity.
  - cbn [snd] in Hc.
    assert (Hat : rstrip (c :: render T tr) = c :: render T false).
    { rewrite rstrip_cons, IH, Hc. destruct (render T false); reflexivity. }
    destruct g; cbn [app]; [|exact Hat].
    rewrite rstrip_cons, Hat. reflexivity.
Qed.

Lemma strip_render (T : list token) (tr : bool) :
  solid T -> strip (render T tr) = render (fst (unlead T tr)) false.
Proof.
  intros HT. unfold strip.
  assert (Hl : lstrip (render T tr)
               = render (fst (unlead T tr)) (snd (unlead T tr))).
  { destruct HT as [|[g c] T Hc HT]; cbn [render unlead fst snd].
    - destruct tr; reflexivity.
    - cbn [snd] in Hc. destruct g; cbn [app lstrip];
        rewrite ?isspace_space; cbn [lstrip]; rewrite Hc; reflexivity. }
  rewrite Hl. apply rstrip_render, solid_unlead, HT.
Qed.

Lemma parse_render (T : list token) (tr : bool) :
  solid T -> parse false (render T tr) = (T, tr).
Proof.
  induction 1 as [|[g c] T Hc _ IH]; cbn [render].
  - destruct tr; reflexivity.
  - cbn [snd] in Hc.
    destruct g; cbn [app parse]; rewrite ?isspace_space; cbn [parse];
      rewrite Hc, IH; reflexivity.
Qed.

Lemma solid_parse (s : str) (g : bool) : solid (fst (parse g s)).
Proof.
  revert g. induction s as [|c s IH]; intros g; cbn [parse]; [constructor|].
  destruct (isspace c) eqn:Hc; [apply IH|].
  specialize (IH false). destruct (parse false s) as [T tr].
  constructor; [exact Hc|exact IH].
Qed.

Lemma solid_close (l r : char -> bool) (T : list token) :
  solid T -> forall p, solid (close_gaps l r p T).
Proof.
  induction 1 as [|[g c] T Hc _ IH]; intros p; cbn [close_gaps];
    constructor; [exact Hc|apply IH].
Qed.

Lemma solid_open (l r : char -> bool) (T : list token) :
  solid T -> forall p, solid (open_gaps l r p T).
Proof.
  induction 1 as [|[g c] T Hc _ IH]; intros p; cbn [open_gaps];
    constructor; [exact Hc|apply IH].
Qed.

Lemma solid_tighten (T : list token) :
  solid T -> forall a, solid (tighten_gaps a T).
Proof.
  induction 1 as [|[g c] T Hc _ IH]; intros a; cbn [tighten_gaps];
    constructor; [exact Hc|apply IH].
Qed.

(** *** The pipeline on gaps *)

Lemma gaps_fused (cjk : bool) (T : list token) :
  forall p, gaps cjk p T = clean_gaps cjk p T.
Proof.
  induction T as [|[g c] T IH]; intros p; [destruct cjk; reflexivity|].
  cbn [clean_gaps]. rewrite <- IH. unfold gaps, gap_after_cleaning.
  destruct cjk; reflexivity.
Qed.

Lemma solid_gaps (cjk : bool) (T : list token) (p : option char) :
  solid T -> solid (gaps cjk p T).
Proof.
  intros HT. unfold gaps. cbv zeta.
  destruct cjk; apply solid_tighten;
    repeat first [apply solid_close | apply solid_open]; exact HT.
Qed.

Lemma gap_after_cleaning_idem (cjk g : bool) (p : option char) (c : char) :
  gap_after_cleaning cjk (gap_after_cleaning cjk g p c) p c
  = gap_after_cleaning cjk g p c.
Proof.
  unfold gap_after_cleaning.
  destruct cjk, g, (behind is_cjk p), (is_cjk c), (behind is_digit p), (is_digit c),
    (behind is_letter p), (is_letter c), (behind is_cjk_punct p), (is_cjk_punct c);
    reflexivity.
Qed.

Lemma clean_gaps_idem (cjk : bool) (T : list token) :
  forall p, clean_gaps cjk p (clean_gaps cjk p T) = clean_gaps cjk p T.
Proof.
  induction T as [|[g c] T IH]; intros p; [reflexivity|].
  cbn [clean_gaps]. rewrite gap_after_cleaning_idem, IH. reflexivity.
Qed.

Lemma letter_space : is_letter space = false.
Proof. reflexivity. Qed.
Lemma cjk_space : is_cjk space = false.
Proof. reflexivity. Qed.
Lemma digit_space : is_digit space = false.
Proof. reflexivity. Qed.

(** The substitutions, read on the spaces between the characters. *)
Lemma clean_render (cjk : bool) (text : str) :
  clean cjk text
  = render (fst (unlead (clean_gaps cjk None (fst (parse false text))) false)) false.
Proof.
  unfold clean, collapse_spaces, drop_between, one_between, tighten_punct, sub.
  rewrite (proj1 (collapse_parse_both text) None).
  pose proof (solid_parse text false) as HT.
  destruct (parse false text) as [T tr]. cbn [fst snd] in *.
  fold (between 1 is_cjk is_cjk) (between 1 is_digit is_cjk)
       (between 1 is_cjk is_digit) (between 1 is_cjk is_letter)
       (between 1 is_letter is_cjk) (between 0 is_cjk is_letter)
       (between 0 is_letter is_cjk) tighten.
  assert (Hside : forall U, solid U ->
            forall a b, render (fst (unlead (tighten_gaps false U) a)) false
                        = render (fst (unlead (tighten_gaps false U) b)) false).
  { intros U _ a b. destruct (tighten_gaps false U) as [|[] ?]; reflexivity. }
  rewrite <- gaps_fused. unfold gaps. cbn [behind].
  repeat first
    [ rewrite drop_render
        by first [ exact cjk_space | exact letter_space | exact digit_space
                 | repeat first [apply solid_close | apply solid_open]; exact HT ]
    | rewrite one_render
        by first [ exact cjk_space | exact letter_space | exact digit_space
                 | repeat first [apply solid_close | apply solid_open]; exact HT ] ].
  destruct cjk.
  - repeat rewrite drop_render
      by first [ exact cjk_space | exact letter_space | exact digit_space
               | repeat first [apply solid_close | apply solid_open]; exact HT ].
    rewrite tighten_render
      by (repeat first [apply solid_close | apply solid_open]; exact HT).
    rewrite strip_render
      by (apply solid_tighten;
          repeat first [apply solid_close | apply solid_open]; exact HT).
    apply Hside. repeat first [apply solid_close | apply solid_open]; exact HT.
  - repeat rewrite one_render
      by first [ exact cjk_space | exact letter_space | exact digit_space
               | repeat first [apply solid_close | apply solid_open]; exact HT ].
    rewrite tighten_render
      by (repeat first [apply solid_close | apply solid_open]; exact HT).
    rewrite strip_render
      by (apply solid_tighten;
          repeat first [apply solid_close | apply solid_open]; exact HT).
    apply Hside. repeat first [apply solid_close | apply solid_open]; exact HT.
Qed.

(** The substitutions change nothing in a text they have produced. *)
Lemma clean_idempotent (cjk : bool) (text : str) :
  clean cjk (clean cjk text) = clean cjk text.
Proof.
  rewrite (clean_render cjk (clean cjk text)), (clean_render cjk text).
  pose proof (solid_parse text false) as HT.
  destruct (parse false text) as [T tr]. cbn [fst] in *.
  rewrite parse_render.
  - cbn [fst]. destruct T as [|[g c] T]; [reflexivity|].
    cbn [clean_gaps unlead fst]. rewrite clean_gaps_idem. reflexivity.
  - apply solid_unlead. rewrite <- gaps_fused. apply solid_gaps, HT.
Qed.

End Shapes.

(** [smart_clean_spaces] in terms of its guards and [clean]. *)
Lemma smart_clean_spaces_cases (text : str) :
  smart_clean_spaces text
  = if blank text then text
    else if english_dominant text then text
    else clean (cjk_dominant text) text.
Proof.
  unfold smart_clean_spaces, english_dominant, cjk_dominant, clean.
  destruct (blank text); [reflexivity|].
  destruct (detect_language_ratio text) as [ch_ratio en_ratio].
  destruct (Qge_bool en_ratio (6 # 10) && Qlt_bool ch_ratio (2 # 10)); [reflexivity|].
  destruct (Qge_bool ch_ratio (6 # 10)); reflexivity.
Qed.

(** *** CJK-dominant texts stay CJK-dominant *)

Lemma cjk_dominant_iff (s : str) :
  cjk_dominant s = true
  <-> 0 < Z.of_nat (List.length s)
      /\ 6 * Z.of_nat (List.length s) <= 10 * count_class is_cjk s.
Proof.
  unfold cjk_dominant, detect_language_ratio, Qge_bool, Qle_bool.
  destruct (Z.of_nat (List.length s) =? 0) eqn:E.
  - apply Z.eqb_eq in E. cbn. split; [discriminate|lia].
  - apply Z.eqb_neq in E. cbn [fst Qnum Qden].
    rewrite Z.leb_le, Z2Pos.id by lia. lia.
Qed.

Lemma space_not_cjk (c : char) : isspace c = true -> is_cjk c = false.
Proof.
  unfold isspace, is_cjk, in_range. intros H.
  destruct (Z.leb_spec 0x4e00 c); [|reflexivity].
  destruct (Z.leb_spec c 0x9fff); [|reflexivity]. exfalso.
  repeat match type of H with
         | context [?a <=? ?b] => destruct (Z.leb_spec a b); try lia
         | context [?a =? ?b] => destruct (Z.eqb_spec a b); try lia
         end; discriminate.
Qed.

Lemma count_class_cons (p : char -> bool) (c : char) (s : str) :
  count_class p (c :: s) = (if p c then 1 else 0) + count_class p s.
Proof.
  unfold count_class. cbn [List.filter]. destruct (p c); cbn [List.length]; lia.
Qed.

Lemma cjk_render (T : list token) (tr : bool) :
  count_class is_cjk (render T tr) = cjk_tokens T.
Proof.
  unfold cjk_tokens. induction T as [|[g c] T IH]; cbn [render List.map snd].
  - destruct tr; reflexivity.
  - destruct g; cbn [app]; rewrite ?count_class_cons, IH; reflexivity.
Qed.

Lemma cjk_parse (s : str) (g : bool) :
  cjk_tokens (fst (parse g s)) = count_class is_cjk s.
Proof.
  unfold cjk_tokens. revert g. induction s as [|c s IH]; intros g; cbn [parse].
  - reflexivity.
  - rewrite count_class_cons. destruct (isspace c) eqn:Hc.
    + rewrite (space_not_cjk c Hc), IH. reflexivity.
    + specialize (IH false). destruct (parse false s) as [T tr].
      cbn [fst List.map snd] in *. rewrite count_class_cons, IH. reflexivity.
Qed.

Lemma length_render (T : list token) (tr : bool) :
  List.length (render T tr)
  = (List.length T + spaces T + Nat.b2n tr)%nat.
Proof.
  unfold spaces. induction T as [|[g c] T IH]; cbn [render].
  - destruct tr; reflexivity.
  - destruct g; cbn [app List.length List.filter fst]; rewrite IH; lia.
Qed.

Lemma length_parse (s : str) (g : bool) :
  (List.length (fst (parse g s)) + spaces (fst (parse g s))
   + Nat.b2n (snd (parse g s))
   <= List.length s + Nat.b2n g)%nat.
Proof.
  unfold spaces. revert g. induction s as [|c s IH]; intros g; cbn [parse].
  - cbn. lia.
  - destruct (isspace c).
    + specialize (IH true). cbn [List.length Nat.b2n] in *. lia.
    + specialize (IH false). destruct (parse false s) as [T tr].
      cbn [fst snd List.length List.filter Nat.b2n] in *.
      destruct g; cbn [List.length Nat.b2n]; lia.
Qed.

Lemma clean_gaps_chars (cjk : bool) (T : list token) :
  forall p, List.map snd (clean_gaps cjk p T) = List.map snd T.
Proof.
  induction T as [|[g c] T IH]; intros p; cbn [clean_gaps List.map snd];
    [|rewrite IH]; reflexivity.
Qed.

Lemma clean_gaps_length (cjk : bool) (T : list token) :
  forall p, List.length (clean_gaps cjk p T) = List.length T.
Proof.
  induction T as [|[g c] T IH]; intros p; cbn [clean_gaps List.length];
    [|rewrite IH]; reflexivity.
Qed.

Lemma closing_only_closes (g : bool) (p : option char) (c : char) :
  gap_after_cleaning true g p c = true -> g = true.
Proof. unfold gap_after_cleaning. destruct g; [reflexivity|]. cbn. discriminate. Qed.

Lemma clean_gaps_spaces (T : list token) :
  forall p, (spaces (clean_gaps true p T) <= spaces T)%nat.
Proof.
  unfold spaces. induction T as [|[g c] T IH]; intros p;
    cbn [clean_gaps List.filter fst]; [lia|].
  specialize (IH (Some c)).
  destruct (gap_after_cleaning true g p c) eqn:E.
  - rewrite (closing_only_closes _ _ _ E). cbn [List.length]. lia.
  - destruct g; cbn [List.length]; lia.
Qed.

Lemma unlead_measures (T : list token) (tr : bool) :
  List.map snd (fst (unlead T tr)) = List.map snd T
  /\ List.length (fst (unlead T tr)) = List.length T
  /\ (spaces (fst (unlead T tr)) <= spaces T)%nat.
Proof.
  unfold spaces. destruct T as [|[g c] T]; cbn [unlead fst List.map snd List.filter].
  - auto.
  - destruct g; cbn [List.length]; auto with arith.
Qed.

(** With the CJK-dominant rule the substitutions only delete whitespace, so
    the share of CJK characters does not go down. *)
Lemma clean_keeps_cjk_dominance (text : str) :
  cjk_dominant text = true -> cjk_dominant (clean true text) = true.
Proof.
  rewrite !cjk_dominant_iff, clean_render.
  pose proof (cjk_parse text false) as Hc.
  pose proof (length_parse text false) as Hl.
  destruct (parse false text) as [T tr]. cbn [fst snd Nat.b2n] in *.
  destruct (unlead_measures (clean_gaps true None T) false) as (Hu1 & Hu2 & Hu3).
  pose proof (clean_gaps_spaces T None) as Hs.
  rewrite cjk_render, length_render. unfold cjk_tokens in *.
  rewrite Hu1, Hu2, clean_gaps_chars, clean_gaps_length, Hc.
  cbn [Nat.b2n].
  assert (Hle : count_class is_cjk (List.map snd T) <= Z.of_nat (List.length T)).
  { unfold count_class. apply Nat2Z.inj_le.
    etransitivity; [apply List.filter_length_le|].
    rewrite List.length_map. reflexivity. }
  rewrite Hc in Hle. lia.
Qed.

(** C2 (as stated, refuted).  "你好世界  a" is not CJK-dominant (4 of 7
    characters), so one space is kept before the letter; the result
    "你好世界 a" is CJK-dominant (4 of 6), and a second pass deletes that
    space. *)
Lemma normalization_not_idempotent :
  smart_clean_spaces (py "你好世界  a") = py "你好世界 a"
  /\ smart_clean_spaces (smart_clean_spaces (py "你好世界  a")) = py "你好世界a"
  /\ smart_clean_spaces (smart_clean_spaces (py "你好世界  a"))
     <> smart_clean_spaces (py "你好世界  a").
Proof.
  split; [vm_compute; reflexivity|]. split; [vm_compute; reflexivity|].
  vm_compute. discriminate.
Qed.

(** C2 (amended).  A second pass changes nothing, except possibly for a text
    that is not CJK-dominant and whose normalisation is. *)
Theorem normalization_idempotent_within_class (x : str) :
  (cjk_dominant (smart_clean_spaces x) = true -> cjk_dominant x = true) ->
  smart_clean_spaces (smart_clean_spaces x) = smart_clean_spaces x.
Proof.
  intros Hclass. pose proof (smart_clean_spaces_cases x) as Hx.
  destruct (blank x) eqn:Hb; [rewrite Hx; exact Hx|].
  destruct (english_dominant x) eqn:He; [rewrite Hx; exact Hx|].
  rewrite Hx in Hclass |- *.
  assert (Hsame : cjk_dominant (clean (cjk_dominant x) x) = cjk_dominant x).
  { destruct (cjk_dominant x) eqn:Hc.
    - apply clean_keeps_cjk_dominance, Hc.
    - destruct (cjk_dominant (clean false x)); [|reflexivity].
      symmetry. apply Hclass. reflexivity. }
  rewrite smart_clean_spaces_cases, Hsame.
  destruct (blank (clean (cjk_dominant x) x)); [reflexivity|].
  destruct (english_dominant (clean (cjk_dominant x) x)); [reflexivity|].
  apply clean_idempotent.
Qed.

Lemma normalization_idempotent_within_class_witness :
  (cjk_dominant (smart_clean_spaces (py "你好 ，  世界 hello")) = true ->
   cjk_dominant (py "你好 ，  世界 hello") = true)
  /\ smart_clean_spaces (smart_clean_spaces (py "你好 ，  世界 hello"))
     = smart_clean_spaces (py "你好 ，  世界 hello").
Proof.
  assert (H : cjk_dominant (smart_clean_spaces (py "你好 ，  世界 hello")) = true ->
              cjk_dominant (py "你好 ，  世界 hello") = true)
    by (vm_compute; discriminate).
  exact (conj H (normalization_idempotent_within_class _ H)).
Defined.

(** *** Texts without CJK characters *)

Lemma parse_chars (P : char -> Prop) (s : str) :
  Forall P s -> forall g, Forall (fun t : token => P (snd t)) (fst (parse g s)).
Proof.
  induction 1 as [|c s Hc _ IH]; intros g; cbn [parse]; [constructor|].
  destruct (isspace c); [apply IH|].
  specialize (IH false). destruct (parse false s) as [T tr].
  constructor; [exact Hc|exact IH].
Qed.

Lemma close_gaps_no_right (l r : char -> bool) (T : list token) :
  Forall (fun t : token => r (snd t) = false) T ->
  forall p, close_gaps l r p T = T.
Proof.
  induction 1 as [|[g c] T Hc _ IH]; intros p; cbn [close_gaps]; [reflexivity|].
  cbn [snd] in Hc. rewrite Hc, IH, andb_false_r, andb_true_r. reflexivity.
Qed.

Lemma close_gaps_no_left (l r : char -> bool) (T : list token) :
  Forall (fun t : token => l (snd t) = false) T ->
  forall p, behind l p = false -> close_gaps l r p T = T.
Proof.
  induction 1 as [|[g c] T Hc _ IH]; intros p Hp; cbn [close_gaps]; [reflexivity|].
  cbn [snd] in Hc. rewrite Hp, IH by exact Hc. rewrite andb_true_r. reflexivity.
Qed.

Lemma open_gaps_no_right (l r : char -> bool) (T : list token) :
  Forall (fun t : token => r (snd t) = false) T ->
  forall p, open_gaps l r p T = T.
Proof.
  induction 1 as [|[g c] T Hc _ IH]; intros p; cbn [open_gaps]; [reflexivity|].
  cbn [snd] in Hc. rewrite Hc, IH, andb_false_r, orb_false_r. reflexivity.
Qed.

Lemma open_gaps_no_left (l r : char -> bool) (T : list token) :
  Forall (fun t : token => l (snd t) = false) T ->
  forall p, behind l p = false -> open_gaps l r p T = T.
Proof.
  induction 1 as [|[g c] T Hc _ IH]; intros p Hp; cbn [open_gaps]; [reflexivity|].
  cbn [snd] in Hc. rewrite Hp, IH by exact Hc. rewrite orb_false_r. reflexivity.
Qed.

(** In a text without CJK characters the substitutions that look for one
    find nothing. *)
Lemma clean_without_cjk (cjk : bool) (text : str) :
  Forall (fun c => is_cjk c = false) text ->
  clean cjk text = strip (tighten_punct (collapse_spaces text)).
Proof.
  intros Hno. unfold clean, collapse_spaces, drop_between, one_between, sub.
  rewrite (proj1 (collapse_parse_both text) None).
  pose proof (solid_parse text false) as HT.
  pose proof (parse_chars _ _ Hno false) as HnoT.
  destruct (parse false text) as [T tr]. cbn [fst snd] in *.
  fold (between 1 is_cjk is_cjk) (between 1 is_digit is_cjk)
       (between 1 is_cjk is_digit) (between 1 is_cjk is_letter)
       (between 1 is_letter is_cjk) (between 0 is_cjk is_letter)
       (between 0 is_letter is_cjk).
  rewrite drop_render by (exact cjk_space || exact HT).
  rewrite close_gaps_no_right by exact HnoT.
  rewrite drop_render by (exact cjk_space || exact HT).
  rewrite close_gaps_no_right by exact HnoT.
  rewrite drop_render by (exact digit_space || exact HT).
  rewrite close_gaps_no_left by (exact HnoT || reflexivity).
  destruct cjk.
  - rewrite drop_render by (exact letter_space || exact HT).
    rewrite close_gaps_no_left by (exact HnoT || reflexivity).
    rewrite drop_render by (exact cjk_space || exact HT).
    rewrite close_gaps_no_right by exact HnoT. reflexivity.
  - rewrite one_render by (exact letter_space || exact cjk_space || exact HT).
    rewrite open_gaps_no_left by (exact HnoT || reflexivity).
    rewrite one_render by (exact letter_space || exact cjk_space || exact HT).
    rewrite open_gaps_no_right by exact HnoT. reflexivity.
Qed.

(** C1 (amended).  For a text without CJK characters the English-dominant
    rule is the test [en_ratio >= 0.6] alone.  Such a text is returned as it
    is when it is blank or passes that test; otherwise what is returned is
    the text with every run of whitespace replaced by one space, the
    whitespace around CJK punctuation deleted and the ends trimmed. *)
Theorem text_without_cjk_normalization (text : str) :
  Forall (fun c => is_cjk c = false) text ->
  english_dominant text = Qge_bool (snd (detect_language_ratio text)) (6 # 10)
  /\ smart_clean_spaces text
     = if blank text || english_dominant text then text
       else strip (tighten_punct (collapse_spaces text)).
Proof.
  intros Hno. split.
  - unfold english_dominant, detect_language_ratio.
    rewrite (count_class_absent is_cjk text Hno).
    destruct (Z.of_nat (List.length text) =? 0); cbn [snd]; apply andb_true_r.
  - rewrite smart_clean_spaces_cases.
    destruct (blank text); [reflexivity|].
    destruct (english_dominant text); [reflexivity|].
    apply clean_without_cjk, Hno.
Qed.

Lemma text_without_cjk_normalization_witness :
  Forall (fun c => is_cjk c = false) (py "It is 10:32 AM")
  /\ english_dominant (py "It is 10:32 AM") = false
  /\ smart_clean_spaces (py "It is 10:32 AM") = py "It is 10:32 AM".
Proof.
  assert (H : Forall (fun c => is_cjk c = false) (py "It is 10:32 AM"))
    by (repeat constructor).
  split; [exact H|]. split; [vm_compute; reflexivity|].
  rewrite (proj2 (text_without_cjk_normalization _ H)). vm_compute. reflexivity.
Defined.

End IdempotenceFacts.

(** ** The abuse-control gate *)

Section GateFacts.
Import Gate.

Lemma in_window_now (now : Q) : in_window now now = true.
Proof.
  unfold in_window, Qlt_bool.
  destruct (Qle_bool 300 (now - now)) eqn:E; [|reflexivity].
  apply Qle_bool_iff in E. lra.
Qed.

(** The attempt that is being recorded is always retained, so the list
    that is counted has one entry more than the recent ones. *)
Lemma record_attempt_accepts (self : PortScanProtector) (ip : string) (now : Q) :
  fst (record_attempt self ip now)
  = negb (scan_threshold self <? S (recent self ip now))%nat.
Proof.
  unfold record_attempt, recent.
  rewrite List.filter_app. simpl. rewrite in_window_now.
  rewrite List.length_app. simpl. rewrite Nat.add_1_r.
  destruct (_ <? _)%nat; reflexivity.
Qed.

Lemma record_attempt_ban (self : PortScanProtector) (ip : string) (now : Q) :
  fst (record_attempt self ip now) = false ->
  banned_ips (snd (record_attempt self ip now)) !! ip
  = Some (now + ban_duration self)%Q.
Proof.
  unfold record_attempt.
  destruct (_ <? _)%nat; simpl; [|discriminate].
  intros _. apply lookup_insert_eq.
Qed.

(** With the ban of [ip] lifted (or absent), [should_accept] is
    [record_attempt] on a protector that has the same attempts. *)
Lemma should_accept_not_banned (self : PortScanProtector) (a : address) (now : Q) :
  banned_now self (ip_of a) now = false ->
  exists self',
    should_accept self a now = record_attempt self' (ip_of a) now
    /\ connection_attempts self' = connection_attempts self
    /\ scan_threshold self' = scan_threshold self
    /\ ban_duration self' = ban_duration self.
Proof.
  unfold banned_now, should_accept.
  destruct (banned_ips self !! ip_of a) as [until|].
  - intros ->. eexists. split; [reflexivity|]. simpl. auto.
  - intros _. exists self. auto.
Qed.

(** C4.  For a protector with the constructor's settings (threshold 10, ban
    of 1800 s): an attempt of an address under an unexpired ban is refused;
    otherwise the attempt is admitted when fewer than 10 attempts of the
    address are recorded inside the window, and with exactly 10 it is
    refused and the ban is set to [now + 1800]. *)
Theorem gate_refuses_from_the_eleventh (self : PortScanProtector) (a : address)
    (now : Q) :
  scan_threshold self = 10%nat ->
  ban_duration self = 1800%Q ->
  (banned_now self (ip_of a) now = true ->
     should_accept self a now = (false, self))
  /\ (banned_now self (ip_of a) now = false ->
        (recent self (ip_of a) now < 10)%nat ->
        fst (should_accept self a now) = true)
  /\ (banned_now self (ip_of a) now = false ->
        recent self (ip_of a) now = 10%nat ->
        fst (should_accept self a now) = false
        /\ banned_ips (snd (should_accept self a now)) !! ip_of a
           = Some (now + 1800)%Q).
Proof.
  intros Hth Hdur. split; [|split].
  - unfold banned_now, should_accept.
    destruct (banned_ips self !! ip_of a) as [until|]; [|discriminate].
    intros ->. reflexivity.
  - intros Hb Hn.
    destruct (should_accept_not_banned self a now Hb)
      as (self' & -> & Hatt & Hth' & _).
    rewrite record_attempt_accepts, Hth', Hth.
    replace (recent self' (ip_of a) now) with (recent self (ip_of a) now)
      by (unfold recent, attempts_of; rewrite Hatt; reflexivity).
    apply negb_true_iff, Nat.ltb_ge. lia.
  - intros Hb Hn.
    destruct (should_accept_not_banned self a now Hb)
      as (self' & -> & Hatt & Hth' & Hdur').
    assert (Hf : fst (record_attempt self' (ip_of a) now) = false).
    { rewrite record_attempt_accepts, Hth', Hth.
      replace (recent self' (ip_of a) now) with (recent self (ip_of a) now)
        by (unfold recent, attempts_of; rewrite Hatt; reflexivity).
      rewrite Hn. reflexivity. }
    split; [exact Hf|].
    rewrite (record_attempt_ban _ _ _ Hf), Hdur', Hdur. reflexivity.
Qed.


Lemma gate_refuses_from_the_eleventh_witness :
  fst (attempts new (HostPort "203.0.113.7" 40000)
         [1; 2; 3; 4; 5; 6; 7; 8; 9; 10]%Q)
  = [true; true; true; true; true; true; true; true; true; true]
  /\ fst (should_accept after_ten (HostPort "203.0.113.7" 40000) 11) = false
  /\ banned_ips (snd (should_accept after_ten (HostPort "203.0.113.7" 40000) 11))
       !! "203.0.113.7" = Some (11 + 1800)%Q.
Proof.
  split; [vm_compute; reflexivity|].
  exact (proj2 (proj2 (gate_refuses_from_the_eleventh
                         after_ten (HostPort "203.0.113.7" 40000) 11
                         eq_refl eq_refl))
           eq_refl eq_refl).
Defined.

Lemma in_window_spec (now t : Q) : in_window now t = true <-> (now - t < 300)%Q.
Proof.
  unfold in_window, Qlt_bool. rewrite negb_true_iff.
  destruct (Qle_bool 300 (now - t)) eqn:E.
  - apply Qle_bool_iff in E. split; [discriminate|]. intros H. lra.
  - split; [|reflexivity]. intros _.
    apply Qnot_le_lt. intros H. apply Qle_bool_iff in H. congruence.
Qed.

Lemma filter_in_window_all (now : Q) (l : list Q) :
  (forall t, In t l -> (now - t < 300)%Q) ->
  List.filter (in_window now) l = l.
Proof.
  induction l as [|t l IH]; intros H; cbn [List.filter]; [reflexivity|].
  rewrite (proj2 (in_window_spec now t)) by (apply H; left; reflexivity).
  rewrite IH; [reflexivity|]. intros t' Ht'. apply H. right. exact Ht'.
Qed.

Lemma attempts_of_record (self : PortScanProtector) (ip : string) (now : Q) :
  attempts_of (snd (record_attempt self ip now)) ip
  = List.filter (in_window now) (attempts_of self ip ++ [now]).
Proof.
  unfold record_attempt.
  destruct (_ <? _)%nat; unfold attempts_of; cbn [snd connection_attempts];
    rewrite lookup_insert_eq; reflexivity.
Qed.

(** Attempts that all fall within one span shorter than the retention
    window are all retained, and up to the tenth they are admitted. *)
Lemma attempts_within_span (a : address) (times : list Q) :
  forall self,
    banned_ips self !! ip_of a = None ->
    scan_threshold self = 10%nat ->
    (forall x y, In x (attempts_of self (ip_of a) ++ times) ->
                 In y (attempts_of self (ip_of a) ++ times) -> (y - x < 300)%Q) ->
    (List.length (attempts_of self (ip_of a)) + List.length times <= 10)%nat ->
    fst (attempts self a times) = repeat true (List.length times)
    /\ attempts_of (snd (attempts self a times)) (ip_of a)
       = attempts_of self (ip_of a) ++ times
    /\ banned_ips (snd (attempts self a times)) !! ip_of a = None
    /\ scan_threshold (snd (attempts self a times)) = 10%nat
    /\ ban_duration (snd (attempts self a times)) = ban_duration self.
Proof.
  induction times as [|now times IH]; intros self Hb Hth Hspan Hlen.
  - cbn. rewrite app_nil_r. auto.
  - cbn [attempts].
    assert (Hacc : should_accept self a now = record_attempt self (ip_of a) now).
    { unfold should_accept. rewrite Hb. reflexivity. }
    assert (Hkept : List.filter (in_window now) (attempts_of self (ip_of a) ++ [now])
                    = attempts_of self (ip_of a) ++ [now]).
    { apply filter_in_window_all. intros t Ht. apply Hspan.
      - apply in_app_iff in Ht. apply in_app_iff.
        destruct Ht as [Ht|[<-|[]]]; [left; exact Ht|right; left; reflexivity].
      - apply in_app_iff. right. left. reflexivity. }
    assert (Hok : fst (record_attempt self (ip_of a) now) = true).
    { rewrite record_attempt_accepts, Hth. apply negb_true_iff, Nat.ltb_ge.
      unfold recent.
      pose proof (List.filter_length_le (in_window now) (attempts_of self (ip_of a))).
      cbn [List.length] in Hlen. lia. }
    pose proof (attempts_of_record self (ip_of a) now) as Hatt.
    rewrite Hkept in Hatt.
    assert (Hrest : banned_ips (snd (record_attempt self (ip_of a) now)) !! ip_of a = None
                    /\ scan_threshold (snd (record_attempt self (ip_of a) now)) = 10%nat
                    /\ ban_duration (snd (record_attempt self (ip_of a) now))
                       = ban_duration self).
    { revert Hok. unfold record_attempt.
      destruct (_ <? _)%nat; cbn [fst snd]; [discriminate|]. auto. }
    destruct Hrest as (Hb1 & Hth1 & Hd1).
    rewrite Hacc.
    destruct (record_attempt self (ip_of a) now) as [ok self1].
    cbn [fst snd] in *. subst ok.
    specialize (IH self1 Hb1 Hth1).
    rewrite Hatt, <- app_assoc in IH. cbn [app] in IH.
    destruct (IH Hspan ltac:(rewrite List.length_app; cbn [List.length] in *; lia))
      as (Hr & Ha & Hb' & Hth' & Hd').
    destruct (attempts self1 a times) as [oks self2]. cbn [fst snd] in *.
    subst oks. rewrite Ha, Hd'. auto.
Qed.

(** Eleven attempts from one address within a span shorter than the
    retention window, on a new protector: the first ten are admitted, the
    eleventh is refused and starts a ban of 1800 s, during which every
    attempt is refused. *)
Lemma eleven_attempts_within_span (a : address) (times : list Q) (t11 later : Q) :
  List.length times = 10%nat ->
  (forall x y, In x (times ++ [t11]) -> In y (times ++ [t11]) -> (y - x < 300)%Q) ->
  (later < t11 + 1800)%Q ->
  let before := snd (attempts new a times) in
  let after := snd (should_accept before a t11) in
  fst (attempts new a times) = repeat true 10
  /\ fst (should_accept before a t11) = false
  /\ banned_ips after !! ip_of a = Some (t11 + 1800)%Q
  /\ fst (should_accept after a later) = false.
Proof.
  intros Hlen Hspan Hlater before after.
  destruct (attempts_within_span a times new) as (Hr & Ha & Hb & Hth & Hd).
  - reflexivity.
  - reflexivity.
  - change (attempts_of new (ip_of a)) with (@nil Q). cbn [app].
    intros x y Hx Hy. apply Hspan; apply in_app_iff; left; assumption.
  - change (attempts_of new (ip_of a)) with (@nil Q). cbn [List.length]. lia.
  - fold before in Ha, Hb, Hth, Hd.
    change (attempts_of new (ip_of a)) with (@nil Q) in Ha. cbn [app] in Ha.
    assert (Hacc : should_accept before a t11 = record_attempt before (ip_of a) t11).
    { unfold should_accept. rewrite Hb. reflexivity. }
    assert (Hno : fst (record_attempt before (ip_of a) t11) = false).
    { rewrite record_attempt_accepts, Hth. unfold recent. rewrite Ha.
      rewrite filter_in_window_all.
      - rewrite Hlen. reflexivity.
      - intros t Ht. apply Hspan; apply in_app_iff;
          [left; exact Ht | right; left; reflexivity]. }
    assert (Hban : banned_ips after !! ip_of a = Some (t11 + 1800)%Q).
    { unfold after. rewrite Hacc, (record_attempt_ban _ _ _ Hno), Hd. reflexivity. }
    rewrite Hr, Hlen. split; [reflexivity|]. split; [rewrite Hacc; exact Hno|].
    split; [exact Hban|].
    unfold should_accept. rewrite Hban.
    assert (Hlt : Qlt_bool later (t11 + 1800) = true).
    { unfold Qlt_bool. apply negb_true_iff.
      destruct (Qle_bool (t11 + 1800) later) eqn:E; [|reflexivity].
      apply Qle_bool_iff in E. lra. }
    rewrite Hlt. reflexivity.
Qed.

End GateFacts.

(** ** The handshake bridge *)

Section HandshakeFacts.
Import Handshake.

Lemma not_in_time (t timeout : Q) : (timeout <= t)%Q -> Qlt_bool t timeout = false.
Proof.
  intros H. unfold Qlt_bool. apply negb_false_iff, Qle_bool_iff, H.
Qed.

(** When the preparation reports a failure in time, the handler closes the
    connection with 1008 after the ready frame. *)
Lemma handshake_failure_closes (session_id : string) (fut : nat) (t : Q)
    (r : prepared) (sv : server) :
  session_futures sv !! session_id = Some fut ->
  futures sv !! fut = Some Pending ->
  (t < 5)%Q ->
  success r = false \/ prepared_session r = None ->
  fst (fst (safe_ws_handler session_id (CompletesAfter t r) sv))
  = [Send (ready_frame session_id); SendClose 1008 "Gemini initialization failed"].
Proof.
  intros Hs Hf Ht Hr. unfold safe_ws_handler, get_session_future, wait_for.
  rewrite Hs, Hf.
  assert (Hlt : Qlt_bool t 5 = true).
  { unfold Qlt_bool. apply negb_true_iff.
    destruct (Qle_bool 5 t) eqn:E; [|reflexivity].
    apply Qle_bool_iff in E. lra. }
  rewrite Hlt.
  destruct Hr as [Hr|Hr]; rewrite Hr; [|destruct (success r)]; reflexivity.
Qed.

(** C7 (the code departs from the claim).  When the readiness future of an
    accepted connection is not resolved within 5 seconds, [wait_for] raises
    [TimeoutError], which the handler's last [except] clause only logs: the
    ready frame is all that is sent, and no close frame with code 1008
    follows. *)
Theorem handshake_timeout_sends_no_close (session_id : string) (fut : nat)
    (bg : background) (sv : server) :
  session_futures sv !! session_id = Some fut ->
  futures sv !! fut = Some Pending ->
  match bg with
  | CompletesAfter t _ => (5 <= t)%Q
  | Silent => True
  end ->
  fst (safe_ws_handler session_id bg sv)
  = ([Send (ready_frame session_id)], Logged TimeoutError)
  /\ existsb is_close (fst (fst (safe_ws_handler session_id bg sv))) = false.
Proof.
  intros Hs Hf Hbg.
  assert (H : fst (safe_ws_handler session_id bg sv)
              = ([Send (ready_frame session_id)], Logged TimeoutError)).
  { unfold safe_ws_handler, get_session_future, wait_for. rewrite Hs, Hf.
    destruct bg as [t r|]; [rewrite (not_in_time _ _ Hbg)|]; reflexivity. }
  split; [exact H|]. rewrite H. reflexivity.
Qed.

Lemma handshake_timeout_sends_no_close_witness :
  fst (safe_ws_handler "140230" Silent (create_session_future "140230"
                                          {| futures := ∅; session_futures := ∅ |}))
  = ([Send (ready_frame "140230")], Logged TimeoutError)
  /\ existsb is_close
       (fst (fst (safe_ws_handler "140230" Silent
                    (create_session_future "140230"
                       {| futures := ∅; session_futures := ∅ |})))) = false.
Proof.
  exact (handshake_timeout_sends_no_close "140230" 0%nat Silent
           (create_session_future "140230" {| futures := ∅; session_futures := ∅ |})
           eq_refl eq_refl I).
Defined.

End HandshakeFacts.

(** ** Reconnection *)

Section ReconnectionFacts.
Import session Handler.

Lemma heap_update (ref : nat) (f : SessionState -> SessionState) (w : world)
    (r : nat) :
  heap (update ref f w) !! r
  = if decide (ref = r) then f <$> heap w !! r else heap w !! r.
Proof.
  unfold update. simpl. destruct (decide (ref = r)) as [->|Hne].
  - apply lookup_alter_eq.
  - apply lookup_alter_ne, Hne.
Qed.

Lemma heap_send (v : Json.value) (w : world) : heap (send v w) = heap w.
Proof. reflexivity. Qed.



(** The reconnection proper: the signal is raised, and the heap differs
    from the old one in the upstream field of the session only. *)
Lemma reconnect_effect (ref : nat) (w : world) :
  fst (reconnect ref true w) = Raised ReconnectionCompleted
  /\ forall r,
       heap (snd (reconnect ref true w)) !! r
       = if decide (ref = r)
         then set_genai_session (Some (next_upstream w)) <$> heap w !! r
         else heap w !! r.
Proof.
  unfold reconnect, open_upstream. cbv beta iota zeta. split; [reflexivity|].
  intros r. cbv beta iota zeta delta [snd].
  rewrite heap_send, heap_update. reflexivity.
Qed.

(** The task group's exit never lets the restart signal through: when one of
    the tasks raised [ReconnectionCompleted], [handle_messages] returns. *)
Lemma handle_messages_never_raises_signal (raised : list exn) (w : world) :
  fst (handle_messages_exit raised w) <> Raised ReconnectionCompleted
  /\ handle_messages_exit [ReconnectionCompleted] w = (Returned, w).
Proof.
  split; [|reflexivity]. unfold handle_messages_exit.
  destruct raised as [|e raised]; [discriminate|].
  destruct (scan (e :: raised) w) as [[e'|[|]] w']; discriminate.
Qed.

End ReconnectionFacts.

(** ** The warm-up pool *)

Section PoolFacts.
Import Pool.

Lemma count_app (f : task -> bool) (l1 l2 : list task) :
  count f (l1 ++ l2) = (count f l1 + count f l2)%nat.
Proof. unfold count. rewrite List.filter_app, List.length_app. reflexivity. Qed.

Lemma count_insert (f : task -> bool) (l : list task) (i : nat) (t t' : task) :
  l !! i = Some t ->
  (count f (<[i := t']> l) + Nat.b2n (f t) = count f l + Nat.b2n (f t'))%nat.
Proof.
  unfold count. revert i. induction l as [|a l IH]; intros i Hi; [discriminate|].
  destruct i as [|i]; simpl in Hi |- *.
  - inversion Hi; subst. destruct (f t), (f t'); simpl; lia.
  - specialize (IH i Hi). destruct (f a); simpl; lia.
Qed.

Lemma count_zero (f : task -> bool) (l : list task) :
  count f l = 0%nat <-> (forall i t, l !! i = Some t -> f t = false).
Proof.
  unfold count. induction l as [|a l IH]; simpl.
  - split; [intros _ i t Hi; discriminate | reflexivity].
  - split.
    + intros H i t Hi. destruct (f a) eqn:Ha; [discriminate|].
      destruct i as [|i]; simpl in Hi.
      * inversion Hi; subst. exact Ha.
      * eapply IH; eauto.
    + intros H. rewrite (H 0%nat a eq_refl). apply IH.
      intros i t Hi. apply (H (S i) t Hi).
Qed.

Lemma creators_lookup (base n : Z) (k : nat) (t : task) :
  creators base n !! k = Some t -> exists index, t = CreateStart index.
Proof.
  unfold creators. intros H. apply list_lookup_fmap_Some in H.
  destruct H as (i & -> & _). eauto.
Qed.

Lemma creators_length (base n : Z) : List.length (creators base n) = Z.to_nat n.
Proof. unfold creators. rewrite List.length_map, List.length_seq. reflexivity. Qed.

Lemma count_pending_creators (base n : Z) :
  count is_pending (creators base n) = Z.to_nat n.
Proof.
  unfold count, creators. generalize 0%nat. induction (Z.to_nat n) as [|k IH]; intros s.
  - reflexivity.
  - simpl. rewrite IH. reflexivity.
Qed.

Lemma count_gather_creators (base n : Z) :
  count is_gather (creators base n) = 0%nat.
Proof.
  apply count_zero. intros i t Hi.
  destruct (creators_lookup _ _ _ _ Hi) as [index ->]. reflexivity.
Qed.

Lemma count_single (f : task -> bool) (t : task) : count f [t] = Nat.b2n (f t).
Proof. unfold count. simpl. destruct (f t); reflexivity. Qed.

Lemma lookup_snoc (ts : list task) (t0 t : task) (i : nat) :
  (ts ++ [t0]) !! i = Some t -> ts !! i = Some t \/ t = t0.
Proof.
  intros H. apply lookup_app_Some in H. destruct H as [H|[_ H]]; [left; exact H|].
  right. destruct (i - List.length ts)%nat; simpl in H; [congruence|discriminate].
Qed.

Lemma lookup_insert_cases (ts : list task) (i j : nat) (t' x : task) :
  <[i := t']> ts !! j = Some x ->
  (j = i /\ t' = x) \/ (j <> i /\ ts !! j = Some x).
Proof.
  intros H. apply list_lookup_insert_Some in H.
  destruct H as [(-> & -> & _)|[Hne H]]; [left; auto | right; auto].
Qed.

Lemma pending_not_gather (t : task) : is_pending t = true -> is_gather t = false.
Proof. destruct t; simpl; congruence. Qed.

(** A new coroutine that is neither a creation task nor a wave. *)
Lemma inv_spawn (P : Z) (q : list client) (lk sh : bool) (ts : list task)
    (t0 : task) :
  replenish_inv P q lk sh ts ->
  is_pending t0 = false -> is_gather t0 = false -> replenish_task t0 = true ->
  replenish_inv P q lk sh (ts ++ [t0]).
Proof.
  intros (Hsh & Hcap & Hfree & Hcover & Hkind & Hgather) Hp Hg Hr.
  unfold replenish_inv. rewrite !count_app, !count_single, Hp, Hg. simpl.
  rewrite !Nat.add_0_r. repeat split; auto.
  - intros j ids Hj i t Hi Ht.
    destruct (lookup_snoc _ _ _ _ Hj) as [Hj'|Heq]; [|subst t0; discriminate].
    destruct (lookup_snoc _ _ _ _ Hi) as [Hi'|Heq]; [|subst t0; congruence].
    eapply Hcover; eauto.
  - intros i t Hi. destruct (lookup_snoc _ _ _ _ Hi) as [Hi'|Heq]; [eauto|].
    subst t0. exact Hr.
Qed.

(** A coroutine moves on, and is a pending creation after the move only if
    it was one before. *)
Lemma inv_goto (P : Z) (q : list client) (lk sh : bool) (ts : list task)
    (i : nat) (t t' : task) :
  replenish_inv P q lk sh ts ->
  ts !! i = Some t ->
  is_pending t' = is_pending t -> is_gather t = false -> is_gather t' = false ->
  replenish_task t' = true ->
  replenish_inv P q lk sh (<[i := t']> ts).
Proof.
  intros (Hsh & Hcap & Hfree & Hcover & Hkind & Hgather) Hi Hp Hg Hg' Hr.
  pose proof (count_insert is_pending ts i t t' Hi) as Hcp.
  pose proof (count_insert is_gather ts i t t' Hi) as Hcg.
  rewrite Hp in Hcp. rewrite Hg, Hg' in Hcg. simpl in Hcg.
  unfold replenish_inv.
  replace (count is_pending (<[i := t']> ts)) with (count is_pending ts) by lia.
  replace (count is_gather (<[i := t']> ts)) with (count is_gather ts) by lia.
  repeat split; auto.
  - intros j ids Hj k x Hk Hx.
    destruct (lookup_insert_cases _ _ _ _ _ Hj) as [[-> Heq]|[Hne Hj']]; [subst; discriminate|].
    destruct (lookup_insert_cases _ _ _ _ _ Hk) as [[-> Heq]|[Hnk Hk']].
    + subst x. eapply Hcover; [exact Hj'|exact Hi|congruence].
    + eapply Hcover; eauto.
  - intros k x Hk.
    destruct (lookup_insert_cases _ _ _ _ _ Hk) as [[-> Heq]|[Hnk Hk']]; [subst x; auto | eauto].
Qed.

(** The queue does not grow. *)
Lemma inv_queue (P : Z) (q q' : list client) (lk sh : bool) (ts : list task) :
  replenish_inv P q lk sh ts ->
  (List.length q' <= List.length q)%nat ->
  replenish_inv P q' lk sh ts.
Proof.
  intros (Hsh & Hcap & Hrest) Hq. split; [exact Hsh|]. split; [lia|exact Hrest].
Qed.

(** A creation task ends, having put at most one client. *)
Lemma inv_create_done (P : Z) (q q' : list client) (lk sh : bool)
    (ts : list task) (i : nat) (t : task) :
  replenish_inv P q lk sh ts ->
  ts !! i = Some t -> is_pending t = true ->
  (List.length q' <= List.length q + 1)%nat ->
  replenish_inv P q' lk sh (<[i := CreateDone]> ts).
Proof.
  intros (Hsh & Hcap & Hfree & Hcover & Hkind & Hgather) Hi Hp Hq.
  pose proof (count_insert is_pending ts i t CreateDone Hi) as Hcp.
  pose proof (count_insert is_gather ts i t CreateDone Hi) as Hcg.
  rewrite Hp in Hcp. rewrite (pending_not_gather _ Hp) in Hcg. simpl in Hcp, Hcg.
  unfold replenish_inv.
  replace (count is_gather (<[i := CreateDone]> ts)) with (count is_gather ts) by lia.
  repeat split; auto.
  - lia.
  - intros Hlk. specialize (Hfree Hlk). lia.
  - intros j ids Hj k x Hk Hx.
    destruct (lookup_insert_cases _ _ _ _ _ Hj) as [[-> Heq]|[Hne Hj']]; [subst; discriminate|].
    destruct (lookup_insert_cases _ _ _ _ _ Hk) as [[-> Heq]|[Hnk Hk']]; [subst; discriminate|].
    eapply Hcover; eauto.
  - intros k x Hk.
    destruct (lookup_insert_cases _ _ _ _ _ Hk) as [[-> Heq]|[Hnk Hk']]; [subst x; auto | eauto].
Qed.

(** A replenish wave starts: the lock is free, so no creation is pending;
    the wave creates what is missing up to the capacity. *)
Lemma inv_wave (P : Z) (q : list client) (sh : bool) (ts : list task)
    (i : nat) (t : task) :
  replenish_inv P q false sh ts ->
  ts !! i = Some t -> is_pending t = false -> is_gather t = false ->
  let needed := P - Z.of_nat (List.length q) in
  replenish_inv P q true sh
    (<[i := EnsureGather (seq (List.length ts) (Z.to_nat needed))]>
       (ts ++ creators 0 needed)).
Proof.
  intros (Hsh & Hcap & Hfree & Hcover & Hkind & Hgather) Hi Hp Hg needed.
  specialize (Hfree eq_refl).
  assert (Hi' : (ts ++ creators 0 needed) !! i = Some t).
  { rewrite lookup_app_l; [exact Hi|]. eapply lookup_lt_Some, Hi. }
  pose proof (count_insert is_pending _ i t
                (EnsureGather (seq (List.length ts) (Z.to_nat needed))) Hi') as Hcp.
  pose proof (count_insert is_gather _ i t
                (EnsureGather (seq (List.length ts) (Z.to_nat needed))) Hi') as Hcg.
  rewrite Hp, count_app, count_pending_creators in Hcp.
  rewrite Hg, count_app, count_gather_creators in Hcg. simpl in Hcp, Hcg.
  assert (Hnp : forall k x, ts !! k = Some x -> is_pending x = false)
    by (apply count_zero; exact Hfree).
  assert (Hng : forall k x, ts !! k = Some x -> is_gather x = false)
    by (apply count_zero; exact Hgather).
  unfold replenish_inv. repeat split.
  - exact Hsh.
  - subst needed. lia.
  - discriminate.
  - intros j ids Hj k x Hk Hx.
    destruct (lookup_insert_cases _ _ _ _ _ Hj) as [[-> Heq]|[Hne Hj']].
    + inversion Heq; subst ids.
      destruct (lookup_insert_cases _ _ _ _ _ Hk) as [[-> Heq']|[Hnk Hk']];
        [subst x; discriminate|].
      apply lookup_app_Some in Hk'. destruct Hk' as [Hk'|[Hlen Hk']].
      * rewrite (Hnp _ _ Hk') in Hx. discriminate.
      * apply lookup_lt_Some in Hk'. rewrite creators_length in Hk'.
        apply in_seq. lia.
    + apply lookup_app_Some in Hj'. destruct Hj' as [Hj'|[_ Hj']].
      * pose proof (Hng _ _ Hj'). discriminate.
      * destruct (creators_lookup _ _ _ _ Hj') as [index ?]. discriminate.
  - intros k x Hk.
    destruct (lookup_insert_cases _ _ _ _ _ Hk) as [[-> Heq]|[Hnk Hk']]; [subst x; reflexivity|].
    apply lookup_app_Some in Hk'. destruct Hk' as [Hk'|[_ Hk']]; [eauto|].
    destruct (creators_lookup _ _ _ _ Hk') as [index ->]. reflexivity.
  - lia.
Qed.

(** The wave ends: all its creation tasks have ended, so none is pending. *)
Lemma inv_gather_done (P : Z) (q : list client) (sh : bool) (ts : list task)
    (i : nat) (ids : list nat) :
  replenish_inv P q true sh ts ->
  ts !! i = Some (EnsureGather ids) ->
  (forall id, In id ids -> exists t, ts !! id = Some t /\ is_pending t = false) ->
  replenish_inv P q false sh (<[i := EnsureDone]> ts).
Proof.
  intros (Hsh & Hcap & Hfree & Hcover & Hkind & Hgather) Hi Hdone.
  pose proof (count_insert is_pending ts i _ EnsureDone Hi) as Hcp.
  pose proof (count_insert is_gather ts i _ EnsureDone Hi) as Hcg.
  simpl in Hcp, Hcg.
  assert (Hnone : count is_pending ts = 0%nat).
  { apply count_zero. intros k x Hk.
    destruct (is_pending x) eqn:Hx; [|reflexivity].
    destruct (Hdone k (Hcover _ _ Hi _ _ Hk Hx)) as (x' & Hk' & Hx').
    congruence. }
  unfold replenish_inv. repeat split.
  - exact Hsh.
  - lia.
  - intros _. lia.
  - intros j ids' Hj k x Hk Hx.
    destruct (lookup_insert_cases _ _ _ _ _ Hk) as [[-> Heq]|[Hnk Hk']]; [subst; discriminate|].
    assert (is_pending x = false) by (eapply count_zero; eauto). congruence.
  - intros k x Hk.
    destruct (lookup_insert_cases _ _ _ _ _ Hk) as [[-> Heq]|[Hnk Hk']]; [subst x; auto | eauto].
  - lia.
Qed.

Lemma all_done (cfg : config) (ids : list nat) :
  forallb (done cfg) ids = true ->
  forall id, In id ids -> exists t, tasks cfg !! id = Some t /\ is_pending t = false.
Proof.
  intros H id Hid. rewrite forallb_forall in H. specialize (H id Hid).
  unfold done in H. destruct (tasks cfg !! id) as [t|]; [|discriminate].
  exists t. split; [reflexivity|]. destruct t; try discriminate; reflexivity.
Qed.

Lemma count_pos (f : task -> bool) (ts : list task) (i : nat) (t : task) :
  ts !! i = Some t -> f t = true -> (1 <= count f ts)%nat.
Proof.
  intros Hi Ht. destruct (count f ts) eqn:E; [|lia].
  pose proof (proj1 (count_zero f ts) E i t Hi). congruence.
Qed.

(** Every step of acquire and replenish maintains the invariant. *)
Lemma step_inv (l : label) (cfg cfg' : config) :
  Inv cfg -> acquire_or_replenish l = true -> step l cfg = Some cfg' ->
  Inv cfg' /\ pool_size cfg' = pool_size cfg.
Proof.
  intros HI Hl Hstep. destruct cfg as [P B q lk sm sh bg ts nc cl].
  unfold Inv in *. cbn in HI.
  destruct l as [|c| | |i ok]; try discriminate; cbn -[Nat.ltb Z.geb Z.ltb Z.max Z.min Z.div Z.sub Z.add Z.of_nat Z.to_nat seq] in Hstep.
  - inversion Hstep; subst; cbn -[Nat.ltb Z.geb Z.ltb Z.max Z.min Z.div Z.sub Z.add Z.of_nat Z.to_nat seq]. split; [|reflexivity].
    apply inv_spawn; auto.
  - inversion Hstep; subst; cbn -[Nat.ltb Z.geb Z.ltb Z.max Z.min Z.div Z.sub Z.add Z.of_nat Z.to_nat seq]. split; [|reflexivity].
    apply inv_spawn; auto.
  - destruct (ts !! i) as [t|] eqn:Hi; [|discriminate].
    assert (Hsh : sh = false) by apply HI. subst sh.
    assert (Hkind : replenish_task t = true).
    { destruct HI as (_ & _ & _ & _ & Hk & _). eapply Hk, Hi. }
    destruct t; try discriminate; cbn -[Nat.ltb Z.geb Z.ltb Z.max Z.min Z.div Z.sub Z.add Z.of_nat Z.to_nat seq] in Hstep.
    + (* CreateStart *)
      destruct (0 <? sm)%nat; inversion Hstep; subst; cbn -[Nat.ltb Z.geb Z.ltb Z.max Z.min Z.div Z.sub Z.add Z.of_nat Z.to_nat seq]; (split; [|reflexivity]);
        eapply inv_goto; eauto.
    + (* CreateWaitSem *)
      destruct (0 <? sm)%nat; inversion Hstep; subst; cbn -[Nat.ltb Z.geb Z.ltb Z.max Z.min Z.div Z.sub Z.add Z.of_nat Z.to_nat seq]; (split; [|reflexivity]);
        eapply inv_goto; eauto.
    + (* CreateInThread *)
      destruct ok; inversion Hstep; subst; cbn -[Nat.ltb Z.geb Z.ltb Z.max Z.min Z.div Z.sub Z.add Z.of_nat Z.to_nat seq]; (split; [|reflexivity]);
        eapply inv_create_done; eauto; rewrite ?List.length_app; simpl; lia.
    + (* EnsureStart *)
      destruct lk.
      * inversion Hstep; subst; cbn -[Nat.ltb Z.geb Z.ltb Z.max Z.min Z.div Z.sub Z.add Z.of_nat Z.to_nat seq]. split; [|reflexivity]. eapply inv_goto; eauto.
      * unfold ensure_locked in Hstep. cbn -[Nat.ltb Z.geb Z.ltb Z.max Z.min Z.div Z.sub Z.add Z.of_nat Z.to_nat seq] in Hstep.
        destruct (_ >=? _); inversion Hstep; subst; cbn -[Nat.ltb Z.geb Z.ltb Z.max Z.min Z.div Z.sub Z.add Z.of_nat Z.to_nat seq]; (split; [|reflexivity]).
        -- eapply inv_goto; eauto.
        -- eapply inv_wave; eauto.
    + (* EnsureWaitLock *)
      destruct lk; [discriminate|].
      unfold ensure_locked in Hstep. cbn -[Nat.ltb Z.geb Z.ltb Z.max Z.min Z.div Z.sub Z.add Z.of_nat Z.to_nat seq] in Hstep.
      destruct (_ >=? _); inversion Hstep; subst; cbn -[Nat.ltb Z.geb Z.ltb Z.max Z.min Z.div Z.sub Z.add Z.of_nat Z.to_nat seq]; (split; [|reflexivity]).
      * eapply inv_goto; eauto.
      * eapply inv_wave; eauto.
    + (* EnsureGather *)
      destruct (forallb _ ids) eqn:Hdone; inversion Hstep; subst; cbn -[Nat.ltb Z.geb Z.ltb Z.max Z.min Z.div Z.sub Z.add Z.of_nat Z.to_nat seq].
      split; [|reflexivity].
      assert (Hlk : lk = true).
      { destruct HI as (_ & _ & _ & _ & _ & Hg).
        pose proof (count_pos is_gather ts i _ Hi eq_refl).
        destruct lk; [reflexivity|lia]. }
      subst lk. eapply inv_gather_done; eauto.
      apply (all_done _ _ Hdone).
    + (* GetStart *)
      destruct q as [|c q]; inversion Hstep; subst; cbn -[Nat.ltb Z.geb Z.ltb Z.max Z.min Z.div Z.sub Z.add Z.of_nat Z.to_nat seq]; (split; [|reflexivity]).
      * eapply inv_goto; eauto.
      * eapply inv_goto with (t := GetStart); auto.
        -- apply inv_spawn; auto. eapply inv_queue; [exact HI|]. simpl. lia.
        -- rewrite lookup_app_l; [exact Hi|]. eapply lookup_lt_Some, Hi.
    + (* GetInThread *)
      destruct ok; inversion Hstep; subst; cbn -[Nat.ltb Z.geb Z.ltb Z.max Z.min Z.div Z.sub Z.add Z.of_nat Z.to_nat seq]; (split; [|reflexivity]);
        eapply inv_goto; eauto.
Qed.

Lemma run_inv (ls : list label) (cfg cfg' : config) :
  Inv cfg -> forallb acquire_or_replenish ls = true -> run ls cfg = Some cfg' ->
  Inv cfg' /\ pool_size cfg' = pool_size cfg.
Proof.
  revert cfg. induction ls as [|l ls IH]; intros cfg HI Hls Hrun; simpl in *.
  - inversion Hrun; subst. auto.
  - apply andb_true_iff in Hls. destruct Hls as [Hl Hls].
    destruct (step l cfg) as [cfg1|] eqn:Hstep; [|discriminate].
    destruct (step_inv _ _ _ HI Hl Hstep) as [HI1 HP1].
    destruct (IH cfg1 HI1 Hls Hrun) as [HI' HP']. split; [exact HI'|congruence].
Qed.

Lemma at_rest_inv (cfg : config) : at_rest cfg -> Inv cfg.
Proof.
  intros (Ht & Hlk & Hsh & Hq). unfold Inv, replenish_inv.
  rewrite Ht, Hlk, Hsh. cbn. repeat split; auto; try lia; intros; discriminate.
Qed.

(** C8 (amended).  From a pool at rest, whatever the interleaving of the
    steps of acquire ([get_session]) and replenish ([ensure_pool_capacity]
    and its creation tasks), the pool is not shutting down and its queue
    holds at most [pool_size] sessions. *)
Theorem replenish_keeps_queue_within_capacity (ls : list label)
    (cfg cfg' : config) :
  at_rest cfg ->
  forallb acquire_or_replenish ls = true ->
  run ls cfg = Some cfg' ->
  is_shutting_down cfg' = false
  /\ pool_size cfg' = pool_size cfg
  /\ Z.of_nat (List.length (queue cfg')) <= pool_size cfg'.
Proof.
  intros Hrest Hls Hrun.
  destruct (run_inv ls cfg cfg' (at_rest_inv cfg Hrest) Hls Hrun)
    as [(Hsh & Hcap & _) HP].
  split; [exact Hsh|]. split; [exact HP|]. lia.
Qed.


Lemma replenish_keeps_queue_within_capacity_witness :
  exists cfg',
    run replenish_schedule (init 2 3 3) = Some cfg'
    /\ queue cfg' = [2; 3]%nat
    /\ Z.of_nat (List.length (queue cfg')) <= pool_size cfg'.
Proof.
  assert (Hrest : at_rest (init 2 3 3)) by (repeat split; cbn; lia).
  destruct (run replenish_schedule (init 2 3 3)) as [cfg'|] eqn:Hrun;
    [|vm_compute in Hrun; discriminate].
  exists cfg'. split; [reflexivity|].
  split; [vm_compute in Hrun; inversion Hrun; reflexivity|].
  exact (proj2 (proj2 (replenish_keeps_queue_within_capacity
                         replenish_schedule (init 2 3 3) cfg' Hrest eq_refl Hrun))).
Defined.

(** C8 (as stated, refuted).  Capacity 1: two sessions are acquired while
    the queue is empty (each is created on demand) and both are released;
    the queue then holds two sessions and the pool is not shutting down.
    Capacity 2, without any release: a session of the first warm-up batch is
    acquired, the replenish wave this triggers creates two sessions, and
    the rest of the batch adds a third. *)
Lemma release_exceeds_capacity :
  (exists cfg,
     run [CallGetSession; Run 0 true; Run 0 true;
          CallGetSession; Run 1 true; Run 1 true;
          CallReturnSession 0%nat; Run 2 true;
          CallReturnSession 1%nat; Run 3 true] (init 1 3 3) = Some cfg
     /\ is_shutting_down cfg = false
     /\ pool_size cfg = 1
     /\ queue cfg = [0; 1]%nat
     /\ ~ Z.of_nat (List.length (queue cfg)) <= pool_size cfg)
  /\ (exists cfg,
        run [CallWarmupSessions; Run 0 true; Run 1 true; Run 1 true;
             CallGetSession; Run 3 true; Run 4 true;
             Run 5 true; Run 5 true; Run 6 true; Run 6 true;
             Run 2 true; Run 2 true] (init 2 3 3) = Some cfg
        /\ is_shutting_down cfg = false
        /\ pool_size cfg = 2
        /\ queue cfg = [1; 2; 3]%nat
        /\ ~ Z.of_nat (List.length (queue cfg)) <= pool_size cfg).
Proof.
  split; eexists; (split; [vm_compute; reflexivity|]); cbn; repeat split; lia.
Qed.

(** C6 (as stated, refuted).  Three creation tasks of a warm-up batch hold
    the three permits of the semaphore; [get_session] on the empty queue
    starts a fourth client initialisation all the same. *)
Lemma get_session_bypasses_semaphore :
  exists cfg,
    run [CallWarmupSessions; Run 0 true; Run 1 true; Run 2 true; Run 3 true;
         CallGetSession; Run 4 true] (init 10 3 3) = Some cfg
    /\ queue cfg = []
    /\ sem cfg = 0%nat
    /\ tasks cfg !! 4%nat = Some GetInThread
    /\ creations_in_flight cfg = 4%nat.
Proof.
  eexists. split; [vm_compute; reflexivity|]. cbn. repeat split.
Qed.

(** C6 (amended).  On a pool that is not shutting down, [get_session] never
    touches the semaphore.  With a session in the queue it takes the head,
    returns it at once and leaves a new [ensure_pool_capacity] task among the
    background tasks.  With the queue empty it starts a client
    initialisation whatever the number of free permits, schedules nothing,
    and returns the new client when the initialisation succeeds; the client
    does not pass through the queue. *)
Theorem get_session_behaviour (cfg : config) (i : nat) (ok : bool) :
  tasks cfg !! i = Some GetStart ->
  is_shutting_down cfg = false ->
  exists cfg',
    step (Run i ok) cfg = Some cfg'
    /\ sem cfg' = sem cfg
    /\ match queue cfg with
       | c :: q =>
           tasks cfg' !! i = Some (GetReturned c)
           /\ queue cfg' = q
           /\ tasks cfg' !! List.length (tasks cfg) = Some EnsureStart
           /\ In (List.length (tasks cfg)) (background_tasks cfg')
       | [] =>
           tasks cfg' !! i = Some GetInThread
           /\ queue cfg' = []
           /\ List.length (tasks cfg') = List.length (tasks cfg)
           /\ background_tasks cfg' = background_tasks cfg
           /\ exists cfg'',
                step (Run i true) cfg' = Some cfg''
                /\ tasks cfg'' !! i = Some (GetReturned (next_client cfg'))
                /\ queue cfg'' = []
                /\ sem cfg'' = sem cfg
       end.
Proof.
  intros Hi Hsh. destruct cfg as [P B q lk sm sh bg ts nc cl].
  cbn in Hi, Hsh. subst sh.
  pose proof (lookup_lt_Some _ _ _ Hi) as Hlt.
  unfold step. cbn [tasks]. rewrite Hi. cbn [resume is_shutting_down queue].
  destruct q as [|c q].
  - eexists. split; [reflexivity|]. cbn.
    split; [reflexivity|]. split; [apply list_lookup_insert_eq, Hlt|].
    split; [reflexivity|]. split; [apply length_insert|]. split; [reflexivity|].
    rewrite list_lookup_insert_eq by exact Hlt.
    eexists. split; [reflexivity|]. cbn.
    split; [|split; reflexivity].
    apply list_lookup_insert_eq. rewrite length_insert. exact Hlt.
  - eexists. split; [reflexivity|]. cbn.
    assert (Hnew : (ts ++ [EnsureStart]) !! List.length ts = Some EnsureStart).
    { rewrite lookup_app_r by lia. rewrite Nat.sub_diag. reflexivity. }
    split; [reflexivity|]. split.
    { apply list_lookup_insert_eq. rewrite List.length_app. simpl. lia. }
    split; [reflexivity|]. split.
    { rewrite list_lookup_insert_ne by lia. exact Hnew. }
    apply List.filter_In. split.
    + apply List.in_or_app. right. left. reflexivity.
    + unfold done. cbn. rewrite Hnew. reflexivity.
Qed.

Lemma get_session_behaviour_witness :
  exists cfg',
    step (Run 0 true) (spawn [GetStart] (init 10 3 3)) = Some cfg'
    /\ sem cfg' = 3%nat
    /\ tasks cfg' !! 0%nat = Some GetInThread
    /\ queue cfg' = [].
Proof.
  destruct (get_session_behaviour (spawn [GetStart] (init 10 3 3)) 0 true
              eq_refl eq_refl)
    as (cfg' & Hstep & Hsem & Ht & Hq & _).
  exists cfg'. auto.
Defined.

Ltac split_conditions H :=
  repeat match type of H with
         | context [if ?b then _ else _] => destruct b eqn:?
         | context [match ?q with [] => _ | _ :: _ => _ end] => destruct q
         end.

(** A step changes neither the capacity nor the shutdown flag, and no
    coroutine other than the one it resumes. *)
Lemma step_frame (l : label) (cfg cfg' : config) :
  step l cfg = Some cfg' ->
  pool_size cfg' = pool_size cfg
  /\ is_shutting_down cfg' = is_shutting_down cfg
  /\ forall i t, tasks cfg !! i = Some t -> (forall ok, l <> Run i ok) ->
       tasks cfg' !! i = Some t.
Proof.
  intros Hstep. destruct cfg as [P B q lk sm sh bg ts nc cl].
  destruct l as [|c| | |j ok]; cbn in Hstep;
    try (inversion Hstep; subst; cbn; split; [reflexivity|]; split; [reflexivity|];
         intros i t Hi _; apply lookup_app_l_Some; exact Hi).
  destruct (ts !! j) as [t0|] eqn:Hj; [|discriminate].
  destruct t0;
    cbn -[Nat.ltb Z.geb Z.ltb Z.max Z.min Z.div Z.sub Z.add Z.of_nat Z.to_nat seq]
      in Hstep;
    unfold ensure_locked in Hstep;
    cbn -[Nat.ltb Z.geb Z.ltb Z.max Z.min Z.div Z.sub Z.add Z.of_nat Z.to_nat seq]
      in Hstep;
    split_conditions Hstep; try discriminate;
    inversion Hstep; subst;
    cbn -[Nat.ltb Z.geb Z.ltb Z.max Z.min Z.div Z.sub Z.add Z.of_nat Z.to_nat seq];
    (split; [reflexivity|]; split; [reflexivity|]);
    intros i t Hi Hne;
    assert (Hji : j <> i) by (intros ->; eapply Hne; reflexivity);
    rewrite list_lookup_insert_ne by exact Hji;
    try (apply lookup_app_l_Some); exact Hi.
Qed.

(** The first segment of [warmup_sessions]: with room left and no shutdown
    it starts a batch and waits for it. *)
Lemma warmup_starts_batch (cfg : config) (i : nat) (created : Z) (ok : bool) :
  tasks cfg !! i = Some (WarmupLoop created) ->
  created < pool_size cfg ->
  is_shutting_down cfg = false ->
  exists cfg' ids,
    step (Run i ok) cfg = Some cfg'
    /\ tasks cfg' !! i = Some (WarmupGather ids)
    /\ List.length ids
       = Z.to_nat (Z.min (batch_size cfg) (pool_size cfg - created)).
Proof.
  intros Hi Hc Hsh. destruct cfg as [P B q lk sm sh bg ts nc cl].
  cbn in Hi, Hc, Hsh. subst sh.
  unfold step. cbn [tasks]. rewrite Hi. cbn [resume pool_size is_shutting_down].
  replace (created <? P) with true by (symmetry; apply Z.ltb_lt; exact Hc).
  cbn [andb negb]. eexists. eexists. split; [reflexivity|]. split.
  - cbn [tasks goto spawn with_tasks]. apply list_lookup_insert_eq.
    rewrite List.length_app. apply lookup_lt_Some in Hi. lia.
  - apply List.length_seq.
Qed.

(** C5 (the code departs from the claim).  On a pool with room for at least
    one session that is not shutting down, [warmup_sessions] never ends
    normally: whatever the schedule, the coroutine is still before its first
    batch, or waiting for it, or has raised [TypeError]; and once the batch
    is done, resuming the coroutine raises [TypeError], because line 87
    awaits the int that [qsize()] returns. *)
Theorem warmup_sessions_raises_type_error (ls : list label) (cfg cfg' : config)
    (i : nat) :
  tasks cfg !! i = Some (WarmupLoop 0) ->
  1 <= pool_size cfg ->
  is_shutting_down cfg = false ->
  run ls cfg = Some cfg' ->
  (tasks cfg' !! i = Some (WarmupLoop 0)
   \/ (exists ids, tasks cfg' !! i = Some (WarmupGather ids))
   \/ tasks cfg' !! i = Some (WarmupRaised TypeError))
  /\ (forall ids ok,
        tasks cfg' !! i = Some (WarmupGather ids) ->
        forallb (done cfg') ids = true ->
        exists cfg'',
          step (Run i ok) cfg' = Some cfg''
          /\ tasks cfg'' !! i = Some (WarmupRaised TypeError)
          /\ queue cfg'' = queue cfg').
Proof.
  intros Hi HP Hsh Hrun. split.
  - assert (Hstate : tasks cfg !! i = Some (WarmupLoop 0)
                     \/ (exists ids, tasks cfg !! i = Some (WarmupGather ids))
                     \/ tasks cfg !! i = Some (WarmupRaised TypeError))
      by (left; exact Hi).
    clear Hi. revert cfg HP Hsh Hstate Hrun.
    induction ls as [|l ls IH]; intros cfg HP Hsh Hstate Hrun; simpl in Hrun.
    + inversion Hrun; subst. exact Hstate.
    + destruct (step l cfg) as [cfg1|] eqn:Hstep; [|discriminate].
      destruct (step_frame _ _ _ Hstep) as (HP1 & Hsh1 & Hother).
      apply (IH cfg1); [lia|congruence| |exact Hrun].
      assert (Hcase : (exists ok, l = Run i ok) \/ (forall ok, l <> Run i ok)).
      { destruct l as [|c| | |j ok]; try (right; intros; discriminate).
        destruct (decide (j = i)) as [->|Hne]; [left; eauto|].
        right. intros ok' Heq. inversion Heq. congruence. }
      destruct Hcase as [[ok ->]|Hne].
      * destruct Hstate as [Hi|[[ids Hi]|Hi]].
        -- destruct (warmup_starts_batch cfg i 0 ok Hi ltac:(lia) Hsh)
             as (cfg2 & ids & Hstep2 & Hi2 & _).
           rewrite Hstep in Hstep2. inversion Hstep2; subst. right. left. eauto.
        -- unfold step in Hstep. rewrite Hi in Hstep. cbn [resume] in Hstep.
           destruct (forallb (done cfg) ids); [|discriminate].
           cbn in Hstep. inversion Hstep; subst. right. right.
           cbn. apply list_lookup_insert_eq. eapply lookup_lt_Some, Hi.
        -- unfold step in Hstep. rewrite Hi in Hstep. discriminate.
      * destruct Hstate as [Hi|[[ids Hi]|Hi]]; eauto using Hother.
  - intros ids ok Hg Hdone. unfold step. rewrite Hg. cbn [resume]. rewrite Hdone.
    cbn. eexists. split; [reflexivity|]. split; [|reflexivity].
    cbn. apply list_lookup_insert_eq. eapply lookup_lt_Some, Hg.
Qed.


Lemma warmup_sessions_raises_type_error_witness :
  exists cfg',
    run warmup_schedule (spawn [WarmupLoop 0] (init 10 3 3)) = Some cfg'
    /\ (tasks cfg' !! 0%nat = Some (WarmupLoop 0)
        \/ (exists ids, tasks cfg' !! 0%nat = Some (WarmupGather ids))
        \/ tasks cfg' !! 0%nat = Some (WarmupRaised TypeError))
    /\ tasks cfg' !! 0%nat = Some (WarmupRaised TypeError)
    /\ queue cfg' = [0; 1; 2]%nat
    /\ pool_size cfg' = 10
    /\ is_shutting_down cfg' = false.
Proof.
  destruct (run warmup_schedule (spawn [WarmupLoop 0] (init 10 3 3)))
    as [cfg'|] eqn:Hrun; [|vm_compute in Hrun; discriminate].
  pose proof (warmup_sessions_raises_type_error warmup_schedule
                (spawn [WarmupLoop 0] (init 10 3 3)) cfg' 0
                eq_refl ltac:(cbn; lia) eq_refl Hrun) as [Hstate _].
  exists cfg'. split; [reflexivity|]. split; [exact Hstate|].
  vm_compute in Hrun. inversion Hrun; subst. repeat split.
Defined.

End PoolFacts.

(** ** What normalisation keeps and what it produces *)

Section CleanedTextFacts.
Import Re Normalize Gaps Tidy.
Local Arguments isspace : simpl never.
Local Arguments is_cjk_punct : simpl never.

Lemma count_disjoint (p q : char -> bool) (s : str) :
  (forall c, p c = true -> q c = false) ->
  count_class p s + count_class q s <= Z.of_nat (List.length s).
Proof.
  intros Hpq. induction s as [|c s IH]; [unfold count_class; cbn; lia|].
  rewrite !count_class_cons. cbn [List.length].
  specialize (Hpq c).
  destruct (p c); [rewrite Hpq by reflexivity|destruct (q c)]; cbv iota; lia.
Qed.

Lemma count_class_nonneg (p : char -> bool) (s : str) : 0 <= count_class p s.
Proof. unfold count_class. lia. Qed.

Lemma cjk_not_letter (c : char) : is_cjk c = true -> is_letter c = false.
Proof. unfold is_cjk, is_letter, in_range. lia. Qed.

Lemma cjk_not_digit (c : char) : is_cjk c = true -> is_digit c = false.
Proof. unfold is_cjk, is_digit, in_range. lia. Qed.

Lemma digit_not_letter (c : char) : is_digit c = true -> is_letter c = false.
Proof. unfold is_digit, is_letter, in_range. lia. Qed.

Lemma cjk_not_punct (c : char) : is_cjk c = true -> is_cjk_punct c = false.
Proof. unfold is_cjk, is_cjk_punct, in_range. lia. Qed.

Lemma letter_not_punct (c : char) : is_letter c = true -> is_cjk_punct c = false.
Proof. unfold is_letter, is_cjk_punct, in_range. lia. Qed.

Lemma space_not_letter (c : char) : isspace c = true -> is_letter c = false.
Proof. unfold isspace, is_letter, in_range. lia. Qed.

Lemma count_class_le (p : char -> bool) (s : str) :
  count_class p s <= Z.of_nat (List.length s).
Proof.
  unfold count_class. apply inj_le, List.filter_length_le.
Qed.

(** X1.  For the empty text both ratios are 0.  For every text each ratio
    is between 0 and 1, and the two cannot both reach 0.6: no character
    counts both as CJK and as a letter. *)
Theorem language_ratios_bounded (text : str) :
  detect_language_ratio [] = (0%Q, 0%Q)
  /\ let '(ch_ratio, en_ratio) := detect_language_ratio text in
     (0 <= ch_ratio <= 1)%Q /\ (0 <= en_ratio <= 1)%Q
     /\ (Qge_bool ch_ratio (6 # 10) = true -> Qge_bool en_ratio (6 # 10) = false).
Proof.
  split; [reflexivity|]. unfold detect_language_ratio.
  pose proof (count_disjoint is_cjk is_letter text cjk_not_letter) as Hsum.
  pose proof (count_class_nonneg is_cjk text) as Hc.
  pose proof (count_class_nonneg is_letter text) as Hl.
  pose proof (count_class_le is_cjk text) as Hc1.
  pose proof (count_class_le is_letter text) as Hl1.
  destruct (Z.of_nat (List.length text) =? 0) eqn:E.
  - repeat split; try (unfold Qle; cbn; lia); intros H; discriminate H.
  - apply Z.eqb_neq in E.
    assert (Hp : Z.pos (Z.to_pos (Z.of_nat (List.length text)))
                 = Z.of_nat (List.length text)) by (apply Z2Pos.id; lia).
    repeat split; try (unfold Qle; cbn [Qnum Qden]; rewrite ?Hp; lia).
    unfold Qge_bool, Qle_bool. cbn [Qnum Qden]. rewrite Hp. intros H.
    apply Z.leb_le in H. apply Z.leb_gt. lia.
Qed.

(** *** The characters of a text *)

Lemma nonspace_render (T : list token) (tr : bool) :
  solid T -> List.filter nonspace (render T tr) = List.map snd T.
Proof.
  induction 1 as [|[g c] T Hc _ IH]; cbn [render List.map snd].
  - destruct tr; reflexivity.
  - cbn [snd] in Hc.
    assert (Hat : List.filter nonspace (c :: render T tr) = c :: List.map snd T).
    { cbn [List.filter]. unfold nonspace at 1. rewrite Hc. cbn [negb]. f_equal. exact IH. }
    destruct g; cbn [app]; [|exact Hat].
    cbn [List.filter]. unfold nonspace at 1. rewrite isspace_space. exact Hat.
Qed.

Lemma nonspace_parse (s : str) :
  forall g, List.map snd (fst (parse g s)) = List.filter nonspace s.
Proof.
  induction s as [|c s IH]; intros g; cbn [parse List.filter]; [reflexivity|].
  unfold nonspace at 1. destruct (isspace c); cbn [negb]; [apply IH|].
  specialize (IH false). destruct (parse false s) as [T tr].
  cbn [fst List.map snd] in *. rewrite IH. reflexivity.
Qed.

Lemma solid_cleaned (cjk : bool) (text : str) :
  solid (fst (unlead (clean_gaps cjk None (fst (parse false text))) false)).
Proof.
  apply solid_unlead. rewrite <- gaps_fused. apply solid_gaps, solid_parse.
Qed.

(** X2.  Normalisation changes whitespace only: the characters that are not
    whitespace come out as they went in, in the same order. *)
Theorem normalization_keeps_characters (text : str) :
  List.filter nonspace (smart_clean_spaces text) = List.filter nonspace text.
Proof.
  rewrite smart_clean_spaces_cases.
  destruct (blank text); [reflexivity|].
  destruct (english_dominant text); [reflexivity|].
  rewrite clean_render, nonspace_render by apply solid_cleaned.
  rewrite (proj1 (unlead_measures _ _)), clean_gaps_chars. apply nonspace_parse.
Qed.

(** *** The spaces of a cleaned text *)

Lemma spaced_cons (b : bool) (c : char) (s : str) :
  spaced b (c :: s)
  = if isspace c then
      (c =? space) && negb b
      && match s with [] => false | _ :: _ => true end
      && spaced true s
    else spaced false s.
Proof. reflexivity. Qed.

Lemma spaced_render (T : list token) :
  solid T ->
  forall b, (b = true -> lead T false = false) -> spaced b (render T false) = true.
Proof.
  induction 1 as [|[g c] T Hc HT IH]; intros b Hb; [reflexivity|].
  cbn [snd] in Hc. cbn [render lead] in *.
  assert (Hat : forall b', spaced b' (c :: render T false) = true).
  { intros b'. rewrite spaced_cons, Hc. apply IH. discriminate. }
  destruct g; cbn [app]; [|apply Hat].
  destruct b; [discriminate Hb; reflexivity|].
  rewrite spaced_cons, isspace_space, Z.eqb_refl, Hat. reflexivity.
Qed.

Lemma strip_all_space (s : str) :
  Forall (fun c => isspace c = true) s -> strip s = [].
Proof.
  unfold strip. induction 1 as [|c s Hc _ IH]; [reflexivity|].
  cbn [lstrip]. rewrite Hc. exact IH.
Qed.

Lemma not_blank_has_token (text : str) :
  blank text = false -> fst (parse false text) <> [].
Proof.
  intros Hb HT. apply (f_equal (List.map snd)) in HT.
  rewrite nonspace_parse in HT. cbn [List.map] in HT.
  unfold blank in Hb. rewrite strip_all_space in Hb; [discriminate|].
  clear Hb. induction text as [|c s IH]; [constructor|].
  cbn [List.filter] in HT. unfold nonspace at 1 in HT.
  destruct (isspace c) eqn:Hc; cbn [negb] in HT; [|discriminate].
  constructor; auto.
Qed.

(** X3.  A text that is not blank and not English-dominant comes out not
    empty, with no whitespace at either end and, between two characters,
    no whitespace but one U+0020. *)
Theorem normalized_text_is_single_spaced (text : str) :
  blank text = false -> english_dominant text = false ->
  smart_clean_spaces text <> [] /\ spaced true (smart_clean_spaces text) = true.
Proof.
  intros Hb He. rewrite smart_clean_spaces_cases, Hb, He, clean_render.
  pose proof (not_blank_has_token text Hb) as Hne.
  pose proof (solid_cleaned (cjk_dominant text) text) as Hs.
  split.
  - destruct (fst (parse false text)) as [|[g c] T]; [contradiction|].
    cbn [clean_gaps unlead fst render app]. discriminate.
  - apply spaced_render; [exact Hs|]. intros _.
    destruct (clean_gaps (cjk_dominant text) None (fst (parse false text)))
      as [|[g c] T]; reflexivity.
Qed.

Lemma normalized_text_is_single_spaced_witness :
  smart_clean_spaces (py "你好 ，  世界 hello") <> []
  /\ spaced true (smart_clean_spaces (py "你好 ，  世界 hello")) = true.
Proof.
  apply (normalized_text_is_single_spaced (py "你好 ，  世界 hello"));
    vm_compute; reflexivity.
Defined.

(** *** What stands on either side of a space *)

Lemma render_spaced_pair (T : list token) (tr : bool) :
  solid T ->
  forall pre x y post,
    render T tr = pre ++ x :: space :: y :: post ->
    exists T1 g T2, T = T1 ++ (g, x) :: (true, y) :: T2.
Proof.
  induction 1 as [|[g c] T Hc HT IH]; intros pre x y post E.
  - cbn [render] in E. destruct tr, pre as [|? [|? ?]]; discriminate.
  - cbn [snd] in Hc. cbn [render] in E.
    assert (Hat : forall pre', c :: render T tr = pre' ++ x :: space :: y :: post ->
              exists T1 g' T2, (g, c) :: T = T1 ++ (g', x) :: (true, y) :: T2).
    { intros [|a pre'] E'; cbn [app] in E'; injection E' as -> E'.
      - destruct HT as [|[g' c'] T Hc' HT]; cbn [render] in E'.
        + destruct tr; discriminate.
        + cbn [snd] in Hc'. destruct g'; cbn [app] in E'.
          * injection E' as -> _. exists [], g, T. reflexivity.
          * injection E' as E1 _. rewrite E1, isspace_space in Hc'. discriminate.
      - destruct (IH _ _ _ _ E') as (T1 & g' & T2 & ->).
        exists ((g, a) :: T1), g', T2. reflexivity. }
    destruct g; cbn [app] in E; [|apply (Hat pre), E].
    destruct pre as [|a pre]; cbn [app] in E; injection E as E1 E.
    + rewrite E, isspace_space in Hc. discriminate.
    + apply (Hat pre), E.
Qed.

Lemma render_close_pair (T : list token) (tr : bool) :
  solid T ->
  forall pre x y post,
    isspace x = false -> isspace y = false ->
    render T tr = pre ++ x :: y :: post ->
    exists T1 g T2, T = T1 ++ (g, x) :: (false, y) :: T2.
Proof.
  induction 1 as [|[g c] T Hc HT IH]; intros pre x y post Hx Hy E.
  - cbn [render] in E. destruct tr, pre as [|? [|? ?]]; discriminate.
  - cbn [snd] in Hc. cbn [render] in E.
    assert (Hat : forall pre', c :: render T tr = pre' ++ x :: y :: post ->
              exists T1 g' T2, (g, c) :: T = T1 ++ (g', x) :: (false, y) :: T2).
    { intros [|a pre'] E'; cbn [app] in E'; injection E' as -> E'.
      - destruct HT as [|[g' c'] T Hc' HT]; cbn [render] in E'.
        + destruct tr; [injection E' as <- _; rewrite isspace_space in Hy|];
            discriminate.
        + destruct g'; cbn [app] in E'; injection E' as E1 E'.
          * rewrite <- E1, isspace_space in Hy. discriminate.
          * subst c'. exists [], g, T. reflexivity.
      - destruct (IH _ _ _ _ Hx Hy E') as (T1 & g' & T2 & ->).
        exists ((g, a) :: T1), g', T2. reflexivity. }
    destruct g; cbn [app] in E; [|apply (Hat pre), E].
    destruct pre as [|a pre]; cbn [app] in E; injection E as E1 E.
    + rewrite <- E1, isspace_space in Hx. discriminate.
    + apply (Hat pre), E.
Qed.

Lemma clean_gaps_pair (cjk : bool) (T : list token) :
  forall p T1 g x g' y T2,
    clean_gaps cjk p T = T1 ++ (g, x) :: (g', y) :: T2 ->
    exists g0, g' = gap_after_cleaning cjk g0 (Some x) y.
Proof.
  induction T as [|[ga ca] T IH]; intros p T1 g x g' y T2 E.
  - destruct T1; discriminate.
  - cbn [clean_gaps] in E. destruct T1 as [|t T1]; cbn [app] in E.
    + injection E as _ -> E. destruct T as [|[gb cb] T]; [discriminate|].
      cbn [clean_gaps] in E. injection E as <- -> _. eauto.
    + injection E as _ E. eapply IH, E.
Qed.

Lemma unlead_pair (T : list token) (tr : bool) :
  forall T1 g x g' y T2,
    fst (unlead T tr) = T1 ++ (g, x) :: (g', y) :: T2 ->
    exists T1' g1, T = T1' ++ (g1, x) :: (g', y) :: T2.
Proof.
  intros T1 g x g' y T2 E. destruct T as [|[ga ca] T]; cbn [unlead fst] in E.
  - destruct T1; discriminate.
  - destruct T1 as [|t T1]; cbn [app] in E.
    + injection E as _ -> ->. exists [], ga. reflexivity.
    + injection E as <- ->. exists ((ga, ca) :: T1), g. reflexivity.
Qed.

(** X4.  In a cleaned text a space never touches a CJK punctuation mark,
    and never stands between two CJK characters or between a digit and
    a CJK character; when the text is CJK-dominant it never stands between
    a CJK character and a letter either. *)
Theorem no_space_where_cleaning_removes_it (text pre : str) (x y : char) (post : str) :
  blank text = false -> english_dominant text = false ->
  smart_clean_spaces text = pre ++ x :: space :: y :: post ->
  is_cjk_punct x = false /\ is_cjk_punct y = false
  /\ is_cjk x && is_cjk y = false
  /\ is_digit x && is_cjk y = false
  /\ is_cjk x && is_digit y = false
  /\ (cjk_dominant text = true ->
      is_cjk x && is_letter y = false /\ is_letter x && is_cjk y = false).
Proof.
  intros Hb He E. rewrite smart_clean_spaces_cases, Hb, He, clean_render in E.
  apply render_spaced_pair in E; [|apply solid_cleaned].
  destruct E as (T1 & g & T2 & E).
  apply unlead_pair in E. destruct E as (T1' & g1 & E).
  apply clean_gaps_pair in E. destruct E as (g0 & E).
  unfold gap_after_cleaning in E. cbn [behind] in E.
  pose proof (cjk_not_letter x) as Hxl. pose proof (cjk_not_letter y) as Hyl.
  pose proof (digit_not_letter x) as Hdx. pose proof (digit_not_letter y) as Hdy.
  destruct (cjk_dominant text), g0, (is_cjk x), (is_cjk y), (is_digit x), (is_digit y),
    (is_letter x), (is_letter y), (is_cjk_punct x), (is_cjk_punct y);
    cbn in E; try discriminate E;
    try discriminate (Hxl eq_refl); try discriminate (Hyl eq_refl);
    try discriminate (Hdx eq_refl); try discriminate (Hdy eq_refl);
    repeat split; intros; try reflexivity; discriminate.
Qed.

Lemma no_space_where_cleaning_removes_it_witness :
  is_cjk_punct 0x754C = false /\ is_cjk_punct 104 = false
  /\ is_cjk 0x754C && is_cjk 104 = false
  /\ is_digit 0x754C && is_cjk 104 = false
  /\ is_cjk 0x754C && is_digit 104 = false
  /\ (cjk_dominant (py "你好 ，  世界 hello") = true ->
      is_cjk 0x754C && is_letter 104 = false /\ is_letter 0x754C && is_cjk 104 = false).
Proof.
  apply (no_space_where_cleaning_removes_it
           (py "你好 ，  世界 hello") (py "你好，世") 0x754C 104 (py "ello"));
    vm_compute; reflexivity.
Defined.

(** X5.  In a cleaned text that is not CJK-dominant, a CJK character and a
    letter are never next to each other: a space separates them. *)
Theorem mixed_text_separates_cjk_and_letters (text pre : str) (x y : char)
    (post : str) :
  blank text = false -> english_dominant text = false ->
  cjk_dominant text = false ->
  smart_clean_spaces text = pre ++ x :: y :: post ->
  is_cjk x && is_letter y = false /\ is_letter x && is_cjk y = false.
Proof.
  intros Hb He Hc E.
  destruct (isspace x) eqn:Hx.
  { rewrite (space_not_cjk x Hx), (space_not_letter x Hx). split; reflexivity. }
  destruct (isspace y) eqn:Hy.
  { rewrite (space_not_cjk y Hy), (space_not_letter y Hy), !andb_false_r.
    split; reflexivity. }
  rewrite smart_clean_spaces_cases, Hb, He, Hc, clean_render in E.
  apply render_close_pair in E; [|apply solid_cleaned|exact Hx|exact Hy].
  destruct E as (T1 & g & T2 & E).
  apply unlead_pair in E. destruct E as (T1' & g1 & E).
  apply clean_gaps_pair in E. destruct E as (g0 & E).
  unfold gap_after_cleaning in E. cbn [behind] in E.
  pose proof (cjk_not_punct x) as Hxp. pose proof (cjk_not_punct y) as Hyp.
  pose proof (letter_not_punct x) as Hlx. pose proof (letter_not_punct y) as Hly.
  destruct g0, (is_cjk x), (is_cjk y), (is_digit x), (is_digit y),
    (is_letter x), (is_letter y), (is_cjk_punct x), (is_cjk_punct y);
    cbn in E; try discriminate E;
    try discriminate (Hxp eq_refl); try discriminate (Hyp eq_refl);
    try discriminate (Hlx eq_refl); try discriminate (Hly eq_refl);
    split; reflexivity.
Qed.

Lemma mixed_text_separates_cjk_and_letters_witness :
  is_cjk 0x4E16 && is_letter 0x754C = false
  /\ is_letter 0x4E16 && is_cjk 0x754C = false.
Proof.
  apply (mixed_text_separates_cjk_and_letters
           (py "你好 ，  世界 hello") (py "你好，") 0x4E16 0x754C (py " hello"));
    vm_compute; reflexivity.
Defined.

End CleanedTextFacts.

(** ** The quote clean-up *)

Section QuoteFacts.
Import Re Normalize Gaps Tidy.
Local Arguments isspace : simpl never.

(** Deleting the characters of a class. *)
Lemma sub_class_filter (p : char -> bool) (s : str) :
  forall prev, sub_go [Cls p] [] prev 0 s = List.filter (fun c => negb (p c)) s.
Proof.
  induction s as [|c s IH]; intros prev; [reflexivity|].
  rewrite sub_go_cons. cbn [exec List.filter].
  destruct (p c); cbn [negb]; [|rewrite IH; reflexivity].
  cbn [Nat.eqb andb consumed expand List.map List.concat app]. apply IH.
Qed.

(** A substitution that writes a space brings in no other character. *)
Lemma sub_space_chars (P : char -> Prop) (r : regex) (s : str) :
  P space -> Forall P s ->
  forall prev k, Forall P (sub_go r [Lit space] prev k s).
Proof.
  intros Hsp. induction 1 as [|c s Hc Hs IH]; intros prev k.
  - destruct k; [|constructor]. rewrite sub_go_nil.
    destruct (exec r false prev 0 [] []); repeat constructor; exact Hsp.
  - destruct k as [|k]; [|rewrite sub_go_skip; apply IH].
    rewrite sub_go_cons.
    destruct (exec r false prev 0 [] (c :: s)) as [h|]; [|constructor; auto].
    cbn [expand List.map List.concat app]. constructor; [exact Hsp|].
    destruct (consumed h); [|apply IH].
    destruct (exec r true prev 0 [] (c :: s)) as [h'|]; [|constructor; auto].
    cbn [expand List.map List.concat app]. constructor; [exact Hsp|]. apply IH.
Qed.

Lemma lstrip_chars (P : char -> Prop) (s : str) : Forall P s -> Forall P (lstrip s).
Proof.
  induction 1 as [|c s Hc Hs IH]; cbn [lstrip]; [constructor|].
  destruct (isspace c); [exact IH|constructor; assumption].
Qed.

Lemma rstrip_chars (P : char -> Prop) (s : str) : Forall P s -> Forall P (rstrip s).
Proof.
  induction 1 as [|c s Hc Hs IH]; [constructor|]. rewrite rstrip_cons.
  destruct (rstrip s);
    [destruct (isspace c); [constructor|constructor; [assumption|constructor]]
    |constructor; assumption].
Qed.

Lemma replace_chars (P : char -> Prop) (old : str) (s : str) :
  Forall P s -> forall k, Forall P (replace_go old [] k s).
Proof.
  induction 1 as [|c s Hc Hs IH]; intros k; cbn [replace_go]; [constructor|].
  destruct k; [|apply IH].
  destruct (starts_with old (c :: s)); [apply IH|constructor; auto].
Qed.

Lemma cleaned_text_has_no_straight_quote_aux (data : str) :
  Forall (fun c => is_quote c = false) (clean_unbalanced_or_extra_quotes data).
Proof.
  unfold clean_unbalanced_or_extra_quotes, strip, sub.
  apply rstrip_chars, lstrip_chars, sub_space_chars; [reflexivity|].
  rewrite sub_class_filter.
  induction (replace [92; 34] [] data) as [|c s IH]; cbn [List.filter]; [constructor|].
  destruct (is_quote c) eqn:Hc; cbn [negb]; [exact IH|constructor; assumption].
Qed.

(** X6.  Whatever the text, what the quote clean-up returns holds no
    straight double quote. *)
Theorem cleaned_text_has_no_straight_quote (data : str) :
  Forall (fun c => is_quote c = false) (clean_unbalanced_or_extra_quotes data).
Proof. exact (cleaned_text_has_no_straight_quote_aux data). Qed.

(** *** The characters the clean-up keeps *)

Lemma kept_nonspace (c : char) : kept c = true -> nonspace c = true.
Proof. unfold kept, nonspace. destruct (isspace c); [rewrite andb_false_r|]; auto. Qed.

Lemma filter_narrow (p q : char -> bool) (s : str) :
  (forall c, p c = true -> q c = true) ->
  List.filter p (List.filter q s) = List.filter p s.
Proof.
  intros Hpq. induction s as [|c s IH]; [reflexivity|]. cbn [List.filter].
  specialize (Hpq c). destruct (q c); cbn [List.filter]; [rewrite IH; reflexivity|].
  destruct (p c); [discriminate Hpq; reflexivity|exact IH].
Qed.

Lemma kept_replace (s : str) :
  List.filter kept (replace_go [92; 34] [] 0 s) = List.filter kept s
  /\ List.filter kept (replace_go [92; 34] [] 1 s) = List.filter kept (List.tl s).
Proof.
  induction s as [|c s [IH0 IH1]]; [split; reflexivity|].
  split; [|exact IH0].
  cbn [replace_go List.length Nat.pred app].
  destruct (starts_with [92; 34] (c :: s)) eqn:E.
  - rewrite IH1. cbn [starts_with] in E.
    destruct s as [|d s]; [rewrite andb_false_r in E; discriminate|].
    rewrite andb_true_r in E. apply andb_prop in E. destruct E as [E1 E2].
    apply Z.eqb_eq in E1, E2. subst c d. reflexivity.
  - cbn [List.filter]. rewrite IH0. reflexivity.
Qed.

Lemma exec_run2 (prev : option char) (s : str) :
  exec [Rep 2 isspace] false prev 0 [] s
  = if (2 <=? ws_prefix s)%nat then Some (Hit (ws_prefix s) []) else None.
Proof.
  cbn [exec]. rewrite (rep_run _ []); [reflexivity|]. intros; reflexivity.
Qed.

Lemma nonspace_cons (c : char) (s : str) :
  List.filter nonspace (c :: s)
  = if isspace c then List.filter nonspace s else c :: List.filter nonspace s.
Proof. cbn [List.filter]. unfold nonspace at 1. destruct (isspace c); reflexivity. Qed.

Lemma nonspace_run2 (s : str) :
  forall prev k, (k <= ws_prefix s)%nat ->
    List.filter nonspace (sub_go [Rep 2 isspace] [Lit space] prev k s)
    = List.filter nonspace s.
Proof.
  induction s as [|c s IH]; intros prev k Hk.
  - cbn [ws_prefix] in Hk. assert (k = 0%nat) as -> by lia. reflexivity.
  - destruct k as [|k].
    + rewrite sub_go_cons, exec_run2. cbn [ws_prefix] in *.
      rewrite (nonspace_cons c s).
      destruct (isspace c) eqn:Hc.
      * destruct (2 <=? S (ws_prefix s))%nat.
        -- cbn [consumed expand List.map List.concat app].
           rewrite nonspace_cons, isspace_space. apply IH. lia.
        -- rewrite nonspace_cons, Hc. apply IH. lia.
      * cbn [Nat.leb]. rewrite nonspace_cons, Hc, IH by lia. reflexivity.
    + rewrite sub_go_skip. cbn [ws_prefix] in Hk.
      destruct (isspace c) eqn:Hc; [|lia].
      rewrite nonspace_cons, Hc. apply IH. lia.
Qed.

Lemma nonspace_lstrip (s : str) :
  List.filter nonspace (lstrip s) = List.filter nonspace s.
Proof.
  induction s as [|c s IH]; [reflexivity|]. cbn [lstrip].
  rewrite (nonspace_cons c s). destruct (isspace c) eqn:Hc; [exact IH|].
  rewrite nonspace_cons, Hc. reflexivity.
Qed.

Lemma nonspace_rstrip (s : str) :
  List.filter nonspace (rstrip s) = List.filter nonspace s.
Proof.
  induction s as [|c s IH]; [reflexivity|]. rewrite rstrip_cons.
  rewrite (nonspace_cons c s), <- IH.
  destruct (rstrip s) as [|d r].
  - destruct (isspace c) eqn:Hc; [reflexivity|]. rewrite nonspace_cons, Hc. reflexivity.
  - rewrite (nonspace_cons c (d :: r)). reflexivity.
Qed.

(** X7.  The quote clean-up deletes or changes straight double quotes,
    backslashes and whitespace only: every other character, the curly
    quotes among them, comes out as it went in, in the same order. *)
Theorem quote_cleanup_keeps_other_characters (data : str) :
  List.filter kept (clean_unbalanced_or_extra_quotes data) = List.filter kept data.
Proof.
  unfold clean_unbalanced_or_extra_quotes, strip, sub, replace.
  rewrite <- (filter_narrow kept nonspace _ kept_nonspace).
  rewrite nonspace_rstrip, nonspace_lstrip, nonspace_run2 by (cbn; lia).
  rewrite (filter_narrow kept nonspace _ kept_nonspace).
  rewrite sub_class_filter.
  rewrite (filter_narrow kept (fun c => negb (is_quote c))).
  - apply kept_replace.
  - intros c. unfold kept. destruct (is_quote c); [discriminate|reflexivity].
Qed.

(** *** A second pass *)

Lemma apart_cons (c : char) (s : str) :
  (isspace c = true -> starts_solid s) -> apart s -> apart (c :: s).
Proof. destruct s as [|d s]; cbn; auto. Qed.

Lemma apart_tail (c : char) (s : str) : apart (c :: s) -> apart s.
Proof. destruct s as [|d s]; cbn; tauto. Qed.

Lemma ws_prefix_solid (s : str) : starts_solid s -> ws_prefix s = 0%nat.
Proof. destruct s as [|c s]; cbn; [reflexivity|intros ->; reflexivity]. Qed.

Lemma ws_prefix_zero (s : str) : ws_prefix s = 0%nat -> starts_solid s.
Proof.
  destruct s as [|c s]; cbn; [trivial|]. destruct (isspace c); [discriminate|reflexivity].
Qed.

Lemma run2_apart (s : str) :
  (forall prev, apart (sub_go [Rep 2 isspace] [Lit space] prev 0 s)
                /\ (starts_solid s ->
                    starts_solid (sub_go [Rep 2 isspace] [Lit space] prev 0 s)))
  /\ (forall prev,
        apart (sub_go [Rep 2 isspace] [Lit space] prev (ws_prefix s) s)
        /\ starts_solid (sub_go [Rep 2 isspace] [Lit space] prev (ws_prefix s) s)).
Proof.
  induction s as [|c s [IHa IHb]].
  - split; intros prev; cbn; auto.
  - assert (Ha : forall prev,
               apart (sub_go [Rep 2 isspace] [Lit space] prev 0 (c :: s))
               /\ (isspace c = false ->
                   starts_solid (sub_go [Rep 2 isspace] [Lit space] prev 0 (c :: s)))).
    { intros prev. rewrite sub_go_cons, exec_run2. cbn [ws_prefix].
      destruct (isspace c) eqn:Hc.
      - split; [|discriminate].
        destruct (2 <=? S (ws_prefix s))%nat eqn:E.
        + cbn [consumed expand List.map List.concat app].
          destruct (IHb (Some c)) as [H1 H2]. apply apart_cons; auto.
        + apply Nat.leb_gt in E. assert (E0 : ws_prefix s = 0%nat) by lia.
          destruct (IHa (Some c)) as [H1 H2].
          apply apart_cons; [|exact H1]. intros _. apply H2, ws_prefix_zero, E0.
      - cbn [Nat.leb]. destruct (IHa (Some c)) as [H1 H2].
        split; [|intros _; exact Hc].
        apply apart_cons; [rewrite Hc; discriminate|exact H1]. }
    split; intros prev.
    + destruct (Ha prev) as [H1 H2]. split; [exact H1|]. cbn. exact H2.
    + cbn [ws_prefix]. destruct (isspace c) eqn:Hc.
      * rewrite sub_go_skip. apply IHb.
      * destruct (Ha prev) as [H1 H2]. split; [exact H1|apply H2; reflexivity].
Qed.

Lemma apart_lstrip (s : str) : apart s -> apart (lstrip s).
Proof.
  induction s as [|c s IH]; intros H; cbn [lstrip]; [exact H|].
  destruct (isspace c); [apply IH, (apart_tail c), H|exact H].
Qed.

Lemma rstrip_head (c : char) (s : str) :
  rstrip (c :: s) = [] \/ exists r, rstrip (c :: s) = c :: r.
Proof.
  rewrite rstrip_cons. destruct (rstrip s); [destruct (isspace c)|]; eauto.
Qed.

Lemma apart_rstrip (s : str) : apart s -> apart (rstrip s).
Proof.
  induction s as [|c s IH]; intros H; [exact H|].
  specialize (IH (apart_tail c s H)). rewrite rstrip_cons.
  destruct (rstrip s) as [|d r] eqn:E; [destruct (isspace c); cbn; trivial|].
  apply apart_cons; [|exact IH]. intros Hc.
  destruct s as [|d' s']; [discriminate E|].
  destruct (rstrip_head d' s') as [E'|[r' E']]; rewrite E' in E; [discriminate|].
  injection E as <- _. cbn in *. apply H, Hc.
Qed.

Lemma run2_fixed (s : str) :
  apart s -> forall prev, sub_go [Rep 2 isspace] [Lit space] prev 0 s = s.
Proof.
  induction s as [|c s IH]; intros H prev; [reflexivity|].
  rewrite sub_go_cons, exec_run2.
  assert (E : (2 <=? ws_prefix (c :: s))%nat = false).
  { apply Nat.leb_gt. cbn [ws_prefix]. destruct (isspace c) eqn:Hc; [|lia].
    destruct s as [|d s']; [cbn; lia|]. cbn in H. destruct H as [H _].
    cbn [ws_prefix]. rewrite (H Hc). lia. }
  rewrite E. f_equal. apply IH, (apart_tail c), H.
Qed.

Lemma lstrip_solid (s : str) : starts_solid (lstrip s).
Proof.
  induction s as [|c s IH]; cbn [lstrip]; [exact I|].
  destruct (isspace c) eqn:Hc; [exact IH|exact Hc].
Qed.

Lemma rstrip_rstrip (s : str) : rstrip (rstrip s) = rstrip s.
Proof.
  induction s as [|c s IH]; [reflexivity|]. rewrite rstrip_cons.
  destruct (rstrip s) as [|d r] eqn:E.
  - destruct (isspace c) eqn:Hc; [reflexivity|]. rewrite rstrip_cons. cbn [rstrip].
    rewrite Hc. reflexivity.
  - rewrite rstrip_cons, IH. reflexivity.
Qed.

Lemma strip_strip (s : str) : strip (strip s) = strip s.
Proof.
  unfold strip. pose proof (lstrip_solid s) as H.
  destruct (lstrip s) as [|c u]; [reflexivity|]. cbn in H.
  destruct (rstrip_head c u) as [E|[r E]].
  - rewrite E. reflexivity.
  - rewrite E at 1. cbn [lstrip]. rewrite H, <- E. apply rstrip_rstrip.
Qed.

(** X8.  The quote clean-up changes nothing in a text it has produced. *)
Theorem quote_cleanup_idempotent (data : str) :
  clean_unbalanced_or_extra_quotes (clean_unbalanced_or_extra_quotes data)
  = clean_unbalanced_or_extra_quotes data.
Proof.
  pose proof (cleaned_text_has_no_straight_quote_aux data) as Hq.
  set (out := clean_unbalanced_or_extra_quotes data) in *.
  assert (Ha : apart out).
  { unfold out, clean_unbalanced_or_extra_quotes, strip, sub.
    apply apart_rstrip, apart_lstrip, run2_apart. }
  assert (Hs : strip out = out).
  { unfold out, clean_unbalanced_or_extra_quotes. apply strip_strip. }
  unfold clean_unbalanced_or_extra_quotes at 1. unfold sub.
  rewrite replace_escaped_quote_absent by exact Hq.
  rewrite sub_class_absent by exact Hq.
  rewrite run2_fixed by exact Ha. exact Hs.
Qed.

End QuoteFacts.

(** ** The audio frame holds the bytes *)

Section AudioFacts.
Import Normalize Base64 Handler.

Lemma lor_shiftl (hi lo k : Z) :
  0 <= k -> 0 <= lo < 2 ^ k -> Z.lor (Z.shiftl hi k) lo = hi * 2 ^ k + lo.
Proof.
  intros Hk Hlo. rewrite <- (Z.shiftl_mul_pow2 hi k Hk), <- Z.add_lor_land.
  assert (Z.land (Z.shiftl hi k) lo = 0) as ->; [|lia].
  apply Z.bits_inj'. intros n Hn. rewrite Z.land_spec, Z.bits_0.
  destruct (Z.ltb_spec n k).
  - rewrite Z.shiftl_spec_low by lia. reflexivity.
  - assert (Z.testbit lo n = false) as ->; [|apply andb_false_r].
    destruct (Z.eq_dec lo 0) as [->|]; [apply Z.bits_0|].
    apply Z.bits_above_log2; [lia|]. apply Z.log2_lt_pow2; [lia|].
    eapply Z.lt_le_trans; [apply Hlo|]. apply Z.pow_le_mono_r; lia.
Qed.

Lemma byte_val_range (b : byte) : 0 <= byte_val b < 256.
Proof.
  unfold byte_val. pose proof (Byte.to_N_bounded b). lia.
Qed.

Lemma to_byte_val (b : byte) : to_byte (byte_val b) = b.
Proof.
  unfold to_byte, byte_val. rewrite N2Z.id, Byte.of_to_N. reflexivity.
Qed.

Lemma b64_index_digit (i : Z) :
  0 <= i < 64 ->
  b64_index (b64_digit i) = i /\ (b64_digit i =? b64_pad) = false.
Proof.
  intros H.
  assert (Hall : forallb (fun k => (b64_index (b64_digit (Z.of_nat k)) =? Z.of_nat k)
                                   && negb (b64_digit (Z.of_nat k) =? b64_pad))
                         (seq 0 64) = true) by (vm_compute; reflexivity).
  rewrite forallb_forall in Hall. specialize (Hall (Z.to_nat i)).
  rewrite Z2Nat.id in Hall by lia.
  destruct (andb_prop _ _ (Hall ltac:(apply in_seq; lia))) as [H1 H2].
  split; [apply Z.eqb_eq, H1|]. destruct (b64_digit i =? b64_pad); [discriminate|reflexivity].
Qed.

Lemma sextet_div (n k : Z) :
  0 <= k -> sextet n k = b64_digit (n / 2 ^ (6 * k) mod 64).
Proof.
  intros Hk. unfold sextet. rewrite Z.shiftr_div_pow2 by lia.
  change 63 with (Z.ones 6). rewrite Z.land_ones by lia. reflexivity.
Qed.

Lemma pack3 (a b c : Z) :
  0 <= a < 256 -> 0 <= b < 256 -> 0 <= c < 256 ->
  Z.lor (Z.lor (Z.shiftl a 16) (Z.shiftl b 8)) c = a * 65536 + b * 256 + c.
Proof.
  intros Ha Hb Hc.
  rewrite (lor_shiftl a (Z.shiftl b 8) 16) by (rewrite ?Z.shiftl_mul_pow2; lia).
  rewrite Z.shiftl_mul_pow2 by lia.
  replace (a * 2 ^ 16 + b * 2 ^ 8) with (Z.shiftl (a * 256 + b) 8)
    by (rewrite Z.shiftl_mul_pow2; lia).
  rewrite lor_shiftl; lia.
Qed.

Lemma pack2 (a b : Z) :
  0 <= a < 256 -> 0 <= b < 256 ->
  Z.lor (Z.shiftl a 16) (Z.shiftl b 8) = a * 65536 + b * 256.
Proof.
  intros Ha Hb.
  rewrite (lor_shiftl a (Z.shiftl b 8) 16) by (rewrite ?Z.shiftl_mul_pow2; lia).
  rewrite Z.shiftl_mul_pow2; lia.
Qed.

Local Arguments Z.mul : simpl never.
Local Arguments Z.add : simpl never.
Local Arguments Z.div : simpl never.
Local Arguments Z.modulo : simpl never.
Local Arguments Z.pow : simpl never.

Ltac digits n :=
  rewrite !(sextet_div n) by lia;
  change (6 * 3) with 18; change (6 * 2) with 12; change (6 * 1) with 6;
  change (6 * 0) with 0;
  change (2 ^ 18) with 262144; change (2 ^ 12) with 4096; change (2 ^ 6) with 64;
  change (2 ^ 0) with 1.

(** The bytes are read back from their Base64 text. *)
Lemma unpack_b64encode_bounded (n : nat) :
  forall data, (List.length data <= n)%nat -> unpack (b64encode data) = data.
Proof.
  induction n as [|n IH]; intros data Hn.
  - destruct data; [reflexivity|cbn in Hn; lia].
  - destruct data as [|a [|b [|c rest]]]; [reflexivity| | |].
    + pose proof (byte_val_range a) as Ha.
      cbn [b64encode]. rewrite Z.shiftl_mul_pow2 by lia. change (2 ^ 16) with 65536.
      set (m := byte_val a * 65536). digits m.
      cbn [unpack app]. rewrite Z.eqb_refl.
      destruct (b64_index_digit (m / 262144 mod 64) ltac:(apply Z.mod_pos_bound; lia))
        as [-> _].
      destruct (b64_index_digit (m / 4096 mod 64) ltac:(apply Z.mod_pos_bound; lia))
        as [-> _].
      change (b64_index b64_pad) with 63. f_equal.
      rewrite <- (to_byte_val a). cbn [app]. do 2 f_equal. subst m.
      Z.div_mod_to_equations. lia.
    + pose proof (byte_val_range a) as Ha. pose proof (byte_val_range b) as Hb.
      cbn [b64encode]. rewrite pack2 by assumption.
      set (m := byte_val a * 65536 + byte_val b * 256). digits m.
      cbn [unpack app].
      destruct (b64_index_digit (m / 262144 mod 64) ltac:(apply Z.mod_pos_bound; lia))
        as [-> _].
      destruct (b64_index_digit (m / 4096 mod 64) ltac:(apply Z.mod_pos_bound; lia))
        as [-> _].
      destruct (b64_index_digit (m / 64 mod 64) ltac:(apply Z.mod_pos_bound; lia))
        as [-> ->].
      rewrite Z.eqb_refl. change (b64_index b64_pad) with 63.
      rewrite <- (to_byte_val a). rewrite <- (to_byte_val b). cbn [app].
      f_equal; [|f_equal]; f_equal; subst m; Z.div_mod_to_equations; lia.
    + pose proof (byte_val_range a) as Ha. pose proof (byte_val_range b) as Hb.
      pose proof (byte_val_range c) as Hc.
      cbn [b64encode]. rewrite pack3 by assumption.
      set (m := byte_val a * 65536 + byte_val b * 256 + byte_val c). digits m.
      cbn [unpack].
      destruct (b64_index_digit (m / 262144 mod 64) ltac:(apply Z.mod_pos_bound; lia))
        as [-> _].
      destruct (b64_index_digit (m / 4096 mod 64) ltac:(apply Z.mod_pos_bound; lia))
        as [-> _].
      destruct (b64_index_digit (m / 64 mod 64) ltac:(apply Z.mod_pos_bound; lia))
        as [-> ->].
      destruct (b64_index_digit (m / 1 mod 64) ltac:(apply Z.mod_pos_bound; lia))
        as [-> ->].
      rewrite IH by (cbn [List.length] in Hn; lia). cbn [app].
      rewrite <- (to_byte_val a). rewrite <- (to_byte_val b).
      rewrite <- (to_byte_val c).
      f_equal; [|f_equal; [|f_equal]]; f_equal; subst m; Z.div_mod_to_equations; lia.
Qed.

Lemma unpack_b64encode (data : list byte) : unpack (b64encode data) = data.
Proof. apply (unpack_b64encode_bounded (List.length data)). lia. Qed.

(** X9.  Two audio parts that give the same frame hold the same bytes: the
    Base64 text that reaches the client, after the quote clean-up, still
    determines the audio. *)
Theorem audio_frames_determine_bytes (d1 d2 : list byte) (t1 t2 : option str) :
  part_frames {| inline_data := Some d1; text := t1 |}
  = part_frames {| inline_data := Some d2; text := t2 |} ->
  d1 = d2.
Proof.
  unfold part_frames. cbn [inline_data].
  rewrite !clean_quotes_plain
    by (eapply Forall_impl; [apply b64encode_plain|]; intros c [H1 H2]; assumption).
  intros E. injection E as E.
  rewrite <- (unpack_b64encode d1), <- (unpack_b64encode d2), E. reflexivity.
Qed.

Lemma audio_frames_determine_bytes_witness : [x4d; x61] = [x4d; x61].
Proof.
  apply (audio_frames_determine_bytes [x4d; x61] [x4d; x61] None (Some (py "a"))).
  reflexivity.
Defined.

End AudioFacts.

(** ** How [handle_messages] and [handle_client] end *)

Section PumpFacts.
Import session Handler Pump.

Lemma scan_outcome (raised : list exn) (w : world) :
  fst (scan raised w)
  = match List.find recognised raised with
    | Some ReconnectionCompleted => RaisedInLoop ReconnectionCompleted
    | Some _ => Handled true
    | None => Handled false
    end.
Proof.
  induction raised as [|exc raised IH]; [reflexivity|].
  cbn [scan List.find].
  destruct exc; cbn [recognised]; try reflexivity;
    match goal with
    | |- context [contains "Quota exceeded" ?m] =>
        destruct (contains "Quota exceeded" m); cbn [orb fst]; [reflexivity|];
        destruct (contains "connection closed" (lower m)); cbn [fst]; [reflexivity|];
        exact IH
    end.
Qed.

Lemma scan_unrecognised (raised : list exn) (w : world) :
  existsb recognised raised = false -> snd (scan raised w) = w.
Proof.
  induction raised as [|exc raised IH]; [reflexivity|].
  cbn [existsb scan]. intros H. apply orb_false_elim in H. destruct H as [H1 H2].
  destruct exc; cbn [recognised] in H1; try discriminate H1;
    apply orb_false_elim in H1; destruct H1 as [Ha Hb]; rewrite Ha, Hb;
    apply IH, H2.
Qed.

Lemma find_recognised (raised : list exn) :
  match List.find recognised raised with
  | Some _ => existsb recognised raised = true
  | None => existsb recognised raised = false
  end.
Proof.
  induction raised as [|exc raised IH]; [reflexivity|].
  cbn [List.find existsb]. destruct (recognised exc); [reflexivity|exact IH].
Qed.

(** X10.  [handle_messages] lets an exception out only when its tasks
    failed and none of their exceptions is the restart signal or mentions
    the quota or a closed connection; what it raises then is the group of
    these exceptions, and it has sent nothing.  In every other case, the
    restart signal included, it returns normally. *)
Theorem handle_messages_raises_only_unrecognised
    (group : nat -> world -> list exn * world) (ref : nat) (w : world) :
  let raised := fst (group ref w) in
  handle_messages group ref w
  = if is_nil raised || existsb recognised raised
    then (Returned, snd (handle_messages group ref w))
    else (Raised (ExceptionGroup raised), snd (group ref w)).
Proof.
  unfold handle_messages. destruct (group ref w) as [raised w']. cbn [fst snd].
  destruct raised as [|exc raised]; [reflexivity|]. cbn [is_nil orb].
  unfold handle_messages_exit.
  pose proof (scan_outcome (exc :: raised) w') as Ho.
  pose proof (find_recognised (exc :: raised)) as Hf.
  pose proof (scan_unrecognised (exc :: raised) w') as Hw.
  destruct (scan (exc :: raised) w') as [r w'']. cbn [fst snd] in *.
  destruct (List.find recognised (exc :: raised)) as [e|].
  - rewrite Hf. destruct e; subst r; reflexivity.
  - rewrite Hf, (Hw Hf). subst r. reflexivity.
Qed.

Lemma handle_messages_no_signal
    (group : nat -> world -> list exn * world) (ref : nat) (w : world) :
  fst (handle_messages group ref w) <> Raised ReconnectionCompleted.
Proof.
  unfold handle_messages. destruct (group ref w) as [raised w'].
  apply handle_messages_never_raises_signal.
Qed.

Lemma cleanup_closes (ref : nat) (session_id : string) (w : world) :
  socket_closed (close_socket (cleanup_session ref session_id w)) = true
  /\ active_sessions (close_socket (cleanup_session ref session_id w)) !! session_id
     = None.
Proof.
  split; [reflexivity|]. unfold cleanup_session. cbn [close_socket active_sessions with_active].
  apply lookup_delete_eq.
Qed.

(** X11.  Whatever the two tasks do, [handle_client] enters
    [handle_messages] once and never a second time, and ends by removing
    the session from the active sessions and closing the client socket;
    this holds after a reconnection too, since the restart signal does not
    leave [handle_messages]. *)
Theorem handle_client_runs_the_pump_once
    (group : nat -> world -> list exn * world) (fuel : nat)
    (gemini_session : upstream) (info : base_info.BaseInfo)
    (session_id : string) (w : world) :
  exists e w',
    handle_client (handle_messages group) (S fuel) gemini_session info session_id w
    = Some ([e], w')
    /\ socket_closed w' = true
    /\ active_sessions w' !! session_id = None.
Proof.
  unfold handle_client.
  destruct (create_session session_id w) as [ref w1].
  destruct (create_rocketmq_producer _) as [p w2].
  set (w3 := update ref (set_RocketMQ (Some p)) w2).
  cbn [pump_loop app].
  pose proof (handle_messages_no_signal group ref w3) as Hno.
  destruct (handle_messages group ref w3) as [[|e] w4]; cbn [fst] in Hno.
  - eexists _, _. split; [reflexivity|]. apply cleanup_closes.
  - destruct e as [|m|m|  |m|excs]; [contradiction| | | | |];
      match goal with
      | |- context [if ?b then _ else _] => destruct b
      end;
      try (eexists _, _; split; [reflexivity|]; apply cleanup_closes);
      match goal with
      | |- context [if ?b then _ else _] => destruct b
      end;
      eexists _, _; (split; [reflexivity|]); apply cleanup_closes.
Qed.

End PumpFacts.

(** ** What follows a reconnection *)

Section ReconnectionOutcome.
Import session Handler Pump.






End ReconnectionOutcome.

(** ** Messages from the client *)

Section ClientMessageFacts.
Import ClientMessages.

(** X12.  A message that has a type but no data, or data that is false
    (null, false, 0, an empty string, list or object), is answered with the
    text frame "data is null" and ends the coroutine, whatever its type
    ("end" and "state" included): nothing is passed upstream and the
    messages after it are not read. *)
Theorem typed_message_without_data_ends_the_reader
    (members : list (str * json)) (type : json) (rest : list (option json)) :
  get (py "type") members = Some type ->
  truthy (get (py "data") members) = false ->
  handle_client_messages (Some (JObj members) :: rest)
  = ([ToClient data_is_null], Returned).
Proof.
  intros Ht Hd. cbn [handle_client_messages on_message].
  rewrite Ht. unfold dispatch. rewrite Hd. reflexivity.
Qed.

Lemma typed_message_without_data_ends_the_reader_witness :
  handle_client_messages
    [Some (JObj [(py "type", JStr (py "end"))]); audio_message "AAAA"]
  = ([ToClient data_is_null], Returned).
Proof.
  apply (typed_message_without_data_ends_the_reader
           [(py "type", JStr (py "end"))] (JStr (py "end")) [audio_message "AAAA"]);
    reflexivity.
Defined.

Lemma on_message_upstream (message : option json) :
  match snd (on_message message) with
  | Continue | Restart =>
      List.filter to_upstream (fst (on_message message))
      = collect forwarded [message]
  | _ => List.filter to_upstream (fst (on_message message)) = []
  end.
Proof.
  destruct message as [[| | |s|items|members]|]; cbn [on_message collect forwarded];
    try reflexivity.
  - destruct (substring (py "type") s); reflexivity.
  - destruct (existsb _ items); reflexivity.
  - destruct (get (py "type") members) as [t|] eqn:Ht.
    + unfold dispatch. rewrite Ht.
      destruct (truthy (get (py "data") members)); cbn [negb]; [|reflexivity].
      destruct (is_str "audio" (Some t)); [reflexivity|].
      destruct (is_str "image" (Some t)); [reflexivity|].
      destruct (is_str "text" (Some t)); [reflexivity|].
      destruct (is_str "end" (Some t)); [reflexivity|].
      destruct (is_str "state" (Some t)); [|reflexivity].
      destruct (is_str "stop" _); [reflexivity|].
      destruct (is_str "reconnect" _); reflexivity.
    + cbn [fst snd List.filter].
      destruct (truthy (get (py "data") members)); reflexivity.
Qed.

Lemma collect_app {A B : Type} (f : A -> option B) (l1 l2 : list A) :
  collect f (l1 ++ l2) = collect f l1 ++ collect f l2.
Proof.
  induction l1 as [|x l1 IH]; [reflexivity|]. cbn [app collect].
  destruct (f x); [cbn [app]; rewrite IH|]; auto.
Qed.

(** X13.  What reaches the upstream session is, in the order of arrival
    and one call per message, the audio, image and text messages of a
    prefix of what the client has sent: the whole of it as long as the
    coroutine is reading, and the messages before the one that ended it
    otherwise.  No message is passed on twice, out of order or changed. *)
Theorem upstream_receives_the_messages_in_order (messages : list (option json)) :
  exists n,
    (n <= List.length messages)%nat
    /\ List.filter to_upstream (fst (handle_client_messages messages))
       = collect forwarded (firstn n messages)
    /\ (snd (handle_client_messages messages) = Waiting ->
        n = List.length messages).
Proof.
  induction messages as [|m rest (n & Hn & Hacts & Hall)].
  - exists 0%nat. repeat split; auto.
  - cbn [handle_client_messages].
    pose proof (on_message_upstream m) as Hm.
    destruct (on_message m) as [acts nxt]. cbn [fst snd] in Hm.
    destruct (handle_client_messages rest) as [acts' st]. cbn [fst snd] in *.
    destruct nxt.
    1, 2: exists (S n); cbn [List.length firstn fst snd];
      (split; [lia|]); split;
      [ rewrite List.filter_app, Hm, Hacts;
        change (m :: firstn n rest) with ([m] ++ firstn n rest);
        rewrite collect_app; reflexivity
      | intros H; rewrite (Hall H); reflexivity ].
    1, 2: exists 0%nat; cbn [List.length firstn fst snd collect];
      (split; [lia|]); split; [exact Hm|discriminate].
Qed.

End ClientMessageFacts.

(** ** A reconnection that fails *)

Section FailedReconnectionFacts.
Import session Handler.



End FailedReconnectionFacts.

(** ** The gate over a sequence of connections *)

Section GateRunFacts.
Import Gate GateRuns.

Lemma record_attempt_other (self : PortScanProtector) (ip ip' : string) (now : Q) :
  ip' <> ip ->
  attempts_of (snd (record_attempt self ip now)) ip' = attempts_of self ip'
  /\ banned_ips (snd (record_attempt self ip now)) !! ip' = banned_ips self !! ip'.
Proof.
  intros Hne. unfold record_attempt, attempts_of.
  destruct (_ <? _)%nat; cbn [snd connection_attempts banned_ips];
    rewrite ?lookup_insert_ne by congruence; auto.
Qed.

Lemma record_attempt_settings (self : PortScanProtector) (ip : string) (now : Q) :
  scan_threshold (snd (record_attempt self ip now)) = scan_threshold self
  /\ ban_duration (snd (record_attempt self ip now)) = ban_duration self.
Proof. unfold record_attempt. destruct (_ <? _)%nat; auto. Qed.

Lemma should_accept_other (self : PortScanProtector) (a : address) (now : Q)
    (ip : string) :
  ip <> ip_of a ->
  attempts_of (snd (should_accept self a now)) ip = attempts_of self ip
  /\ banned_ips (snd (should_accept self a now)) !! ip = banned_ips self !! ip.
Proof.
  intros Hne. unfold should_accept.
  destruct (banned_ips self !! ip_of a) as [until|] eqn:Hb.
  - destruct (Qlt_bool now until); [auto|].
    destruct (record_attempt_other
                {| connection_attempts := connection_attempts self;
                   banned_ips := delete (ip_of a) (banned_ips self);
                   scan_threshold := scan_threshold self;
                   ban_duration := ban_duration self |} (ip_of a) ip now Hne)
      as [H1 H2].
    rewrite H1, H2. cbn [banned_ips]. rewrite lookup_delete_ne by congruence. auto.
  - apply record_attempt_other, Hne.
Qed.

(** X15.  A connection from one address changes neither the attempts on
    record nor the ban of any other address. *)
Theorem gate_keeps_addresses_apart (self : PortScanProtector) (a : address)
    (now : Q) (ip : string) :
  ip <> ip_of a ->
  attempts_of (snd (should_accept self a now)) ip = attempts_of self ip
  /\ banned_ips (snd (should_accept self a now)) !! ip = banned_ips self !! ip.
Proof. apply should_accept_other. Qed.

Lemma gate_keeps_addresses_apart_witness :
  attempts_of (snd (should_accept after_ten (HostPort "203.0.113.7" 40000) 11))
    "198.51.100.2"
  = attempts_of after_ten "198.51.100.2"
  /\ banned_ips (snd (should_accept after_ten (HostPort "203.0.113.7" 40000) 11))
       !! "198.51.100.2"
     = banned_ips after_ten !! "198.51.100.2".
Proof.
  apply (gate_keeps_addresses_apart after_ten (HostPort "203.0.113.7" 40000) 11
           "198.51.100.2").
  discriminate.
Defined.

Lemma should_accept_settings (self : PortScanProtector) (a : address) (now : Q) :
  scan_threshold (snd (should_accept self a now)) = scan_threshold self
  /\ ban_duration (snd (should_accept self a now)) = ban_duration self.
Proof.
  unfold should_accept. destruct (banned_ips self !! ip_of a) as [until|].
  - destruct (Qlt_bool now until); [auto|].
    match goal with
    | |- context [record_attempt ?s ?i ?n] => exact (record_attempt_settings s i n)
    end.
  - apply record_attempt_settings.
Qed.

Lemma filter_expired (now : Q) (l : list Q) :
  Forall (fun t => (t + 300 <= now)%Q) l -> List.filter (in_window now) l = [].
Proof.
  induction 1 as [|t l Ht _ IH]; [reflexivity|]. cbn [List.filter].
  destruct (in_window now t) eqn:E; [|exact IH].
  apply in_window_spec in E. lra.
Qed.

Lemma Forall_filter_keeps {A : Type} (P : A -> Prop) (f : A -> bool) (l : list A) :
  Forall P l -> Forall P (List.filter f l).
Proof.
  induction 1 as [|x l Hx _ IH]; cbn [List.filter]; [constructor|].
  destruct (f x); [constructor; assumption|exact IH].
Qed.

Lemma Forall_weaken {A : Type} (P Q : A -> Prop) (l : list A) :
  (forall x, P x -> Q x) -> Forall P l -> Forall Q l.
Proof. intros H. induction 1; constructor; auto. Qed.

Lemma Forall_snoc {A : Type} (P : A -> Prop) (l : list A) (x : A) :
  Forall P l -> P x -> Forall P (l ++ [x]).
Proof. induction 1; cbn [app]; repeat constructor; auto. Qed.

(** [record_attempt] for an address without a ban. *)
Lemma record_attempt_inv (last now : Q) (self : PortScanProtector) (ip : string) :
  (last <= now)%Q ->
  scan_threshold self = 10%nat -> ban_duration self = 1800%Q ->
  Forall (fun t => (t <= last)%Q) (attempts_of self ip) ->
  (List.length (attempts_of self ip) <= 10)%nat ->
  let self' := snd (record_attempt self ip now) in
  Forall (fun t => (t <= now)%Q) (attempts_of self' ip)
  /\ (List.length (attempts_of self' ip) <= 11)%nat
  /\ ((10 < List.length (attempts_of self' ip))%nat ->
      exists until, banned_ips self' !! ip = Some until)
  /\ (forall until, banned_ips self' !! ip = Some until ->
      banned_ips self !! ip = Some until
      \/ Forall (fun t => (t + 1800 <= until)%Q) (attempts_of self' ip)).
Proof.
  intros Hnow Hthr Hban Hold Hlen. cbv zeta. rewrite attempts_of_record.
  assert (Hall : Forall (fun t => (t <= now)%Q)
                   (List.filter (in_window now) (attempts_of self ip ++ [now]))).
  { apply Forall_filter_keeps, Forall_snoc; [|lra].
    eapply Forall_weaken; [|exact Hold]. intros t Ht. cbv beta in *. lra. }
  assert (Hle : (List.length (List.filter (in_window now) (attempts_of self ip ++ [now]))
                 <= 11)%nat).
  { etransitivity; [apply List.filter_length_le|]. rewrite List.length_app. cbn. lia. }
  split; [exact Hall|]. split; [exact Hle|].
  unfold record_attempt. rewrite Hthr, Hban.
  destruct (10 <? _)%nat eqn:E; cbn [snd banned_ips].
  - split.
    + intros _. rewrite lookup_insert_eq. eauto.
    + intros ban_end. rewrite lookup_insert_eq. intros [= <-]. right.
      eapply Forall_weaken; [|exact Hall]. intros t Ht. cbv beta in *. lra.
  - apply Nat.ltb_ge in E. split; [intros H; lia|]. intros ban_end H. left. exact H.
Qed.

Lemma should_accept_inv (last now : Q) (self : PortScanProtector) (a : address) :
  (last <= now)%Q -> gate_inv last self ->
  gate_inv now (snd (should_accept self a now)).
Proof.
  intros Hnow (Hthr & Hban & Hips).
  destruct (should_accept_settings self a now) as [Hs1 Hs2].
  split; [congruence|]. split; [congruence|]. intros ip.
  destruct (Hips ip) as (Hpast & Hlen & Hmany & Hend).
  destruct (decide (ip = ip_of a)) as [->|Hne].
  2: { destruct (should_accept_other self a now ip Hne) as [-> ->].
       repeat split; auto.
       eapply Forall_weaken; [|exact Hpast]. intros t Ht. cbv beta in *. lra. }
  unfold should_accept.
  destruct (banned_ips self !! ip_of a) as [until|] eqn:Hb.
  - destruct (Qlt_bool now until) eqn:Hlt; cbn [snd].
    + rewrite Hb. repeat split; auto.
      eapply Forall_weaken; [|exact Hpast]. intros t Ht. cbv beta in *. lra.
    + assert (Huntil : (until <= now)%Q).
      { unfold Qlt_bool in Hlt. apply negb_false_iff, Qle_bool_iff in Hlt. exact Hlt. }
      set (self1 := {| connection_attempts := connection_attempts self;
                       banned_ips := delete (ip_of a) (banned_ips self);
                       scan_threshold := scan_threshold self;
                       ban_duration := ban_duration self |}).
      assert (Hkept : attempts_of (snd (record_attempt self1 (ip_of a) now)) (ip_of a)
                      = [now]).
      { rewrite attempts_of_record. change (attempts_of self1 (ip_of a))
          with (attempts_of self (ip_of a)).
        rewrite List.filter_app, filter_expired.
        - cbn [List.filter app]. rewrite in_window_now. reflexivity.
        - eapply Forall_weaken; [|exact (Hend until eq_refl)].
          intros t Ht. cbv beta in *. lra. }
      assert (Hnone : banned_ips (snd (record_attempt self1 (ip_of a) now)) !! ip_of a
                      = None).
      { unfold record_attempt.
        change (attempts_of self1 (ip_of a)) with (attempts_of self (ip_of a)).
        rewrite List.filter_app, filter_expired.
        - cbn [List.filter app]. rewrite in_window_now.
          change (scan_threshold self1) with (scan_threshold self). rewrite Hthr.
          cbn [List.length Nat.ltb Nat.leb snd banned_ips]. apply lookup_delete_eq.
        - eapply Forall_weaken; [|exact (Hend until eq_refl)].
          intros t Ht. cbv beta in *. lra. }
      rewrite Hkept, Hnone. cbn [List.length].
      repeat split; try lia; try discriminate.
      repeat constructor. lra.
  - assert (Hten : (List.length (attempts_of self (ip_of a)) <= 10)%nat).
    { destruct (Nat.le_gt_cases (List.length (attempts_of self (ip_of a))) 10) as [H|H];
        [exact H|]. destruct (Hmany H) as [u Hu]. congruence. }
    destruct (record_attempt_inv last now self (ip_of a) Hnow Hthr Hban Hpast Hten)
      as (H1 & H2 & H3 & H4).
    repeat split; auto. intros ban_end Hu.
    destruct (H4 ban_end Hu) as [H|H]; [congruence|exact H].
Qed.

Lemma new_inv (last : Q) : gate_inv last new.
Proof.
  repeat split; unfold attempts_of; cbn [new connection_attempts banned_ips];
    rewrite ?lookup_empty; cbn; try constructor; try lia; intros; discriminate.
Qed.

Lemma serve_inv (calls : list (address * Q)) :
  forall last self,
    gate_inv last self -> ascending last calls ->
    gate_inv (last_reading last calls) (serve self calls).
Proof.
  induction calls as [|[a now] calls IH]; intros last self Hinv Hasc; [exact Hinv|].
  destruct Hasc as [Hnow Hasc]. cbn [serve last_reading List.fold_left snd].
  apply IH; [|exact Hasc]. eapply should_accept_inv; eassumption.
Qed.

Lemma ascending_app (calls : list (address * Q)) (a : address) (now : Q) :
  forall last,
    ascending last (calls ++ [(a, now)]) ->
    ascending last calls /\ (last_reading last calls <= now)%Q.
Proof.
  induction calls as [|[a' t] calls IH]; intros last H; cbn [app ascending] in *.
  - split; [exact I|]. cbn. tauto.
  - destruct H as [H1 H2]. destruct (IH t H2) as [H3 H4].
    cbn [last_reading List.fold_left snd]. auto.
Qed.

(** X16.  As long as the clock does not go back, a protector that started
    empty never holds more than eleven attempts for an address. *)
Theorem gate_records_at_most_eleven (start : Q) (calls : list (address * Q))
    (ip : string) :
  ascending start calls ->
  (List.length (attempts_of (serve new calls) ip) <= 11)%nat.
Proof.
  intros Hasc.
  destruct (serve_inv calls start new (new_inv start) Hasc) as (_ & _ & Hips).
  apply Hips.
Qed.

Lemma gate_records_at_most_eleven_witness :
  (List.length (attempts_of (serve new scan_then_return) "203.0.113.7") <= 11)%nat.
Proof.
  apply (gate_records_at_most_eleven 0 scan_then_return "203.0.113.7").
  vm_compute. intuition discriminate.
Defined.

(** X17.  As long as the clock does not go back, a ban ends when its time
    is up: the first connection of a banned address at or after the end of
    its ban is admitted, the ban is lifted, and that connection is the only
    attempt left on record for the address. *)
Theorem gate_admits_after_the_ban (start : Q) (calls : list (address * Q))
    (a : address) (now until : Q) :
  ascending start (calls ++ [(a, now)]) ->
  banned_ips (serve new calls) !! ip_of a = Some until ->
  (until <= now)%Q ->
  let '(accepted, self') := should_accept (serve new calls) a now in
  accepted = true
  /\ banned_ips self' !! ip_of a = None
  /\ attempts_of self' (ip_of a) = [now].
Proof.
  intros Hasc Hb Huntil.
  destruct (ascending_app calls a now start Hasc) as [Hasc' Hlast].
  destruct (serve_inv calls start new (new_inv start) Hasc') as (Hthr & Hban & Hips).
  destruct (Hips (ip_of a)) as (_ & _ & _ & Hend).
  set (self := serve new calls) in *.
  unfold should_accept. rewrite Hb.
  assert (Hlt : Qlt_bool now until = false).
  { unfold Qlt_bool. apply negb_false_iff, Qle_bool_iff. exact Huntil. }
  rewrite Hlt.
  set (self1 := {| connection_attempts := connection_attempts self;
                   banned_ips := delete (ip_of a) (banned_ips self);
                   scan_threshold := scan_threshold self;
                   ban_duration := ban_duration self |}).
  assert (Hold : List.filter (in_window now) (attempts_of self1 (ip_of a)) = []).
  { apply filter_expired. eapply Forall_weaken; [|exact (Hend until Hb)].
    intros t Ht. cbv beta in *. lra. }
  pose proof (attempts_of_record self1 (ip_of a) now) as Hrec.
  unfold record_attempt in *.
  rewrite List.filter_app, Hold in *. cbn [List.filter app] in *.
  rewrite in_window_now in *.
  change (scan_threshold self1) with (scan_threshold self) in *. rewrite Hthr in *.
  cbn [List.length Nat.ltb Nat.leb snd banned_ips] in *.
  split; [reflexivity|]. split; [apply lookup_delete_eq|exact Hrec].
Qed.

Lemma gate_admits_after_the_ban_witness :
  let '(accepted, self') :=
    should_accept (serve new scan_then_return) (HostPort "203.0.113.7" 40000) 1811 in
  accepted = true
  /\ banned_ips self' !! "203.0.113.7" = None
  /\ attempts_of self' "203.0.113.7" = [1811%Q].
Proof.
  apply (gate_admits_after_the_ban 0 scan_then_return
           (HostPort "203.0.113.7" 40000) 1811 1811).
  - vm_compute. intuition discriminate.
  - vm_compute. reflexivity.
  - vm_compute. discriminate.
Defined.

End GateRunFacts.

(** ** The table of readiness futures *)

Section FutureFacts.
Import session Handshake.

Lemma fresh_future (sv : server) : futures sv !! fresh (dom (futures sv)) = None.
Proof. apply not_elem_of_dom, is_fresh. Qed.

(** X18.  A new session future is a future of its own, pending, and is
    what [get_session_future] returns for its session id; the futures and
    the entries of every other session id are as they were. *)
Theorem new_session_future_is_pending (session_id : string) (sv : server) :
  exists fut,
    get_session_future session_id (create_session_future session_id sv) = Some fut
    /\ futures sv !! fut = None
    /\ futures (create_session_future session_id sv) !! fut = Some Pending
    /\ (forall other, other <> session_id ->
          get_session_future other (create_session_future session_id sv)
          = get_session_future other sv)
    /\ (forall fut' f, futures sv !! fut' = Some f ->
          futures (create_session_future session_id sv) !! fut' = Some f).
Proof.
  exists (fresh (dom (futures sv))).
  unfold get_session_future, create_session_future. cbn [session_futures futures].
  pose proof (fresh_future sv) as Hf.
  split; [apply lookup_insert_eq|]. split; [exact Hf|].
  split; [apply lookup_insert_eq|]. split.
  - intros other Hne. apply lookup_insert_ne. congruence.
  - intros fut' f H. rewrite lookup_insert_ne; [exact H|]. congruence.
Qed.

Lemma set_unless_done_settled (fut fut' : nat) (f f' : future) (sv : server) :
  futures sv !! fut = Some f -> is_done f = true ->
  futures (set_unless_done fut' f' sv) !! fut = Some f.
Proof.
  intros H Hd. unfold set_unless_done.
  destruct (futures sv !! fut') as [[| |]|] eqn:E; try exact H.
  cbn [futures]. rewrite lookup_insert_ne; [exact H|].
  intros ->. rewrite H in E. injection E as ->. discriminate.
Qed.

(** X19.  A future that holds a result, or was cancelled, keeps its state:
    no later completion, cancellation or creation, for whatever session
    id, changes it. *)
Theorem settled_future_keeps_its_state (sv : server) (fut : nat) (f : future)
    (session_id : string) (r : prepared) :
  futures sv !! fut = Some f -> is_done f = true ->
  futures (complete_session_future session_id r sv) !! fut = Some f
  /\ futures (cancel_session_future session_id sv) !! fut = Some f
  /\ futures (create_session_future session_id sv) !! fut = Some f.
Proof.
  intros H Hd. repeat split.
  - unfold complete_session_future.
    destruct (session_futures sv !! session_id) as [fut'|]; cbn [pop futures];
      [apply set_unless_done_settled; assumption|exact H].
  - unfold cancel_session_future.
    destruct (session_futures sv !! session_id) as [fut'|]; cbn [pop futures];
      [apply set_unless_done_settled; assumption|exact H].
  - unfold create_session_future. cbn [futures].
    rewrite lookup_insert_ne; [exact H|].
    intros E. rewrite <- E, fresh_future in H. discriminate.
Qed.

Lemma settled_future_keeps_its_state_witness :
  let r := {| prepared_session := Some 7%nat; success := true;
              prepared_base_info := Handler.some_info |} in
  let r' := {| prepared_session := None; success := false;
               prepared_base_info := Handler.some_info |} in
  let sv := {| futures := {[ 0%nat := Result r ]};
               session_futures := {[ "a"%string := 0%nat ]} |} in
  futures (complete_session_future "a" r' sv) !! 0%nat = Some (Result r)
  /\ futures (cancel_session_future "a" sv) !! 0%nat = Some (Result r)
  /\ futures (create_session_future "a" sv) !! 0%nat = Some (Result r).
Proof.
  cbv zeta.
  apply (settled_future_keeps_its_state
           {| futures := {[ 0%nat := Result
                              {| prepared_session := Some 7%nat; success := true;
                                 prepared_base_info := Handler.some_info |} ]};
              session_futures := {[ "a"%string := 0%nat ]} |}
           0%nat _ "a"
           {| prepared_session := None; success := false;
              prepared_base_info := Handler.some_info |});
    reflexivity.
Defined.

(** X20.  A result that is delivered before the handler has looked its
    future up is lost.  [complete_session_future] takes the entry out of
    the table, so the handler finds no future: it sends the ready frame,
    ends with the logged [RuntimeError] "Session future not found", never
    runs [handle_client] and sends no close frame, although the
    preparation has succeeded. *)
Theorem result_before_the_handler_is_lost (session_id : string) (r : prepared)
    (bg : background) (sv : server) :
  fst (safe_ws_handler session_id bg
         (complete_session_future session_id r
            (create_session_future session_id sv)))
  = ([Send (ready_frame session_id)],
     Logged (RuntimeError "Session future not found")).
Proof.
  unfold safe_ws_handler, get_session_future, complete_session_future.
  unfold create_session_future at 1. cbn [session_futures].
  rewrite lookup_insert_eq. unfold pop at 1. cbn [session_futures].
  assert (E : session_futures
                (set_unless_done (fresh (dom (futures sv))) (Result r)
                   (create_session_future session_id sv))
              = <[session_id := fresh (dom (futures sv))]> (session_futures sv)).
  { unfold set_unless_done. destruct (_ !! _) as [[| |]|]; reflexivity. }
  rewrite E, lookup_delete_eq. reflexivity.
Qed.

Lemma set_unless_done_table (fut : nat) (f : future) (sv : server) :
  session_futures (set_unless_done fut f sv) = session_futures sv.
Proof. unfold set_unless_done. destruct (_ !! _) as [[| |]|]; reflexivity. Qed.

Lemma set_unless_done_not_pending (fut : nat) (f : future) (sv : server) :
  is_done f = true -> futures (set_unless_done fut f sv) !! fut <> Some Pending.
Proof.
  intros Hd. unfold set_unless_done.
  destruct (futures sv !! fut) as [[| |]|] eqn:E; cbn [futures]; rewrite ?E;
    try discriminate.
  rewrite lookup_insert_eq. intros [= ->]. discriminate.
Qed.

Lemma cancel_table (session_id : string) (sv : server) :
  session_futures (cancel_session_future session_id sv)
  = delete session_id (session_futures sv).
Proof.
  unfold cancel_session_future.
  destruct (session_futures sv !! session_id); [rewrite set_unless_done_table|];
    reflexivity.
Qed.

Lemma complete_table (session_id : string) (r : prepared) (sv : server) :
  session_futures (complete_session_future session_id r sv)
  = delete session_id (session_futures sv).
Proof.
  unfold complete_session_future.
  destruct (session_futures sv !! session_id); cbn [pop session_futures];
    [rewrite set_unless_done_table|]; reflexivity.
Qed.

Lemma set_unless_done_keeps_settled (fut fut' : nat) (f : future) (sv : server) :
  futures sv !! fut <> Some Pending ->
  futures (set_unless_done fut' f sv) !! fut <> Some Pending.
Proof.
  intros H. unfold set_unless_done.
  destruct (futures sv !! fut') as [[| |]|] eqn:E; try exact H.
  cbn [futures]. destruct (decide (fut = fut')) as [->|Hne].
  - congruence.
  - rewrite lookup_insert_ne by congruence. exact H.
Qed.

Lemma wait_for_table (fut : nat) (timeout : Q) (session_id : string)
    (bg : background) (sv : server) :
  delete session_id (session_futures (snd (wait_for fut timeout session_id bg sv)))
  = delete session_id (session_futures sv).
Proof.
  unfold wait_for.
  destruct (futures sv !! fut) as [[| |]|]; cbn [snd]; try reflexivity.
  destruct bg as [t r|]; [destruct (Qlt_bool t timeout)|]; cbn [snd];
    rewrite ?set_unless_done_table, ?complete_table, ?delete_delete_eq; reflexivity.
Qed.

Lemma wait_for_settles (fut : nat) (timeout : Q) (session_id : string)
    (bg : background) (sv : server) :
  session_futures sv !! session_id = Some fut ->
  futures (snd (wait_for fut timeout session_id bg sv)) !! fut <> Some Pending.
Proof.
  intros Hid. unfold wait_for.
  destruct (futures sv !! fut) as [[| |]|] eqn:E; cbn [snd]; rewrite ?E;
    try discriminate.
  assert (Hc : forall r, futures (complete_session_future session_id r sv) !! fut
                         <> Some Pending).
  { intros r. unfold complete_session_future. rewrite Hid. cbn [pop futures].
    apply set_unless_done_not_pending. reflexivity. }
  destruct bg as [t r|]; [destruct (Qlt_bool t timeout)|]; cbn [snd];
    [apply Hc| |]; apply set_unless_done_not_pending; reflexivity.
Qed.

Lemma cancel_keeps_settled (session_id : string) (fut : nat) (sv : server) :
  futures sv !! fut <> Some Pending ->
  futures (cancel_session_future session_id sv) !! fut <> Some Pending.
Proof.
  intros H. unfold cancel_session_future.
  destruct (session_futures sv !! session_id);
    [apply set_unless_done_keeps_settled|]; exact H.
Qed.

(** X21.  However [safe_ws_handler] ends, it leaves no entry for its
    session id in the table and no pending future behind it, and it leaves
    the entries of the other session ids alone. *)
Theorem handler_leaves_no_future_behind (session_id : string) (bg : background)
    (sv : server) :
  let sv' := snd (safe_ws_handler session_id bg sv) in
  get_session_future session_id sv' = None
  /\ (forall fut, get_session_future session_id sv = Some fut ->
        futures sv' !! fut <> Some Pending)
  /\ (forall other, other <> session_id ->
        get_session_future other sv' = get_session_future other sv).
Proof.
  cbv zeta. unfold safe_ws_handler, get_session_future.
  destruct (session_futures sv !! session_id) as [fut|] eqn:Hid.
  - pose proof (wait_for_table fut 5 session_id bg sv) as Ht.
    pose proof (wait_for_settles fut 5 session_id bg sv Hid) as Hs.
    destruct (wait_for fut 5 session_id bg sv) as [res sv1]. cbn [snd] in Ht, Hs.
    assert (Hend : forall (ev : list event) (en : ending),
              let sv' := snd (ev, en, cancel_session_future session_id sv1) in
              session_futures sv' !! session_id = None
              /\ (forall fut0, Some fut = Some fut0 -> futures sv' !! fut0 <> Some Pending)
              /\ (forall other, other <> session_id ->
                    session_futures sv' !! other = session_futures sv !! other)).
    { intros ev en. cbn [snd]. rewrite cancel_table, Ht.
      split; [apply lookup_delete_eq|]. split.
      - intros fut0 [= <-]. apply cancel_keeps_settled, Hs.
      - intros other Hne. apply lookup_delete_ne. congruence. }
    destruct res as [[| |]|r]; try apply Hend.
    destruct (success r), (prepared_session r); apply Hend.
  - cbn [snd]. rewrite cancel_table.
    split; [apply lookup_delete_eq|]. split; [discriminate|].
    intros other Hne. apply lookup_delete_ne. congruence.
Qed.

End FutureFacts.

(** ** The permits and the lock of the pool *)

Section PoolAccountFacts.
Import Pool PoolAccounts.

Lemma count_permit_creators (base n : Z) :
  count holds_permit (creators base n) = 0%nat.
Proof.
  apply count_zero. intros i t Hi.
  destruct (creators_lookup _ _ _ _ Hi) as [index ->]. reflexivity.
Qed.

(** Moving a task from one point to another. *)
Lemma accounts_goto (K : nat) (ts : list task) (i : nat) (t t' : task)
    (sm sm' : nat) (lk lk' : bool) :
  ts !! i = Some t ->
  (sm + count holds_permit ts)%nat = K ->
  count is_gather ts = Nat.b2n lk ->
  (sm' + Nat.b2n (holds_permit t') = sm + Nat.b2n (holds_permit t))%nat ->
  (Nat.b2n lk' + Nat.b2n (is_gather t) = Nat.b2n lk + Nat.b2n (is_gather t'))%nat ->
  (sm' + count holds_permit (<[i := t']> ts))%nat = K
  /\ count is_gather (<[i := t']> ts) = Nat.b2n lk'.
Proof.
  intros Hi Hs Hg Hs' Hg'.
  pose proof (count_insert holds_permit ts i t t' Hi).
  pose proof (count_insert is_gather ts i t t' Hi). lia.
Qed.

Lemma accounts_spawn (K : nat) (ts new : list task) (sm : nat) (lk : bool) :
  count holds_permit new = 0%nat -> count is_gather new = 0%nat ->
  (sm + count holds_permit ts)%nat = K ->
  count is_gather ts = Nat.b2n lk ->
  (sm + count holds_permit (ts ++ new))%nat = K
  /\ count is_gather (ts ++ new) = Nat.b2n lk.
Proof. intros H1 H2 Hs Hg. rewrite !count_app. lia. Qed.

Lemma gather_holds_lock (ts : list task) (i : nat) (ids : list nat) (lk : bool) :
  ts !! i = Some (EnsureGather ids) -> count is_gather ts = Nat.b2n lk -> lk = true.
Proof.
  intros Hi Hg. pose proof (count_pos is_gather ts i _ Hi eq_refl).
  destruct lk; [reflexivity|cbn in Hg; lia].
Qed.

Ltac accounts_step Hi HA :=
  destruct HA as [Hs Hg]; cbn [sem tasks locked] in Hs, Hg;
  first
    [ eapply accounts_goto; [exact Hi|exact Hs|exact Hg|cbn; lia|cbn; lia]
    | eapply accounts_goto;
        [ rewrite lookup_app_l; [exact Hi|eapply lookup_lt_Some, Hi]
        | rewrite count_app, ?count_permit_creators, ?count_single;
          cbn [holds_permit Nat.b2n]; rewrite Nat.add_0_r; exact Hs
        | rewrite count_app, ?count_gather_creators, ?count_single;
          cbn [is_gather Nat.b2n]; rewrite Nat.add_0_r; exact Hg
        | cbn; lia | cbn; lia ] ].

Lemma step_accounts (K : nat) (l : label) (cfg cfg' : config) :
  accounts K cfg -> step l cfg = Some cfg' -> accounts K cfg'.
Proof.
  intros HA Hstep. destruct cfg as [P B q lk sm sh bg ts nc cl].
  unfold accounts in *. cbn [sem tasks locked] in HA.
  destruct l as [|c| | |i ok];
    cbn -[Nat.ltb Z.geb Z.ltb Z.max Z.min Z.div Z.sub Z.add Z.of_nat Z.to_nat seq count Nat.add Nat.b2n] in Hstep.
  1-4: inversion Hstep; subst; cbn [sem tasks locked spawn with_tasks];
       destruct HA as [Hs Hg]; apply accounts_spawn; auto.
  destruct (ts !! i) as [t|] eqn:Hi; [|discriminate].
  destruct t;
    cbn -[Nat.ltb Z.geb Z.ltb Z.max Z.min Z.div Z.sub Z.add Z.of_nat Z.to_nat seq count Nat.add Nat.b2n] in Hstep;
    try discriminate.
  - (* CreateStart *)
    destruct sh; [|destruct (0 <? sm)%nat eqn:E; [apply Nat.ltb_lt in E|]];
      inversion Hstep; subst;
      cbn -[Nat.ltb Z.geb Z.ltb Z.max Z.min Z.div Z.sub Z.add Z.of_nat Z.to_nat seq count Nat.add Nat.b2n];
      destruct HA as [Hs Hg];
      (eapply accounts_goto; [exact Hi|exact Hs|exact Hg|cbn; lia|cbn; lia]).
  - (* CreateWaitSem *)
    destruct (0 <? sm)%nat eqn:E; [apply Nat.ltb_lt in E|discriminate].
    inversion Hstep; subst;
      cbn -[Nat.ltb Z.geb Z.ltb Z.max Z.min Z.div Z.sub Z.add Z.of_nat Z.to_nat seq count Nat.add Nat.b2n].
    destruct HA as [Hs Hg].
    eapply accounts_goto; [exact Hi|exact Hs|exact Hg|cbn; lia|cbn; lia].
  - (* CreateInThread *)
    destruct ok; inversion Hstep; subst;
      cbn -[Nat.ltb Z.geb Z.ltb Z.max Z.min Z.div Z.sub Z.add Z.of_nat Z.to_nat seq count Nat.add Nat.b2n];
      destruct HA as [Hs Hg];
      (eapply accounts_goto; [exact Hi|exact Hs|exact Hg|cbn; lia|cbn; lia]).
  - (* EnsureStart *)
    destruct sh; [|destruct lk];
      [| |unfold ensure_locked in Hstep;
          cbn -[Nat.ltb Z.geb Z.ltb Z.max Z.min Z.div Z.sub Z.add Z.of_nat Z.to_nat seq count Nat.add Nat.b2n] in Hstep;
          destruct (_ >=? _)];
      inversion Hstep; subst;
      cbn -[Nat.ltb Z.geb Z.ltb Z.max Z.min Z.div Z.sub Z.add Z.of_nat Z.to_nat seq count Nat.add Nat.b2n];
      accounts_step Hi HA.
  - (* EnsureWaitLock *)
    destruct lk; [discriminate|].
    unfold ensure_locked in Hstep.
    cbn -[Nat.ltb Z.geb Z.ltb Z.max Z.min Z.div Z.sub Z.add Z.of_nat Z.to_nat seq count Nat.add Nat.b2n] in Hstep.
    destruct (_ >=? _); inversion Hstep; subst;
      cbn -[Nat.ltb Z.geb Z.ltb Z.max Z.min Z.div Z.sub Z.add Z.of_nat Z.to_nat seq count Nat.add Nat.b2n];
      accounts_step Hi HA.
  - (* EnsureGather *)
    destruct (forallb _ ids); [|discriminate].
    inversion Hstep; subst;
      cbn -[Nat.ltb Z.geb Z.ltb Z.max Z.min Z.div Z.sub Z.add Z.of_nat Z.to_nat seq count Nat.add Nat.b2n].
    destruct HA as [Hs Hg]. pose proof (gather_holds_lock _ _ _ _ Hi Hg) as ->.
    eapply accounts_goto; [exact Hi|exact Hs|exact Hg|cbn; lia|cbn; lia].
  - (* GetStart *)
    destruct sh; [|destruct q as [|c q]]; inversion Hstep; subst;
      cbn -[Nat.ltb Z.geb Z.ltb Z.max Z.min Z.div Z.sub Z.add Z.of_nat Z.to_nat seq count Nat.add Nat.b2n];
      accounts_step Hi HA.
  - (* GetInThread *)
    destruct ok; inversion Hstep; subst;
      cbn -[Nat.ltb Z.geb Z.ltb Z.max Z.min Z.div Z.sub Z.add Z.of_nat Z.to_nat seq count Nat.add Nat.b2n];
      accounts_step Hi HA.
  - (* ReturnStart *)
    destruct sh; inversion Hstep; subst;
      cbn -[Nat.ltb Z.geb Z.ltb Z.max Z.min Z.div Z.sub Z.add Z.of_nat Z.to_nat seq count Nat.add Nat.b2n];
      accounts_step Hi HA.
  - (* WarmupLoop *)
    destruct (_ && _); inversion Hstep; subst;
      cbn -[Nat.ltb Z.geb Z.ltb Z.max Z.min Z.div Z.sub Z.add Z.of_nat Z.to_nat seq count Nat.add Nat.b2n];
      accounts_step Hi HA.
  - (* WarmupGather *)
    destruct (forallb _ ids); [|discriminate].
    inversion Hstep; subst;
      cbn -[Nat.ltb Z.geb Z.ltb Z.max Z.min Z.div Z.sub Z.add Z.of_nat Z.to_nat seq count Nat.add Nat.b2n];
      accounts_step Hi HA.
  - (* WarmupSleep *)
    inversion Hstep; subst;
      cbn -[Nat.ltb Z.geb Z.ltb Z.max Z.min Z.div Z.sub Z.add Z.of_nat Z.to_nat seq count Nat.add Nat.b2n];
      accounts_step Hi HA.
Qed.

Lemma run_accounts (K : nat) (ls : list label) :
  forall cfg cfg', accounts K cfg -> run ls cfg = Some cfg' -> accounts K cfg'.
Proof.
  induction ls as [|l ls IH]; intros cfg cfg' HA Hrun; cbn [run] in Hrun.
  - injection Hrun as <-. exact HA.
  - destruct (step l cfg) as [cfg1|] eqn:Hstep; [|discriminate].
    eapply IH; [|exact Hrun]. eapply step_accounts; eassumption.
Qed.

Lemma init_accounts (P : Z) (cc : nat) (B : Z) : accounts cc (init P cc B).
Proof. split; cbn; lia. Qed.

(** X22.  Under every interleaving of warm-up, acquire, release and
    replenish, each permit of the semaphore is either free or held by one
    creation task that is inside the blocking initialisation: the creation
    tasks never run more than [creation_concurrency] initialisations at a
    time, and no permit is lost when an initialisation fails. *)
Theorem creation_tasks_respect_the_semaphore (pool_size : Z)
    (creation_concurrency : nat) (batch_size : Z) (ls : list label) (cfg : config) :
  run ls (init pool_size creation_concurrency batch_size) = Some cfg ->
  (sem cfg + count holds_permit (tasks cfg))%nat = creation_concurrency.
Proof.
  intros Hrun. eapply run_accounts; [apply init_accounts|exact Hrun].
Qed.

Lemma creation_tasks_respect_the_semaphore_witness :
  exists cfg,
    run (CallWarmupSessions :: firstn 4 warmup_schedule) (init 10 3 3) = Some cfg
    /\ (sem cfg + count holds_permit (tasks cfg))%nat = 3%nat
    /\ sem cfg = 0%nat.
Proof.
  destruct (run (CallWarmupSessions :: firstn 4 warmup_schedule) (init 10 3 3))
    as [cfg|] eqn:Hrun; [|vm_compute in Hrun; discriminate].
  exists cfg. split; [reflexivity|]. split.
  - apply (creation_tasks_respect_the_semaphore 10 3 3
             (CallWarmupSessions :: firstn 4 warmup_schedule) cfg Hrun).
  - vm_compute in Hrun. injection Hrun as <-. reflexivity.
Defined.

(** X23.  Under every interleaving of warm-up, acquire, release and
    replenish, at most one replenish wave is waiting for its creations,
    and the lock is held exactly while there is one. *)
Theorem one_replenish_wave_at_a_time (pool_size : Z) (creation_concurrency : nat)
    (batch_size : Z) (ls : list label) (cfg : config) :
  run ls (init pool_size creation_concurrency batch_size) = Some cfg ->
  count is_gather (tasks cfg) = Nat.b2n (locked cfg).
Proof.
  intros Hrun. eapply run_accounts; [apply init_accounts|exact Hrun].
Qed.

Lemma one_replenish_wave_at_a_time_witness :
  exists cfg,
    run (firstn 2 replenish_schedule) (init 2 3 3) = Some cfg
    /\ count is_gather (tasks cfg) = Nat.b2n (locked cfg)
    /\ locked cfg = true.
Proof.
  destruct (run (firstn 2 replenish_schedule) (init 2 3 3))
    as [cfg|] eqn:Hrun; [|vm_compute in Hrun; discriminate].
  exists cfg. split; [reflexivity|]. split.
  - apply (one_replenish_wave_at_a_time 2 3 3 (firstn 2 replenish_schedule) cfg Hrun).
  - vm_compute in Hrun. injection Hrun as <-. reflexivity.
Defined.

End PoolAccountFacts.

(** ** Waiting on the session queue *)

Section SessionQueueFacts.
Import SessionQueue.

Lemma wait_cons (fuel : nat) (connection_id : string) (e : entry)
    (rest : list entry) :
  wait_for_session (S fuel) connection_id (e :: rest)
  = if String.eqb (conn_id e) connection_id then Some (Returned e rest)
    else wait_for_session fuel connection_id (rest ++ [e]).
Proof. reflexivity. Qed.

Lemma wait_rotates (connection_id : string) (before : list entry) :
  forall (e : entry) (after front : list entry) (extra : nat),
    Forall (fun x => String.eqb (conn_id x) connection_id = false) before ->
    String.eqb (conn_id e) connection_id = true ->
    wait_for_session (S (List.length before + extra)) connection_id
      (before ++ e :: after ++ front)
    = Some (Returned e (after ++ front ++ before)).
Proof.
  induction before as [|b before IH]; intros e after front extra Hb He.
  - cbn [app List.length Nat.add]. rewrite wait_cons, He, app_nil_r. reflexivity.
  - inversion Hb as [|? ? Hb1 Hb2]; subst.
    cbn [app List.length Nat.add]. rewrite wait_cons, Hb1.
    rewrite <- app_assoc. cbn [app]. rewrite <- app_assoc.
    rewrite (IH e after (front ++ [b]) extra Hb2 He).
    rewrite <- app_assoc. reflexivity.
Qed.

(** X24.  When the queue holds an entry for the connection,
    [wait_for_session] returns the first such entry, and the entries that
    stood before it are then behind the others, in their order. *)
Theorem wait_for_session_returns_the_first_match (connection_id : string)
    (before : list entry) (e : entry) (after : list entry) (extra : nat) :
  Forall (fun x => String.eqb (conn_id x) connection_id = false) before ->
  String.eqb (conn_id e) connection_id = true ->
  wait_for_session (S (List.length before + extra)) connection_id
    (before ++ e :: after)
  = Some (Returned e (after ++ before)).
Proof.
  intros Hb He.
  pose proof (wait_rotates connection_id before e after [] extra Hb He) as H.
  rewrite app_nil_r in H. exact H.
Qed.

Lemma wait_for_session_returns_the_first_match_witness :
  wait_for_session 3 "b" [entry_for "a"; entry_for "b"; entry_for "c"]
  = Some (Returned (entry_for "b") [entry_for "c"; entry_for "a"]).
Proof.
  apply (wait_for_session_returns_the_first_match "b" [entry_for "a"]
           (entry_for "b") [entry_for "c"] 1).
  - repeat constructor.
  - reflexivity.
Defined.

(** X25.  When the queue is not empty and holds no entry for the
    connection, [wait_for_session] neither returns nor suspends: it takes
    an entry and puts it back, turn after turn, without end. *)
Theorem wait_for_session_spins_without_a_match (connection_id : string)
    (session_queue : list entry) (fuel : nat) :
  session_queue <> [] ->
  Forall (fun x => String.eqb (conn_id x) connection_id = false) session_queue ->
  wait_for_session fuel connection_id session_queue = None.
Proof.
  revert session_queue. induction fuel as [|fuel IH]; intros q Hne Hq; [reflexivity|].
  destruct q as [|e rest]; [contradiction|]. inversion Hq as [|? ? He Hrest]; subst.
  rewrite wait_cons, He. apply IH.
  - destruct rest; discriminate.
  - apply Forall_app. split; [exact Hrest|]. repeat constructor. exact He.
Qed.

Lemma wait_for_session_spins_without_a_match_witness :
  wait_for_session 1000 "b" [entry_for "a"; entry_for "c"] = None.
Proof.
  apply (wait_for_session_spins_without_a_match "b" [entry_for "a"; entry_for "c"] 1000).
  - discriminate.
  - repeat constructor.
Defined.

End SessionQueueFacts.

(** ** The registry of sessions *)

Section RegistryFacts.
Import session_manager.

(** X26.  Removing a session that was added brings the registry back when
    neither its id nor its socket was registered before, and removing what
    is not registered changes nothing. *)
Theorem remove_undoes_add (websocket : nat) (session_id : string) (session : nat)
    (self : SessionManager) :
  _sessions self !! session_id = None ->
  websocket ∉ _connections self ->
  remove websocket session_id (add websocket session_id session self) = self
  /\ remove websocket session_id self = self
  /\ active_sessions (add websocket session_id session self)
     = S (active_sessions self)
  /\ active_connections (add websocket session_id session self)
     = S (active_connections self).
Proof.
  intros Hid Hws. destruct self as [ss cs]. cbn [_sessions _connections] in *.
  unfold remove, add, active_sessions, active_connections.
  cbn [_sessions _connections].
  repeat split.
  - f_equal.
    + rewrite delete_insert_eq. apply delete_id, Hid.
    + apply set_eq. intros x.
      rewrite elem_of_difference, elem_of_union, !elem_of_singleton.
      split; [intros [[->|H] Hn]; [contradiction|exact H]|].
      intros H. split; [right; exact H|intros ->; contradiction].
  - f_equal.
    + apply delete_id, Hid.
    + apply set_eq. intros x. rewrite elem_of_difference, elem_of_singleton.
      split; [intros [H _]; exact H|].
      intros H. split; [exact H|intros ->; contradiction].
  - apply map_size_insert_None, Hid.
  - rewrite size_union; [rewrite size_singleton; reflexivity|].
    intros x. rewrite elem_of_singleton. intros -> H. contradiction.
Qed.

Lemma remove_undoes_add_witness :
  remove 1%nat "s1" (add 1%nat "s1" 7%nat new) = new
  /\ remove 1%nat "s1" new = new
  /\ active_sessions (add 1%nat "s1" 7%nat new) = S (active_sessions new)
  /\ active_connections (add 1%nat "s1" 7%nat new) = S (active_connections new).
Proof.
  apply (remove_undoes_add 1%nat "s1" 7%nat new).
  - reflexivity.
  - apply not_elem_of_empty.
Defined.

End RegistryFacts.
